(** * Runtime lifecycle and callback scopes of the node core

    A shallow embedding of the lifecycle code of [src/node.cc] and
    [src/node_internals.h]: the callback scope wrapped around every entry
    into managed code, the [MakeCallback] family, the bootstrap sequence,
    the run loop of [Start], the exit notifications and [ThreadPoolWork].

    The engine (v8), the event loop (libuv) and the managed code they run
    are collaborators of this code.  They are gathered in a record
    [World] of functions over the environment; the embedded code calls
    them exactly where the C++ code does, and every theorem below
    quantifies over all worlds. *)

From Stdlib Require Import ZArith List Bool Lia Ascii String.
From stdpp Require Import base gmap strings list pretty.
Import ListNotations.

Local Open Scope string_scope.
Local Open Scope list_scope.
Local Open Scope Z_scope.

(** ** Managed values and handles *)

(** The managed values this code handles: [Undefined(isolate)],
    [True(isolate)], [Integer::New], strings made by
    [FIXED_ONE_BYTE_STRING], objects, managed functions, and functions
    made from a native function template.  Objects and managed functions
    are named by their identity; what a function does when called belongs
    to the world. *)
Inductive Value : Type :=
| Undefined
| Boolean (b : bool)
| Integer (z : Z)
| Str (s : string)
| Object (o : nat)
| Function (f : nat)
| Native (name : string).

(** [Local<Value>] and [MaybeLocal<Value>] may be empty: [None]. *)
Definition MaybeLocal := option Value.

(** [struct async_context { async_id; trigger_async_id }]. *)
Record async_context : Type := mk_async_context {
  async_id : Z;
  trigger_async_id : Z
}.

(** ** The environment *)

(** What the lifecycle code reads and writes through [Environment* env].
    Managed objects live in [heap] under their identity, so that a change
    made by a listener to the process object is seen by the code that
    reads the object afterwards. *)
Record Environment : Type := mk_env {
  heap : gmap nat (gmap string Value);
  process_object : nat;
  (* context->Global() *)
  global_object : nat;
  domain_callback : option nat;
  async_id_stack : list async_context;
  makecallback_depth : nat;
  can_call_into_js : bool;
  trace_sync_io : bool;
  request_waiting : Z;
  (* event loop: referenced active handles and requests *)
  loop_work : nat;
  is_main_thread : bool;
  (* options()->debug_options() *)
  break_node_first_line : bool;
  inspector_enabled : bool;
  (* inspector_agent()->IsListening() and IsActive() *)
  inspector_listening : bool;
  inspector_active : bool
}.

Definition set_heap (x : gmap nat (gmap string Value)) (e : Environment)
  : Environment :=
  mk_env x (process_object e) (global_object e) (domain_callback e)
         (async_id_stack e) (makecallback_depth e) (can_call_into_js e)
         (trace_sync_io e) (request_waiting e) (loop_work e)
         (is_main_thread e) (break_node_first_line e) (inspector_enabled e)
         (inspector_listening e) (inspector_active e).

Definition set_async_id_stack (x : list async_context) (e : Environment)
  : Environment :=
  mk_env (heap e) (process_object e) (global_object e) (domain_callback e)
         x (makecallback_depth e) (can_call_into_js e) (trace_sync_io e)
         (request_waiting e) (loop_work e) (is_main_thread e)
         (break_node_first_line e) (inspector_enabled e)
         (inspector_listening e) (inspector_active e).

Definition set_makecallback_depth (x : nat) (e : Environment) : Environment :=
  mk_env (heap e) (process_object e) (global_object e) (domain_callback e)
         (async_id_stack e) x (can_call_into_js e) (trace_sync_io e)
         (request_waiting e) (loop_work e) (is_main_thread e)
         (break_node_first_line e) (inspector_enabled e)
         (inspector_listening e) (inspector_active e).

Definition set_can_call_into_js (x : bool) (e : Environment) : Environment :=
  mk_env (heap e) (process_object e) (global_object e) (domain_callback e)
         (async_id_stack e) (makecallback_depth e) x (trace_sync_io e)
         (request_waiting e) (loop_work e) (is_main_thread e)
         (break_node_first_line e) (inspector_enabled e)
         (inspector_listening e) (inspector_active e).

Definition set_trace_sync_io (x : bool) (e : Environment) : Environment :=
  mk_env (heap e) (process_object e) (global_object e) (domain_callback e)
         (async_id_stack e) (makecallback_depth e) (can_call_into_js e) x
         (request_waiting e) (loop_work e) (is_main_thread e)
         (break_node_first_line e) (inspector_enabled e)
         (inspector_listening e) (inspector_active e).

Definition set_request_waiting (x : Z) (e : Environment) : Environment :=
  mk_env (heap e) (process_object e) (global_object e) (domain_callback e)
         (async_id_stack e) (makecallback_depth e) (can_call_into_js e)
         (trace_sync_io e) x (loop_work e) (is_main_thread e)
         (break_node_first_line e) (inspector_enabled e)
         (inspector_listening e) (inspector_active e).

Definition set_loop_work (x : nat) (e : Environment) : Environment :=
  mk_env (heap e) (process_object e) (global_object e) (domain_callback e)
         (async_id_stack e) (makecallback_depth e) (can_call_into_js e)
         (trace_sync_io e) (request_waiting e) x (is_main_thread e)
         (break_node_first_line e) (inspector_enabled e)
         (inspector_listening e) (inspector_active e).

(** [object->Get(context, key)]: a property that is absent reads as
    [undefined]. *)
Definition Get (e : Environment) (obj : nat) (key : string) : Value :=
  match heap e !! obj with
  | Some props => default Undefined (props !! key)
  | None => Undefined
  end.

(** [object->Set(context, key, value)]. *)
Definition Set_ (obj : nat) (key : string) (v : Value) (e : Environment)
  : Environment :=
  set_heap (<[obj := <[key := v]> (default ∅ (heap e !! obj))]> (heap e)) e.

(** ** The collaborators *)

Record World : Type := mk_world {
  (* v8: callee->Call(context, recv, argc, argv); None is an empty result *)
  call_function :
    nat -> nat -> list Value -> Environment -> MaybeLocal * Environment;
  (* per_process::native_module_loader.CompileAndCall(context, id,
     parameters, arguments, env) *)
  CompileAndCall :
    string -> list string -> list Value ->
    Environment -> MaybeLocal * Environment;
  (* the microtask and tick queue flushed when a callback scope closes;
     true when the flush surfaced an exception *)
  flush_tick : Environment -> bool * Environment;
  (* libuv: uv_run(loop, UV_RUN_DEFAULT) *)
  uv_run : Environment -> Environment;
  (* platform_->DrainTasks / CancelPendingDelayedTasks *)
  DrainTasks : Environment -> Environment;
  CancelPendingDelayedTasks : Environment -> Environment;
  (* env->RunBeforeExitCallbacks(), RunCleanup(), RunAtExitCallbacks() *)
  RunBeforeExitCallbacks : Environment -> Environment;
  RunCleanup : Environment -> Environment;
  RunAtExitCallbacks : Environment -> Environment;
  (* env.Start(args, exec_args, v8_is_profiling) *)
  env_Start : Environment -> Environment;
  (* inspector_agent()->Start(...); WaitForDisconnect() *)
  inspector_agent_Start : Environment -> bool * Environment;
  inspector_WaitForDisconnect : Environment -> Environment;
  (* v8: Isolate::Allocate() returned a non-null isolate *)
  Isolate_Allocate : bool;
  (* SetupBootstrapObject(env, bootstrapper), the property installer *)
  SetupBootstrapObject : nat -> Environment -> Environment;
  (* v8: the integer that a string, an object or a function converts to in
     the environment at hand; None when the conversion throws.  The
     conversion is taken to leave the environment as it is. *)
  to_number : Environment -> Value -> option Z;
  (* v8: whether reading, resp. writing, a property that the object does
     not hold as a data property (an accessor, an interceptor) throws *)
  Get_throws : Environment -> nat -> string -> bool;
  Set_throws : Environment -> nat -> string -> Value -> bool;
  (* v8: the function that the native template of that name gives *)
  native_function : string -> nat;
  (* env->exit_code_string(), the name of the exit-code property *)
  exit_code_string : string;
  (* build configuration *)
  HAVE_INSPECTOR : bool;
  NODE_USE_V8_PLATFORM : bool
}.

(** ToInt32 wraps a number into the signed 32-bit range. *)
Definition wrap_int32 (z : Z) : Z := (z + 2 ^ 31) mod 2 ^ 32 - 2 ^ 31.

(** v8 [Value::ToInteger] on the values of the model; empty when the
    conversion throws, which only that of a string, an object or a
    function can. *)
Definition ToInteger (W : World) (e : Environment) (v : Value) : option Z :=
  match v with
  | Undefined => Some 0
  | Boolean b => Some (if b then 1 else 0)
  | Integer z => Some z
  | _ => to_number W e v
  end.

(** v8 [Value::Int32Value]: nothing when the conversion throws. *)
Definition Int32Value (W : World) (e : Environment) (v : Value) : option Z :=
  wrap_int32 <$> ToInteger W e v.

(** v8 [Value::IsFunction], and the function that a value is: a native
    function is a function as one of managed code is. *)
Definition as_function (W : World) (v : Value) : option nat :=
  match v with
  | Function f => Some f
  | Native name => Some (native_function W name)
  | _ => None
  end.

Definition IsFunction (v : Value) : bool :=
  match v with
  | Function _ | Native _ => true
  | _ => false
  end.

(** Whether the object holds the key as a data property. *)
Definition has_data_property (e : Environment) (obj : nat) (key : string)
  : bool :=
  match heap e !! obj with
  | Some props => bool_decide (is_Some (props !! key))
  | None => false
  end.

(** v8 [object->Get(context, key)] as a [MaybeLocal]: a data property
    reads as its value; a key that the object does not hold as a data
    property reads as [undefined], unless the world has the read throw,
    which gives an empty handle. *)
Definition MaybeGet (W : World) (e : Environment) (obj : nat) (key : string)
  : MaybeLocal :=
  if negb (has_data_property e obj key) && Get_throws W e obj key
  then None
  else Some (Get e obj key).

(** ** Machine state, outcomes and the monad of the embedding *)

(** What the code did, newest event first.  The collaborators cannot
    reach the log: it records the calls this code makes. *)
Inductive Event : Type :=
| EvPushAsyncIds (ctx : async_context)
| EvPopAsyncId (id : Z)
| EvClearAsyncIdStack
(* callee->Call(recv, args), with the environment the callee starts in *)
| EvCall (callee recv : nat) (args : list Value) (at_call : Environment)
| EvFlushTick
| EvCompileAndCall (id : string)
| EvRegisterIsolate
| EvDisposeIsolate
| EvEnvStart
| EvStartInspector
| EvThrowError (message : string)
| EvUvRun
| EvDrainVMTasks
| EvCancelVMTasks
(* uv_loop_alive(loop) and what it answered *)
| EvLoopAlive (alive : bool)
| EvRunBeforeExitCallbacks
| EvWaitForInspectorDisconnect
| EvSetCanCallIntoJs (b : bool)
| EvRunCleanup
| EvRunAtExit.

Record Machine : Type := mk_machine {
  env : Environment;
  log : list Event
}.

(** A run ends with a result, with the process aborted by a failed
    [CHECK] or a [ToLocalChecked] on an empty handle, or, for the run
    loop only, without fuel left. *)
Inductive Outcome (A : Type) : Type :=
| Done (a : A) (m : Machine)
| Fatal (m : Machine)
| OutOfFuel (m : Machine).
Arguments Done {A} a m.
Arguments Fatal {A} m.
Arguments OutOfFuel {A} m.

Definition M (A : Type) : Type := Machine -> Outcome A.

Definition ret {A} (a : A) : M A := fun m => Done a m.

Definition bind {A B} (c : M A) (k : A -> M B) : M B :=
  fun m =>
    match c m with
    | Done a m' => k a m'
    | Fatal m' => Fatal m'
    | OutOfFuel m' => OutOfFuel m'
    end.

Notation "x <- c ;; k" := (bind c (fun x => k))
  (at level 100, c at next level, right associativity).
Notation "c ;;; k" := (bind c (fun _ => k))
  (at level 100, right associativity).

Definition fatal {A} : M A := fun m => Fatal m.
Definition out_of_fuel {A} : M A := fun m => OutOfFuel m.

Definition machine_of {A} (o : Outcome A) : Machine :=
  match o with
  | Done _ m => m
  | Fatal m => m
  | OutOfFuel m => m
  end.

Definition emit_event (ev : Event) : M unit :=
  fun m => Done tt (mk_machine (env m) (ev :: log m)).

Definition read {A} (f : Environment -> A) : M A :=
  fun m => Done (f (env m)) m.

Definition modify (f : Environment -> Environment) : M unit :=
  fun m => Done tt (mk_machine (f (env m)) (log m)).

(** A collaborator that returns a value. *)
Definition ask {A} (f : Environment -> A * Environment) : M A :=
  fun m => let r := f (env m) in Done (fst r) (mk_machine (snd r) (log m)).

(** The events in the order they happened. *)
Definition history (m : Machine) : list Event := rev (log m).

(** Whether [object->Set(context, key, value)] answers nothing: the
    object does not hold the key as a data property and the world has
    the write throw. *)
Definition Set_is_nothing (W : World) (e : Environment) (obj : nat)
    (key : string) (v : Value) : bool :=
  negb (has_data_property e obj key) && Set_throws W e obj key v.

(** v8 [object->Set(context, key, value)] as a [Maybe<bool>]: nothing,
    or the value is stored. *)
Definition MaybeSet (W : World) (obj : nat) (key : string) (v : Value)
  : M (option bool) :=
  fun m =>
    if Set_is_nothing W (env m) obj key v
    then Done None m
    else Done (Some true) (mk_machine (Set_ obj key v (env m)) (log m)).

(** [Maybe::FromJust] and [Maybe::ToChecked]: fatal on nothing. *)
Definition FromJust {A} (v : option A) : M A :=
  match v with
  | Some x => ret x
  | None => fatal
  end.

(** ** The async-id stack of [env->async_hooks()] *)

(** Modelled from the spec: [push_async_ids], [pop_async_id] and
    [clear_async_id_stack] are declared outside the sources at hand.  A
    push puts the pair on the stack.  A pop asks for the id that was
    pushed: a different id on top is the fatal programming-error path.  A
    pop on an empty stack does nothing and answers false; this is what
    the comment in [ExecuteBootstrapper] relies on when it clears the
    stack so that the later id check does not fail. *)
Definition push_async_ids (id trigger : Z) : M unit :=
  emit_event (EvPushAsyncIds (mk_async_context id trigger));;;
  modify (fun e =>
    set_async_id_stack (mk_async_context id trigger :: async_id_stack e) e).

(** Modelled from the spec: [pop_async_id], declared outside the sources
    at hand.  The id asked for must be the one on top; a different id is
    the fatal path; an empty stack is left alone. *)
Definition pop_async_id (id : Z) : M bool :=
  emit_event (EvPopAsyncId id);;;
  st <- read async_id_stack;;
  match st with
  | [] => ret false
  | top :: rest =>
      if async_id top =? id
      then modify (set_async_id_stack rest);;;
           ret (match rest with [] => false | _ => true end)
      else fatal
  end.

(** Modelled from the spec: [clear_async_id_stack], declared outside the
    sources at hand, resets the stack. *)
Definition clear_async_id_stack : M unit :=
  emit_event EvClearAsyncIdStack;;;
  modify (set_async_id_stack []).

(** Modelled from the spec: [Environment::AsyncCallbackScope] is declared
    outside the sources at hand.  It is the guard that counts how deep
    the code is inside callback scopes; the count is what
    [env->makecallback_depth()] reads. *)
Definition AsyncCallbackScope_enter : M unit :=
  modify (fun e => set_makecallback_depth (S (makecallback_depth e)) e).

(** Modelled from the spec: the destructor of the same guard. *)
Definition AsyncCallbackScope_leave : M unit :=
  modify (fun e => set_makecallback_depth (Nat.pred (makecallback_depth e)) e).

(** ** [InternalCallbackScope] *)

Inductive ResourceExpectation : Type :=
| kRequireResource
| kAllowEmptyResource.

(** The private members of the class in [node_internals.h]; the
    [callback_scope_] member is the depth guard above. *)
Record InternalCallbackScope : Type := mk_scope {
  async_context_ : async_context;
  object_ : option nat;
  failed_ : bool;
  pushed_ids_ : bool;
  closed_ : bool
}.

Definition Failed (s : InternalCallbackScope) : bool := failed_ s.

Definition MarkAsFailed (s : InternalCallbackScope) : InternalCallbackScope :=
  mk_scope (async_context_ s) (object_ s) true (pushed_ids_ s) (closed_ s).

(** Modelled from the spec: the flush of pending microtask and domain
    work that [Close] makes (section 4.2); what it runs belongs to the
    world. *)
Definition flush (W : World) : M bool :=
  emit_event EvFlushTick;;;
  ask (flush_tick W).

(** Modelled from the spec: the constructor, [Close] and the destructor
    are defined outside the sources at hand (section 4.2 of the spec).
    Construction is fatal when a resource is required and none is given,
    and pushes the async-id pair.  Once managed callbacks are forbidden
    (section 4.4, step 3: [set_can_call_into_js(false)] in [Start]) a
    scope that is constructed is failed from the start and has pushed
    nothing: this is what the members [failed_] and [pushed_ids_] of the
    class record, and what [InternalMakeCallback] tests with [Failed()]
    right after the construction. *)
Definition InternalCallbackScope_new (object : option nat)
    (asyncContext : async_context) (expect : ResourceExpectation)
  : M InternalCallbackScope :=
  AsyncCallbackScope_enter;;;
  match expect, object with
  | kRequireResource, None => fatal
  | _, _ =>
      can <- read can_call_into_js;;
      if can : bool
      then
        push_async_ids (async_id asyncContext)
                       (trigger_async_id asyncContext);;;
        ret (mk_scope asyncContext object false true false)
      else ret (mk_scope asyncContext object true false false)
  end.

(** Modelled from the spec: closing an open scope pops the pair, then
    flushes the pending microtask work unless the scope was marked as
    failed; an exception surfaced by the flush marks the scope as failed.
    Closing a closed scope does nothing. *)
Definition Close (W : World) (s : InternalCallbackScope)
  : M InternalCallbackScope :=
  if closed_ s then ret s
  else
    let s1 := mk_scope (async_context_ s) (object_ s) (failed_ s)
                       (pushed_ids_ s) true in
    (if pushed_ids_ s1
     then pop_async_id (async_id (async_context_ s1))
     else ret false);;;
    if failed_ s1 then ret s1
    else
      threw <- flush W;;
      ret (if threw : bool then MarkAsFailed s1 else s1).

(** Modelled from the spec: the destructor closes a scope that is still
    open; then the depth guard member is destroyed. *)
Definition InternalCallbackScope_delete (W : World) (s : InternalCallbackScope)
  : M unit :=
  Close W s;;;
  AsyncCallbackScope_leave.

(** ** [InternalMakeCallback] and the public [MakeCallback]s *)

(** [MaybeLocal::ToLocalChecked]: fatal on an empty handle. *)
Definition ToLocalChecked (v : MaybeLocal) : M Value :=
  match v with
  | Some x => ret x
  | None => fatal
  end.

Definition Call (W : World) (callee recv : nat) (args : list Value)
  : M MaybeLocal :=
  (fun m => emit_event (EvCall callee recv args (env m)) m);;;
  ask (call_function W callee recv args).

(** node.cc, InternalMakeCallback.  The scope is destroyed on each of the
    four ways out. *)
Definition InternalMakeCallback (W : World) (recv : option nat)
    (callback : nat) (argv : list Value) (asyncContext : async_context)
  : M MaybeLocal :=
  match recv with
  | None => fatal (* CHECK(!recv.IsEmpty()) *)
  | Some r =>
      scope <- InternalCallbackScope_new recv asyncContext kRequireResource;;
      if Failed scope
      then InternalCallbackScope_delete W scope;;; ret None
      else
        domain_cb <- read domain_callback;;
        ret_ <- match domain_cb with
                | Some d =>
                    if negb (async_id asyncContext =? 0)
                    then Call W callback r argv
                    else Call W d r (Function callback :: argv)
                | None => Call W callback r argv
                end;;
        match ret_ with
        | None =>
            InternalCallbackScope_delete W (MarkAsFailed scope);;;
            ret None
        | Some v =>
            scope' <- Close W scope;;
            if Failed scope'
            then InternalCallbackScope_delete W scope';;; ret None
            else InternalCallbackScope_delete W scope';;; ret (Some v)
        end
  end.

(** node.cc, MakeCallback(isolate, recv, Local<Function> callback, argc,
    argv, asyncContext).  The environment of the callback's creation
    context is the one environment of the model. *)
Definition MakeCallback_function (W : World) (recv callback : nat)
    (argv : list Value) (asyncContext : async_context) : M MaybeLocal :=
  ret_ <- InternalMakeCallback W (Some recv) callback argv asyncContext;;
  depth <- read makecallback_depth;;
  match ret_, depth with
  | None, O => ret (Some Undefined)
  | _, _ => ret ret_
  end.

(** MakeCallback(isolate, recv, Local<String> symbol, ...): the
    property is read with [ToLocalChecked]. *)
Definition MakeCallback_symbol (W : World) (recv : nat) (symbol : string)
    (argv : list Value) (asyncContext : async_context) : M MaybeLocal :=
  callback_m <- read (fun e => MaybeGet W e recv symbol);;
  callback_v <- ToLocalChecked callback_m;;
  match as_function W callback_v with
  | Some callback =>
      MakeCallback_function W recv callback argv asyncContext
  | None => ret None
  end.

(** MakeCallback(isolate, recv, const char* method, ...). *)
Definition MakeCallback_method (W : World) (recv : nat) (method : string)
    (argv : list Value) (asyncContext : async_context) : M MaybeLocal :=
  MakeCallback_symbol W recv method argv asyncContext.

(** The legacy overloads: async context {0, 0}, and
    [FromMaybe(Local<Value>())] keeps an empty result empty. *)
Definition MakeCallback_legacy_method (W : World) (recv : nat)
    (method : string) (argv : list Value) : M (option Value) :=
  MakeCallback_method W recv method argv (mk_async_context 0 0).

Definition MakeCallback_legacy_symbol (W : World) (recv : nat)
    (symbol : string) (argv : list Value) : M (option Value) :=
  MakeCallback_symbol W recv symbol argv (mk_async_context 0 0).

Definition MakeCallback_legacy_function (W : World) (recv callback : nat)
    (argv : list Value) : M (option Value) :=
  MakeCallback_function W recv callback argv (mk_async_context 0 0).

(** ** Bootstrap *)

(** node.cc, ExecuteBootstrapper. *)
Definition ExecuteBootstrapper (W : World) (id : string)
    (parameters : list string) (arguments : list Value) : M MaybeLocal :=
  emit_event (EvCompileAndCall id);;;
  ret_ <- ask (CompileAndCall W id parameters arguments);;
  match ret_ with
  | None => clear_async_id_stack
  | Some _ => ret tt
  end;;;
  ret ret_.

(** v8 [Object::New]: an empty object under an identity not in use. *)
Definition Object_New : M nat :=
  fun m =>
    let o := fresh (dom (heap (env m))) in
    Done o (mk_machine (set_heap (<[o := ∅]> (heap (env m))) (env m))
                       (log m)).

(** node.cc, LoadEnvironment (built without dtrace and etw). *)
Definition LoadEnvironment (W : World) : M unit :=
  global <- read global_object;;
  process <- read process_object;;
  modify (Set_ global "global" (Object global));;;
  modify (Set_ process "_rawDebug" (Native "RawDebug"));;;
  break_first <- read break_node_first_line;;
  loader_exports <-
    ExecuteBootstrapper W "internal/bootstrap/loaders"
      ["process"; "getBinding"; "getLinkedBinding"; "getInternalBinding";
       "debugBreak"]
      [Object process; Native "GetBinding"; Native "GetLinkedBinding";
       Native "GetInternalBinding"; Boolean break_first];;
  match loader_exports with
  | None => ret tt
  | Some exports =>
      bootstrapper <- Object_New;;
      modify (SetupBootstrapObject W bootstrapper);;;
      main_thread <- read is_main_thread;;
      ExecuteBootstrapper W "internal/bootstrap/node"
        ["process"; "bootstrappers"; "loaderExports";
         "triggerFatalException"; "isMainThread"]
        [Object process; Object bootstrapper; exports;
         Native "FatalException"; Boolean main_thread];;;
      ret tt
  end.

(** node.cc, the [v8_platform] members StartInspector and
    InspectorStarted, under the three build configurations. *)
Definition v8_platform_StartInspector (W : World) : M bool :=
  if NODE_USE_V8_PLATFORM W
  then ask (inspector_agent_Start W)
  else emit_event (EvThrowError "Node compiled with NODE_USE_V8_PLATFORM=0");;;
       ret true.

Definition v8_platform_InspectorStarted (W : World) : M bool :=
  if NODE_USE_V8_PLATFORM W && HAVE_INSPECTOR W
  then read inspector_listening
  else ret false.

(** node.cc, StartInspector. *)
Definition StartInspector (W : World) : M unit :=
  if HAVE_INSPECTOR W
  then
    listening <- read inspector_listening;;
    if listening : bool then fatal (* CHECK(!IsListening()) *)
    else emit_event EvStartInspector;;;
         v8_platform_StartInspector W;;; ret tt
  else ret tt.

(** node.cc, WaitForInspectorDisconnect. *)
Definition WaitForInspectorDisconnect (W : World) : M unit :=
  if HAVE_INSPECTOR W
  then
    active <- read inspector_active;;
    if active : bool
    then emit_event EvWaitForInspectorDisconnect;;;
         modify (inspector_WaitForDisconnect W)
    else ret tt
  else ret tt.

(** ** Exit notifications *)

(** Modelled from the spec: libuv [uv_loop_alive] is outside the sources
    at hand; the loop is alive while it has referenced work (glossary:
    referenced work keeps the loop from being idle). *)
Definition uv_loop_alive : M bool :=
  alive <- read (fun e => (0 <? loop_work e)%nat);;
  emit_event (EvLoopAlive alive);;;
  ret alive.

(** The exit code as [EmitBeforeExit] reads it in an environment,
    [Get(...).ToLocalChecked()->ToInteger(...).ToLocalChecked()]:
    nothing where that aborts. *)
Definition before_exit_code_of (W : World) (e : Environment) (process : nat)
  : option Z :=
  match MaybeGet W e process (exit_code_string W) with
  | Some v => ToInteger W e v
  | None => None
  end.

(** node.cc, EmitBeforeExit: the exit code is read with
    [ToLocalChecked] and converted with [ToInteger] and
    [ToLocalChecked]. *)
Definition EmitBeforeExit (W : World) : M unit :=
  process <- read process_object;;
  exit_code_m <- read (fun e => MaybeGet W e process (exit_code_string W));;
  exit_code_v <- ToLocalChecked exit_code_m;;
  code_m <- read (fun e => ToInteger W e exit_code_v);;
  code <- FromJust code_m;;
  r <- MakeCallback_method W process "emit"
         [Str "beforeExit"; Integer code] (mk_async_context 0 0);;
  ToLocalChecked r;;;
  ret tt.

(** node.cc, RunBeforeExit. *)
Definition RunBeforeExit (W : World) : M unit :=
  emit_event EvRunBeforeExitCallbacks;;;
  modify (RunBeforeExitCallbacks W);;;
  alive <- uv_loop_alive;;
  if alive : bool then ret tt else EmitBeforeExit W.

(** The exit code as [EmitExit] reads it:
    [Get(...).ToLocalChecked()->Int32Value(...).ToChecked()]. *)
Definition read_exit_code (W : World) (process : nat) : M Z :=
  exit_code_m <- read (fun e => MaybeGet W e process (exit_code_string W));;
  exit_code_v <- ToLocalChecked exit_code_m;;
  code_m <- read (fun e => Int32Value W e exit_code_v);;
  FromJust code_m.

(** What that reading gives in an environment: nothing where it
    aborts. *)
Definition exit_code_of (W : World) (e : Environment) (process : nat)
  : option Z :=
  match MaybeGet W e process (exit_code_string W) with
  | Some v => Int32Value W e v
  | None => None
  end.

(** node.cc, EmitExit. *)
Definition EmitExit (W : World) : M Z :=
  process <- read process_object;;
  set_m <- MaybeSet W process "_exiting" (Boolean true);;
  FromJust set_m;;;
  code <- read_exit_code W process;;
  r <- MakeCallback_method W process "emit"
         [Str "exit"; Integer code] (mk_async_context 0 0);;
  ToLocalChecked r;;;
  (* Reload exit code, it may be changed by `emit('exit')` *)
  read_exit_code W process.

(** node.cc, RunAtExit. *)
Definition RunAtExit (W : World) : M unit :=
  emit_event EvRunAtExit;;;
  modify (RunAtExitCallbacks W).

Definition DrainVMTasks (W : World) : M unit :=
  emit_event EvDrainVMTasks;;;
  modify (DrainTasks W).

Definition CancelVMTasks (W : World) : M unit :=
  emit_event EvCancelVMTasks;;;
  modify (CancelPendingDelayedTasks W).

(** ** The run loop *)

(** node.cc, Start(isolate, isolate_data, args, exec_args), the block
    around [LoadEnvironment]. *)
Definition bootstrap_block (W : World) : M unit :=
  AsyncCallbackScope_enter;;;
  push_async_ids 1 0;;;
  LoadEnvironment W;;;
  pop_async_id 1;;;
  AsyncCallbackScope_leave.

(** The do-while loop of the same function.  Nothing bounds the number
    of rounds, so the embedding takes fuel: one unit per round.  A
    [continue] in a do-while goes to the test [more == true], which then
    holds, so it starts the next round. *)
Fixpoint event_loop (W : World) (fuel : nat) : M unit :=
  match fuel with
  | O => out_of_fuel
  | S fuel' =>
      emit_event EvUvRun;;;
      modify (uv_run W);;;
      DrainVMTasks W;;;
      more <- uv_loop_alive;;
      if more : bool then event_loop W fuel'
      else
        RunBeforeExit W;;;
        more' <- uv_loop_alive;;
        if more' : bool then event_loop W fuel' else ret tt
  end.

(** What follows the loop: exit notification, teardown, exit code.
    [stop_sub_worker_contexts] and [uv_tty_reset_mode] touch nothing the
    model holds. *)
Definition exit_sequence (W : World) : M Z :=
  modify (set_trace_sync_io false);;;
  exit_code <- EmitExit W;;
  WaitForInspectorDisconnect W;;;
  emit_event (EvSetCanCallIntoJs false);;;
  modify (set_can_call_into_js false);;;
  emit_event EvRunCleanup;;;
  modify (RunCleanup W);;;
  RunAtExit W;;;
  DrainVMTasks W;;;
  CancelVMTasks W;;;
  ret exit_code.

(** The RunLoop of the spec: bootstrap, loop, exit. *)
Definition RunLoop (W : World) (fuel : nat) : M Z :=
  bootstrap_block W;;;
  event_loop W fuel;;;
  exit_sequence W.

(** node.cc, Start(isolate, isolate_data, args, exec_args). *)
Definition Start_isolate (W : World) (fuel : nat) : M Z :=
  emit_event EvEnvStart;;;
  modify (env_Start W);;;
  StartInspector W;;;
  enabled <- read inspector_enabled;;
  started <- v8_platform_InspectorStarted W;;
  if enabled && negb started
  then ret 12 (* Signal internal error. *)
  else RunLoop W fuel.

(** node.cc, NewIsolate: null when [Isolate::Allocate] gives null. *)
Definition NewIsolate (W : World) : M bool :=
  if Isolate_Allocate W
  then emit_event EvRegisterIsolate;;; ret true
  else ret false.

(** node.cc, Start(event_loop, args, exec_args). *)
Definition Start_loop (W : World) (fuel : nat) : M Z :=
  isolate <- NewIsolate W;;
  if isolate : bool
  then
    exit_code <- Start_isolate W fuel;;
    emit_event EvDisposeIsolate;;;
    ret exit_code
  else ret 12 (* Signal internal error. *).

(** ** [ThreadPoolWork] *)

(** The life of the [uv_work_t work_req_] that a unit owns. *)
Inductive uv_work_state : Type :=
| work_unsubmitted
| work_queued
| work_running
| work_done
| work_cancelled
| work_delivered.

(** What happened to a unit, newest event first.  The completion event
    carries the status and the value of the outstanding-work counter at
    the moment [AfterThreadPoolWork] is entered. *)
Inductive PoolEvent : Type :=
| EvIncreaseWaitingRequestCounter
| EvDecreaseWaitingRequestCounter
| EvQueueWork
| EvDoThreadPoolWorkEnter
| EvDoThreadPoolWorkReturn
| EvAfterThreadPoolWork (status : Z) (waiting : Z).

(** The virtual members of a concrete unit.  [DoThreadPoolWork] runs on
    a worker thread and has no access to the environment. *)
Record WorkImpl : Type := mk_work_impl {
  AfterThreadPoolWork : Z -> Environment -> Environment
}.

Record ThreadPoolWork : Type := mk_work {
  env_ : Environment;
  work_req_ : uv_work_state;
  work_log : list PoolEvent
}.

(** Modelled from the spec: the libuv error codes are outside the
    sources at hand (these are the values of uv-errno.h on Linux); the
    spec has every cancellation or error code negative. *)
Definition UV_ECANCELED : Z := -125.
Definition UV_EBUSY : Z := -16.
Definition UV_EINVAL : Z := -22.

Definition work_event (ev : PoolEvent) (w : ThreadPoolWork) : ThreadPoolWork :=
  mk_work (env_ w) (work_req_ w) (ev :: work_log w).

(** Modelled from the spec: the counter of outstanding work of the
    environment, declared outside the sources at hand. *)
Definition IncreaseWaitingRequestCounter (w : ThreadPoolWork)
  : ThreadPoolWork :=
  mk_work (set_request_waiting (request_waiting (env_ w) + 1) (env_ w))
          (work_req_ w) (EvIncreaseWaitingRequestCounter :: work_log w).

(** Modelled from the spec: the decrement of the same counter. *)
Definition DecreaseWaitingRequestCounter (w : ThreadPoolWork)
  : ThreadPoolWork :=
  mk_work (set_request_waiting (request_waiting (env_ w) - 1) (env_ w))
          (work_req_ w) (EvDecreaseWaitingRequestCounter :: work_log w).

(** Modelled from the spec: libuv [uv_queue_work] submits the record
    (sections 4.3 and 5); with both callbacks given it answers 0. *)
Definition uv_queue_work (w : ThreadPoolWork) : Z * ThreadPoolWork :=
  (0, mk_work (env_ w) work_queued (EvQueueWork :: work_log w)).

(** node_internals.h, ThreadPoolWork::ScheduleWork.  [None] is the
    failed [CHECK_EQ(status, 0)]. *)
Definition ScheduleWork (w : ThreadPoolWork) : option ThreadPoolWork :=
  let w1 := IncreaseWaitingRequestCounter w in
  let r := uv_queue_work w1 in
  if fst r =? 0 then Some (snd r) else None.

(** The two lambdas that [ScheduleWork] hands to [uv_queue_work]. *)
Definition work_cb_enter (w : ThreadPoolWork) : ThreadPoolWork :=
  work_event EvDoThreadPoolWorkEnter w.

Definition work_cb_return (w : ThreadPoolWork) : ThreadPoolWork :=
  work_event EvDoThreadPoolWorkReturn w.

Definition after_work_cb (I : WorkImpl) (status : Z) (w : ThreadPoolWork)
  : ThreadPoolWork :=
  let w1 := DecreaseWaitingRequestCounter w in
  mk_work (AfterThreadPoolWork I status (env_ w1)) (work_req_ w1)
          (EvAfterThreadPoolWork status (request_waiting (env_ w1))
             :: work_log w1).

(** Modelled from the spec: libuv [uv_cancel] succeeds on a record that
    no worker has picked up, and changes nothing otherwise. *)
Definition uv_cancel (w : ThreadPoolWork) : Z * ThreadPoolWork :=
  match work_req_ w with
  | work_queued => (0, mk_work (env_ w) work_cancelled (work_log w))
  | work_unsubmitted => (UV_EINVAL, w)
  | _ => (UV_EBUSY, w)
  end.

(** node_internals.h, ThreadPoolWork::CancelWork. *)
Definition CancelWork (w : ThreadPoolWork) : Z * ThreadPoolWork :=
  uv_cancel w.

(** Modelled from the spec: what the thread pool and the event loop may
    do with a submitted record, one step at a time.  A worker picks up a
    queued record and runs the work callback; the loop thread delivers a
    finished record with status 0 and a cancelled one with the
    cancellation code.  A step that does not apply changes nothing. *)
Inductive PoolStep : Type :=
| worker_picks_up
| worker_finishes
| loop_delivers
| owner_cancels.

Definition set_work_req (st : uv_work_state) (w : ThreadPoolWork)
  : ThreadPoolWork :=
  mk_work (env_ w) st (work_log w).

(** Modelled from the spec: one step of the thread pool, the event loop
    or the owner on a unit (sections 4.3 and 5). *)
Definition pool_step (I : WorkImpl) (s : PoolStep) (w : ThreadPoolWork)
  : ThreadPoolWork :=
  match s, work_req_ w with
  | worker_picks_up, work_queued => set_work_req work_running (work_cb_enter w)
  | worker_finishes, work_running => set_work_req work_done (work_cb_return w)
  | loop_delivers, work_done =>
      after_work_cb I 0 (set_work_req work_delivered w)
  | loop_delivers, work_cancelled =>
      after_work_cb I UV_ECANCELED (set_work_req work_delivered w)
  | owner_cancels, _ => snd (CancelWork w)
  | _, _ => w
  end.

Fixpoint pool_run (I : WorkImpl) (sched : list PoolStep) (w : ThreadPoolWork)
  : ThreadPoolWork :=
  match sched with
  | [] => w
  | s :: rest => pool_run I rest (pool_step I s w)
  end.

(** ** Nested uses of callback scopes *)

(** What a piece of code can do with the scope it holds: mark it as
    failed, close it by hand, or run a block that holds a scope of its
    own.  A block constructs its scope, runs its body and destroys the
    scope at its end, as a stack-allocated [InternalCallbackScope] does. *)
#[warnings="-register-all"]
Inductive ScopeOp : Type :=
| OpMarkAsFailed
| OpClose
| OpNested (ctx : async_context) (object : nat) (body : list ScopeOp).

Fixpoint run_op (W : World) (op : ScopeOp) (s : InternalCallbackScope)
  : M InternalCallbackScope :=
  match op with
  | OpMarkAsFailed => ret (MarkAsFailed s)
  | OpClose => Close W s
  | OpNested ctx object body =>
      inner <- InternalCallbackScope_new (Some object) ctx kRequireResource;;
      inner' <- (fix run_body (ops : list ScopeOp) (s0 : InternalCallbackScope)
                   : M InternalCallbackScope :=
                   match ops with
                   | [] => ret s0
                   | o :: rest => s1 <- run_op W o s0;; run_body rest s1
                   end) body inner;;
      InternalCallbackScope_delete W inner';;;
      ret s
  end.

Fixpoint run_ops (W : World) (ops : list ScopeOp) (s : InternalCallbackScope)
  : M InternalCallbackScope :=
  match ops with
  | [] => ret s
  | o :: rest => s1 <- run_op W o s;; run_ops W rest s1
  end.

Definition run_scope (W : World) (ctx : async_context) (object : nat)
    (body : list ScopeOp) : M unit :=
  inner <- InternalCallbackScope_new (Some object) ctx kRequireResource;;
  inner' <- run_ops W body inner;;
  InternalCallbackScope_delete W inner'.

(** The number of scopes a body constructs. *)
Fixpoint scopes_of (op : ScopeOp) : nat :=
  match op with
  | OpNested _ _ body =>
      S ((fix sum (ops : list ScopeOp) : nat :=
            match ops with
            | [] => O
            | o :: rest => (scopes_of o + sum rest)%nat
            end) body)
  | _ => O
  end.

Fixpoint scopes_in (ops : list ScopeOp) : nat :=
  match ops with
  | [] => O
  | o :: rest => (scopes_of o + scopes_in rest)%nat
  end.

(** The pushes and pops of a history. *)
Definition is_stack_event (ev : Event) : bool :=
  match ev with
  | EvPushAsyncIds _ | EvPopAsyncId _ => true
  | _ => false
  end.

Definition is_push (ev : Event) : bool :=
  match ev with EvPushAsyncIds _ => true | _ => false end.

Definition is_pop (ev : Event) : bool :=
  match ev with EvPopAsyncId _ => true | _ => false end.

Definition stack_events (h : list Event) : list Event :=
  List.filter is_stack_event h.

Definition count_events (p : Event -> bool) (h : list Event) : nat :=
  length (List.filter p h).

(** Pushes and pops in last-in first-out order: every push is answered
    by the pop of its own id, after the pushes made in between have been
    answered. *)
Inductive balanced : list Event -> Prop :=
| balanced_nil : balanced []
| balanced_scope ctx inner :
    balanced inner ->
    balanced (EvPushAsyncIds ctx :: inner ++ [EvPopAsyncId (async_id ctx)])
| balanced_seq a b : balanced a -> balanced b -> balanced (a ++ b).

(** How the scope held by a body relates to the stack: while it is open
    the pair it has pushed, if it has pushed one, sits on top of what
    was there before it. *)
Definition scope_holds (s : InternalCallbackScope)
    (base st : list async_context) : Prop :=
  st = if pushed_ids_ s && negb (closed_ s)
       then async_context_ s :: base
       else base.

(** The pushes and pops that a body adds, given whether its scope has
    pushed and whether it was closed before and is closed after:
    balanced, around the one pop that closes the scope if the scope has
    pushed and the body closes it. *)
Inductive body_trace (id : Z) (pushed : bool)
  : bool -> bool -> list Event -> Prop :=
| body_same c c' h :
    balanced h -> (pushed = true -> c = c') -> body_trace id pushed c c' h
| body_closes a b :
    pushed = true -> balanced a -> balanced b ->
    body_trace id pushed false true (a ++ EvPopAsyncId id :: b).

Definition closes_now (pushed before after : bool) : nat :=
  if pushed && negb before && after then 1%nat else 0%nat.

(** The flush of the world leaves the permission to call into managed
    code as it is. *)
Definition flush_keeps_flag (W : World) : Prop :=
  forall e, can_call_into_js (snd (flush_tick W e)) = can_call_into_js e.

(** What running a body that constructs [n] scopes against the scope it
    holds guarantees: no fatal exit, the scope still in step with the
    stack, and as many pushes as pops of nested scopes besides the pop
    that closes the scope: [n] pushes while managed code may be called,
    and never more. *)
Definition op_ok (W : World)
    (run : InternalCallbackScope -> M InternalCallbackScope)
    (n : nat) : Prop :=
  forall s m base,
    scope_holds s base (async_id_stack (env m)) ->
    exists s' m' tr k,
      run s m = Done s' m' /\
      scope_holds s' base (async_id_stack (env m')) /\
      async_context_ s' = async_context_ s /\
      pushed_ids_ s' = pushed_ids_ s /\
      (closed_ s = true -> closed_ s' = true) /\
      log m' = tr ++ log m /\
      body_trace (async_id (async_context_ s)) (pushed_ids_ s)
        (closed_ s) (closed_ s') (stack_events (rev tr)) /\
      count_events is_pop tr
      = (k + closes_now (pushed_ids_ s) (closed_ s) (closed_ s'))%nat /\
      count_events is_push tr = k /\
      (k <= n)%nat /\
      (flush_keeps_flag W -> can_call_into_js (env m) = true ->
       k = n /\ can_call_into_js (env m') = true).

(** What running a body against a scope that failed at its construction
    does once managed callbacks are forbidden: nothing at all. *)
Definition op_off (run : InternalCallbackScope -> M InternalCallbackScope)
  : Prop :=
  forall s m,
    can_call_into_js (env m) = false ->
    failed_ s = true -> pushed_ids_ s = false ->
    exists s',
      run s m = Done s' m /\ failed_ s' = true /\ pushed_ids_ s' = false.

(** ** What a history shows *)

Definition is_call (ev : Event) : bool :=
  match ev with EvCall _ _ _ _ => true | _ => false end.

(** The environment as the callee of a callback finds it: the scope has
    been constructed, nothing else has changed. *)
Definition scope_entered (ctx : async_context) (e : Environment)
  : Environment :=
  set_async_id_stack (ctx :: async_id_stack e)
    (set_makecallback_depth (S (makecallback_depth e)) e).

(** The events one [MakeCallback] on [recv] with [argv] can add, given
    the environment [e] it starts in: the push and pop of its scope, the
    flush, and the call itself, made directly or through the domain
    callback. *)
Definition callback_event (ctx : async_context) (recv : nat)
    (argv : list Value) (e : Environment) (ev : Event) : Prop :=
  match ev with
  | EvPushAsyncIds _ | EvPopAsyncId _ | EvFlushTick => True
  | EvCall _ r a at_call =>
      r = recv /\
      (a = argv \/ exists callback, a = Function callback :: argv) /\
      at_call = scope_entered ctx e
  | _ => False
  end.

(** The event that a call announces: the first argument of [emit],
    behind the callback when the call goes through the domain callback. *)
Definition event_name (argv : list Value) : option string :=
  match argv with
  | Str name :: _ => Some name
  | Function _ :: Str name :: _ => Some name
  | _ => None
  end.

Definition is_emission (name : string) (ev : Event) : bool :=
  match ev with
  | EvCall _ _ argv _ =>
      match event_name argv with
      | Some n => String.eqb n name
      | None => false
      end
  | _ => false
  end.

(** The entries into managed code that this code makes. *)
Definition is_managed_entry (ev : Event) : bool :=
  match ev with
  | EvCall _ _ _ _ | EvFlushTick | EvCompileAndCall _ => true
  | _ => false
  end.

Definition is_uv_run (ev : Event) : bool :=
  match ev with EvUvRun => true | _ => false end.

Definition is_before_exit_pass (ev : Event) : bool :=
  match ev with EvRunBeforeExitCallbacks => true | _ => false end.

(** Running [c] from [m] adds events that all satisfy [Q]. *)
Definition logs_at {A} (Q : Event -> Prop) (c : M A) (m : Machine) : Prop :=
  exists tr, log (machine_of (c m)) = tr ++ log m /\ Forall Q tr.

(** ** Worlds and machines for the examples *)

(** A world in which nothing goes wrong and nothing is scheduled: every
    call and every bootstrapper returns [undefined], the flush is silent,
    [uv_run] runs the loop until no referenced work is left. *)
Definition quiet_world : World :=
  mk_world (fun _ _ _ e => (Some Undefined, e))
           (fun _ _ _ e => (Some Undefined, e))
           (fun e => (false, e))
           (set_loop_work 0)
           (fun e => e) (fun e => e) (fun e => e) (fun e => e) (fun e => e)
           (fun e => e)
           (fun e => (true, e)) (fun e => e)
           true
           (fun _ e => e)
           (fun _ _ => Some 0)
           (fun _ _ _ => false) (fun _ _ _ _ => false)
           (fun _ => 0%nat)
           "exitCode"
           true true.

Definition with_call_function
    (x : nat -> nat -> list Value -> Environment -> MaybeLocal * Environment)
    (W : World) : World :=
  mk_world x (CompileAndCall W) (flush_tick W) (uv_run W) (DrainTasks W)
    (CancelPendingDelayedTasks W) (RunBeforeExitCallbacks W) (RunCleanup W)
    (RunAtExitCallbacks W) (env_Start W) (inspector_agent_Start W)
    (inspector_WaitForDisconnect W) (Isolate_Allocate W)
    (SetupBootstrapObject W) (to_number W) (Get_throws W) (Set_throws W)
    (native_function W) (exit_code_string W)
    (HAVE_INSPECTOR W) (NODE_USE_V8_PLATFORM W).

Definition with_CompileAndCall
    (x : string -> list string -> list Value ->
         Environment -> MaybeLocal * Environment)
    (W : World) : World :=
  mk_world (call_function W) x (flush_tick W) (uv_run W) (DrainTasks W)
    (CancelPendingDelayedTasks W) (RunBeforeExitCallbacks W) (RunCleanup W)
    (RunAtExitCallbacks W) (env_Start W) (inspector_agent_Start W)
    (inspector_WaitForDisconnect W) (Isolate_Allocate W)
    (SetupBootstrapObject W) (to_number W) (Get_throws W) (Set_throws W)
    (native_function W) (exit_code_string W)
    (HAVE_INSPECTOR W) (NODE_USE_V8_PLATFORM W).

Definition with_Isolate_Allocate
    (x : bool)
    (W : World) : World :=
  mk_world (call_function W) (CompileAndCall W) (flush_tick W) (uv_run W)
    (DrainTasks W) (CancelPendingDelayedTasks W) (RunBeforeExitCallbacks W)
    (RunCleanup W) (RunAtExitCallbacks W) (env_Start W)
    (inspector_agent_Start W) (inspector_WaitForDisconnect W) x
    (SetupBootstrapObject W) (to_number W) (Get_throws W) (Set_throws W)
    (native_function W) (exit_code_string W)
    (HAVE_INSPECTOR W) (NODE_USE_V8_PLATFORM W).

(** An environment as [Start] finds it after the process object has been
    populated: [process.emit] is function 7 and the exit code is 0. *)
Definition start_env : Environment :=
  mk_env {[ 1%nat := {[ "emit" := Function 7; "exitCode" := Integer 0 ]} ]}
         1 0 None [] 0 true true 0 0 true false false false false.

Definition start_machine : Machine := mk_machine start_env [].

(** A listener of 'exit' that stores [code] as the exit code. *)
Definition exit_listener_sets (code : Z)
  : nat -> nat -> list Value -> Environment -> MaybeLocal * Environment :=
  fun _ recv argv e =>
    match event_name argv with
    | Some name =>
        if String.eqb name "exit"
        then (Some Undefined, Set_ recv "exitCode" (Integer code) e)
        else (Some Undefined, e)
    | None => (Some Undefined, e)
    end.

(** A callee that throws: the call returns an empty handle. *)
Definition throwing_callee
  : nat -> nat -> list Value -> Environment -> MaybeLocal * Environment :=
  fun _ _ _ e => (None, e).

(** A listener of 'beforeExit' that schedules one unit of referenced
    work the first time it runs, and remembers on the process object that
    it did. *)
Definition armed (e : Environment) : bool :=
  match Get e (process_object e) "armed" with
  | Boolean true => true
  | _ => false
  end.

Definition rearming_listener
  : nat -> nat -> list Value -> Environment -> MaybeLocal * Environment :=
  fun _ recv argv e =>
    match event_name argv with
    | Some name =>
        if String.eqb name "beforeExit" && armed e
        then (Some Undefined,
              set_loop_work 1 (Set_ recv "armed" (Boolean false) e))
        else (Some Undefined, e)
    | None => (Some Undefined, e)
    end.

Definition armed_machine : Machine :=
  mk_machine (Set_ 1 "armed" (Boolean true) start_env) [].

(** A bootstrapper that fails, leaving a stray entry on the async-id
    stack. *)
Definition failing_bootstrapper
  : string -> list string -> list Value ->
    Environment -> MaybeLocal * Environment :=
  fun _ _ _ e =>
    (None,
     set_async_id_stack (mk_async_context 5 1 :: async_id_stack e) e).

Definition throwing_world : World :=
  with_call_function throwing_callee quiet_world.

(** A world in which reading a property that is no data property
    throws. *)
Definition with_Get_throws (x : Environment -> nat -> string -> bool)
    (W : World) : World :=
  mk_world (call_function W) (CompileAndCall W) (flush_tick W) (uv_run W)
    (DrainTasks W) (CancelPendingDelayedTasks W) (RunBeforeExitCallbacks W)
    (RunCleanup W) (RunAtExitCallbacks W) (env_Start W)
    (inspector_agent_Start W) (inspector_WaitForDisconnect W)
    (Isolate_Allocate W) (SetupBootstrapObject W) (to_number W) x
    (Set_throws W) (native_function W) (exit_code_string W)
    (HAVE_INSPECTOR W) (NODE_USE_V8_PLATFORM W).

Definition throwing_getter_world : World :=
  with_Get_throws (fun _ _ _ => true) quiet_world.

Definition no_isolate_world : World :=
  with_Isolate_Allocate false quiet_world.

Definition script12_world : World :=
  with_call_function (exit_listener_sets 12) quiet_world.

(** An environment in which the inspector was requested; in the quiet
    world the agent starts without listening. *)
Definition inspector_requested_machine : Machine :=
  mk_machine
    (mk_env (heap start_env) 1 0 None [] 0 true true 0 0 true false
            true false false)
    [].

Definition failing_bootstrap_world : World :=
  with_CompileAndCall failing_bootstrapper quiet_world.

(** The environment in which [LoadEnvironment], run by the bootstrap
    block from [e], calls the first bootstrapper. *)
Definition bootstrap_env (e : Environment) : Environment :=
  Set_ (process_object e) "_rawDebug" (Native "RawDebug")
    (Set_ (global_object e) "global" (Object (global_object e))
       (scope_entered (mk_async_context 1 0) e)).

Definition loaders_result (W : World) (e : Environment)
  : MaybeLocal * Environment :=
  CompileAndCall W "internal/bootstrap/loaders"
    ["process"; "getBinding"; "getLinkedBinding"; "getInternalBinding";
     "debugBreak"]
    [Object (process_object e); Native "GetBinding";
     Native "GetLinkedBinding"; Native "GetInternalBinding";
     Boolean (break_node_first_line e)]
    (bootstrap_env e).

(** A step of the bootstrap leaves the callback scopes alone when it
    returns with the async-id stack and the callback depth it found. *)
Definition keeps_scopes (f : Environment -> Environment) : Prop :=
  forall e,
    async_id_stack (f e) = async_id_stack e /\
    makecallback_depth (f e) = makecallback_depth e.

(** The bootstrappers and [SetupBootstrapObject] of a world leave the
    callback scopes alone. *)
Definition bootstrap_keeps_scopes (W : World) : Prop :=
  (forall id parameters arguments,
      keeps_scopes (fun e => snd (CompileAndCall W id parameters arguments e)))
  /\ (forall bootstrapper, keeps_scopes (SetupBootstrapObject W bootstrapper)).

Definition is_clear (ev : Event) : bool :=
  match ev with
  | EvClearAsyncIdStack => true
  | _ => false
  end.

Definition is_bootstrap_event (ev : Event) : bool :=
  match ev with
  | EvCompileAndCall _ | EvClearAsyncIdStack => true
  | _ => false
  end.

(** What the loop phase may log: its own steps, and callbacks that
    announce 'beforeExit' to an environment whose loop has no referenced
    work. *)
Definition loop_event (ev : Event) : Prop :=
  match ev with
  | EvCall _ _ argv at_call =>
      event_name argv = Some "beforeExit" /\ loop_work at_call = 0%nat
  | EvPushAsyncIds _ | EvPopAsyncId _ | EvFlushTick | EvUvRun
  | EvDrainVMTasks | EvLoopAlive _ | EvRunBeforeExitCallbacks => True
  | _ => False
  end.

Definition exit7_world : World :=
  with_call_function (exit_listener_sets 7) quiet_world.

Definition rearming_world : World :=
  with_call_function rearming_listener quiet_world.

(** What the rearming world needs of an environment. *)
Definition emit_installed (e : Environment) : Prop :=
  Get e (process_object e) "emit" = Function 7 /\
  domain_callback e = None /\
  can_call_into_js e = true.

Definition is_after (ev : PoolEvent) : bool :=
  match ev with EvAfterThreadPoolWork _ _ => true | _ => false end.

(** How many times [AfterThreadPoolWork] was entered. *)
Definition count_occ_after (tr : list PoolEvent) : nat :=
  length (List.filter is_after tr).

(** The events of a submitted unit, newest first, and its environment,
    in each state of its request; [c0] is the counter before
    [ScheduleWork] and [e1] the environment that [ScheduleWork] left.
    Until the completion is delivered the environment is [e1]; after,
    it is what [AfterThreadPoolWork] made of [e1] with the counter
    decremented. *)
Definition pool_log_in_state (I : WorkImpl) (c0 : Z) (e1 : Environment)
    (w : ThreadPoolWork) (tr : list PoolEvent) : Prop :=
  match work_req_ w with
  | work_unsubmitted => False
  | work_queued | work_cancelled =>
      tr = [EvQueueWork; EvIncreaseWaitingRequestCounter] /\
      env_ w = e1
  | work_running =>
      tr = [EvDoThreadPoolWorkEnter; EvQueueWork;
            EvIncreaseWaitingRequestCounter] /\
      env_ w = e1
  | work_done =>
      tr = [EvDoThreadPoolWorkReturn; EvDoThreadPoolWorkEnter; EvQueueWork;
            EvIncreaseWaitingRequestCounter] /\
      env_ w = e1
  | work_delivered =>
      (tr = [EvAfterThreadPoolWork 0 c0; EvDecreaseWaitingRequestCounter;
             EvDoThreadPoolWorkReturn; EvDoThreadPoolWorkEnter; EvQueueWork;
             EvIncreaseWaitingRequestCounter] /\
       env_ w = AfterThreadPoolWork I 0 (set_request_waiting c0 e1)) \/
      (tr = [EvAfterThreadPoolWork UV_ECANCELED c0;
             EvDecreaseWaitingRequestCounter; EvQueueWork;
             EvIncreaseWaitingRequestCounter] /\
       env_ w = AfterThreadPoolWork I UV_ECANCELED (set_request_waiting c0 e1))
  end.

Definition pool_inv (I : WorkImpl) (c0 : Z) (e1 : Environment)
    (base : list PoolEvent) (w : ThreadPoolWork) : Prop :=
  exists tr, work_log w = tr ++ base /\ pool_log_in_state I c0 e1 w tr.

Definition fresh_work : ThreadPoolWork :=
  mk_work start_env work_unsubmitted [].

(** A unit whose [AfterThreadPoolWork] stores the status it is given on
    the process object. *)
Definition recording_impl : WorkImpl :=
  mk_work_impl (fun status e =>
                  Set_ (process_object e) "status" (Integer status) e).

Definition example_body : list ScopeOp :=
  [OpNested (mk_async_context 2 1) 5 [OpMarkAsFailed];
   OpClose;
   OpMarkAsFailed;
   OpNested (mk_async_context 3 1) 6 [OpClose; OpClose]].

(** ** The high-resolution timer of [process.hrtime] *)

(** node_process.cc: nanoseconds in a second. *)
Definition NANOS_PER_SEC : Z := 1000000000.

(** A store into a [uint32_t] keeps the low 32 bits. *)
Definition to_uint32 (z : Z) : Z := z mod 2 ^ 32.

(** node_process.cc, Hrtime: [t] is what [uv_hrtime()] answered, a
    [uint64_t]; [fields] is the [Uint32Array] of the caller. *)
Definition Hrtime (t : Z) (fields : list Z) : list Z :=
  let fields :=
    <[0%nat := to_uint32 (Z.shiftr (t / NANOS_PER_SEC) 32)]> fields in
  let fields :=
    <[1%nat := to_uint32 (Z.land (t / NANOS_PER_SEC) 4294967295)]> fields in
  <[2%nat := to_uint32 (t mod NANOS_PER_SEC)]> fields.

(** ** [ROUND_UP] *)

(** node_internals.h, the macro [ROUND_UP(a, b)] on operands of a signed
    type, as far as no intermediate result leaves the type (an overflow
    of a signed type has no defined result); [%] of C truncates towards
    zero, which is [Z.rem]. *)
Definition ROUND_UP (a b : Z) : Z :=
  if negb (Z.rem a b =? 0) then (a + b) - Z.rem a b else a.


(** ** [SlicedArguments] *)

(** Where [data_] points. *)
Inductive SlicedStorage : Type :=
| in_fixed
| in_dynamic.

(** node_internals.h, class SlicedArguments; a default-constructed
    [Local<Value>] is an empty handle. *)
Record SlicedArguments : Type := mk_sliced {
  size_ : nat;
  data_ : SlicedStorage;
  fixed_ : list MaybeLocal;
  dynamic_ : list MaybeLocal
}.

(** [args[i]] of a [FunctionCallbackInfo]: undefined past the end. *)
Definition args_at (args : list Value) (i : nat) : Value :=
  default Undefined (args !! i).

(** The loop [for (size_t i = 0; i < size; ++i) data_[i] = args[i + start]],
    with [n] rounds to go. *)
Fixpoint copy_args (args : list Value) (start : nat) (n i : nat)
    (buf : list MaybeLocal) : list MaybeLocal :=
  match n with
  | O => buf
  | S n' =>
      copy_args args start n' (S i)
                (<[i := Some (args_at args (i + start))]> buf)
  end.

(** The constructor. *)
Definition SlicedArguments_new (args : list Value) (start : nat)
  : SlicedArguments :=
  let length := length args in
  if (length <=? start)%nat then mk_sliced 0 in_fixed (replicate 64 None) []
  else
    let size := (length - start)%nat in
    if (64 <? size)%nat
    then mk_sliced size in_dynamic (replicate 64 None)
                   (copy_args args start size 0 (replicate size None))
    else mk_sliced size in_fixed
                   (copy_args args start size 0 (replicate 64 None)) [].

(** [data()]. *)
Definition sliced_data (s : SlicedArguments) : list MaybeLocal :=
  match data_ s with
  | in_fixed => fixed_ s
  | in_dynamic => dynamic_ s
  end.

(** ** The options of NODE_OPTIONS *)

(** [std::string::npos], the largest value of [size_type] (64 bits), and
    the wrap-around of its arithmetic. *)
Definition npos : Z := 2 ^ 64 - 1.

Definition size_type (z : Z) : Z := z mod 2 ^ 64.

(** The offset of the first [c] in [s]. *)
Fixpoint first_index (c : ascii) (s : list ascii) : option nat :=
  match s with
  | [] => None
  | x :: s' =>
      if Ascii.eqb x c then Some 0%nat else S <$> first_index c s'
  end.

(** [s.find(c, pos)]: the position of the first [c] at or after [pos], or
    [npos]. *)
Definition string_find (s : list ascii) (c : ascii) (pos : Z) : Z :=
  match first_index c (drop (Z.to_nat pos) s) with
  | Some k => pos + Z.of_nat k
  | None => npos
  end.

(** [s.substr(pos, n)]: [std::out_of_range] when [pos > size()], else the
    [min(n, size() - pos)] characters from [pos]. *)
Definition string_substr (s : list ascii) (pos n : Z) : option (list ascii) :=
  let size := Z.of_nat (length s) in
  if size <? pos then None
  else Some (take (Z.to_nat (Z.min n (size - pos))) (drop (Z.to_nat pos) s)).

(** [s.empty()]. *)
Definition string_empty (s : list ascii) : bool :=
  match s with
  | [] => true
  | _ => false
  end.

(** How the splitting loop ends. *)
Inductive Splitting : Type :=
| split_done (env_argv : list (list ascii))
| split_out_of_range
| split_out_of_fuel.

(** node.cc, Init: the do-while loop that splits NODE_OPTIONS at each
    space, one unit of fuel per round.  [continue] goes to the test
    [index != npos]. *)
Fixpoint split_node_options (fuel : nat) (node_options : list ascii)
    (index : Z) (env_argv : list (list ascii)) : Splitting :=
  match fuel with
  | O => split_out_of_fuel
  | S fuel' =>
      let prev_index := index in
      let index :=
        string_find node_options " "%char (size_type (index + 1)) in
      if size_type (index - prev_index) =? 1
      then
        if negb (index =? npos)
        then split_node_options fuel' node_options index env_argv
        else split_done env_argv
      else
        match string_substr node_options (size_type (prev_index + 1))
                (size_type (index - prev_index - 1)) with
        | None => split_out_of_range
        | Some option =>
            let env_argv :=
              if negb (string_empty option) then env_argv ++ [option]
              else env_argv in
            if negb (index =? npos)
            then split_node_options fuel' node_options index env_argv
            else split_done env_argv
        end
  end.

(** The [env_argv] that [Init] hands to [ProcessArgv]: the program name,
    then the options. *)
Definition Init_env_argv (fuel : nat) (argv0 node_options : list ascii)
  : Splitting :=
  split_node_options fuel node_options npos [argv0].

(** A token between two spaces counts when it is not empty. *)
Definition option_of (t : list ascii) : list (list ascii) :=
  match t with
  | [] => []
  | _ => [t]
  end.

(** The string is [t0 ' ' t1 ' ' ... ' ' tn] with no space inside a [ti],
    and the options are the [ti] that are not empty, in order. *)
Inductive split_at_spaces : list ascii -> list (list ascii) -> Prop :=
| split_last (t : list ascii) :
    " "%char ∉ t -> split_at_spaces t (option_of t)
| split_more (t rest : list ascii) (opts : list (list ascii)) :
    " "%char ∉ t -> split_at_spaces rest opts ->
    split_at_spaces (t ++ " "%char :: rest) (option_of t ++ opts).

(** ** Process warnings *)

(** What emitting a warning asks of v8: the two string constructors,
    which answer an empty handle when the string cannot be created;
    whether reading a property of an object came back empty; and
    [env->emit_warning_string()], the name of the property. *)
Record WarningWorld : Type := mk_warning_world {
  NewFromUtf8 : string -> MaybeLocal;
  NewFromOneByte : string -> MaybeLocal;
  Get_is_empty : Environment -> nat -> string -> bool;
  emit_warning_string : string
}.

(** node.cc, ProcessEmitWarningGeneric; [type] and [code] are null by
    default.  The function is called directly, not through
    [MakeCallback]. *)
Definition ProcessEmitWarningGeneric (W : World) (V : WarningWorld)
    (warning : string) (type code : option string) : M (option bool) :=
  process <- read process_object;;
  empty <- read (fun e => Get_is_empty V e process (emit_warning_string V));;
  if empty : bool then ret None
  else
    emit_warning <- read (fun e => Get e process (emit_warning_string V));;
    match as_function W emit_warning with
    | Some f =>
        match NewFromUtf8 V warning with
        | None => ret None
        | Some arg0 =>
            let call (args : list Value) : M (option bool) :=
              r <- Call W f process args;;
              match r with
              | None => ret None
              | Some _ => ret (Some true)
              end in
            match type with
            | Some type_ =>
                match NewFromOneByte V type_ with
                | None => ret None
                | Some arg1 =>
                    match code with
                    | Some code_ =>
                        match NewFromOneByte V code_ with
                        | None => ret None
                        | Some arg2 => call [arg0; arg1; arg2]
                        end
                    | None => call [arg0; arg1]
                    end
                end
            | None => call [arg0]
            end
        end
    | None => ret (Some false)
    end.

(** node.cc, ProcessEmitWarning, on the text that [vsnprintf] wrote. *)
Definition ProcessEmitWarning (W : World) (V : WarningWorld)
    (warning : string) : M (option bool) :=
  ProcessEmitWarningGeneric W V warning None None.

(** node.cc, ProcessEmitDeprecationWarning. *)
Definition ProcessEmitDeprecationWarning (W : World) (V : WarningWorld)
    (warning : string) (deprecation_code : option string) : M (option bool) :=
  ProcessEmitWarningGeneric W V warning (Some "DeprecationWarning")
                            deprecation_code.

(** v8 strings that can always be created, data properties only, and the
    property name [emitWarning]. *)
Definition plain_strings : WarningWorld :=
  mk_warning_world (fun s => Some (Str s)) (fun s => Some (Str s))
                   (fun _ _ _ => false) "emitWarning".

(** A process object whose [emitWarning] is function 9. *)
Definition warning_machine : Machine :=
  mk_machine
    (mk_env {[ 1%nat := {[ "emitWarning" := Function 9 ]} ]}
            1 0 None [] 0 true true 0 0 true false false false false)
    [].

(** What an 'exit' listener finds: synchronous-I/O tracing is off and
    calling into managed code is as allowed as it was. *)
Definition exit_listener_env (e : Environment) (ev : Event) : Prop :=
  match ev with
  | EvCall _ _ _ at_call =>
      trace_sync_io at_call = false /\
      can_call_into_js at_call = can_call_into_js e
  | _ => True
  end.

(** A call that announces [name] with [code], directly or through the
    domain callback. *)
Definition announces (name : string) (code : Z) (ev : Event) : Prop :=
  match ev with
  | EvCall _ _ args _ =>
      args = [Str name; Integer code] \/
      exists cb, args = [Function cb; Str name; Integer code]
  | _ => True
  end.

(** The callee and the arguments of the one call that
    [InternalMakeCallback] makes. *)
Definition routed_call (e : Environment) (ctx : async_context)
    (callback : nat) (argv : list Value) : nat * list Value :=
  match domain_callback e with
  | Some d =>
      if async_id ctx =? 0 then (d, Function callback :: argv)
      else (callback, argv)
  | None => (callback, argv)
  end.

(** The two events of the life of the isolate on the platform. *)
Definition is_isolate_event (ev : Event) : bool :=
  match ev with
  | EvRegisterIsolate | EvDisposeIsolate => true
  | _ => false
  end.

(** ** The credential setters of main_thread_only.js *)

(** What a function of the wrapper is called with: an array or some
    other value. *)
Inductive JsArgument : Type :=
| not_an_array (v : Value)
| js_array (elements : list Value).

(** The errors thrown; the last one stands for what [validateUint32] of
    internal/validators throws. *)
Inductive JsError : Type :=
| ERR_INVALID_ARG_TYPE (name : string) (expected : list string)
                       (actual : JsArgument)
| ERR_UNKNOWN_CREDENTIAL (type : string) (id : Value)
| ERR_FROM_VALIDATOR (name : string) (actual : Value).

(** How a call ends. *)
Inductive Completion : Type :=
| returns
| throws (e : JsError).

(** The validator and the native setters that the wrapper is given; [St]
    is the state of the credentials of the process, and a native setter
    answers a number. *)
Record Credentials (St : Type) : Type := mk_credentials {
  validateUint32 : Value -> string -> option JsError;
  _initgroups : Value -> Value -> St -> Z * St;
  _setgroups : list Value -> St -> Z * St;
  _setegid : Value -> St -> Z * St;
  _seteuid : Value -> St -> Z * St;
  _setgid : Value -> St -> Z * St;
  _setuid : Value -> St -> Z * St
}.
Arguments validateUint32 {St} _ _ _.
Arguments _initgroups {St} _ _ _ _.
Arguments _setgroups {St} _ _ _.
Arguments _setegid {St} _ _ _.
Arguments _seteuid {St} _ _ _.
Arguments _setgid {St} _ _ _.
Arguments _setuid {St} _ _ _.

(** validateId: [typeof id] is 'number' for an integer of the model and
    'string' for a string. *)
Definition validateId {St} (C : Credentials St) (id : Value) (name : string)
  : option JsError :=
  match id with
  | Integer _ => validateUint32 C id name
  | Str _ => None
  | _ => Some (ERR_INVALID_ARG_TYPE name ["number"; "string"]
                                    (not_an_array id))
  end.

(** The loop of setgroups over [groups[i]], from index [i] on. *)
Fixpoint validate_groups {St} (C : Credentials St) (groups : list Value)
    (i : nat) : option JsError :=
  match groups with
  | [] => None
  | g :: rest =>
      match validateId C g ("groups[" ++ pretty i ++ "]") with
      | Some e => Some e
      | None => validate_groups C rest (S i)
      end
  end.

(** [groups[k]] for a number [k]. *)
Definition js_index (groups : list Value) (k : Z) : Value :=
  if k <? 0 then Undefined else default Undefined (groups !! Z.to_nat k).

(** setgroups. *)
Definition setgroups {St} (C : Credentials St) (groups : JsArgument) (s : St)
  : Completion * St :=
  match groups with
  | not_an_array _ =>
      (throws (ERR_INVALID_ARG_TYPE "groups" ["Array"] groups), s)
  | js_array l =>
      match validate_groups C l 0 with
      | Some e => (throws e, s)
      | None =>
          let r := _setgroups C l s in
          if 0 <? fst r
          then (throws (ERR_UNKNOWN_CREDENTIAL "Group"
                          (js_index l (fst r - 1))), snd r)
          else (returns, snd r)
      end
  end.

(** initgroups. *)
Definition initgroups {St} (C : Credentials St) (user extraGroup : Value)
    (s : St) : Completion * St :=
  match validateId C user "user" with
  | Some e => (throws e, s)
  | None =>
      match validateId C extraGroup "extraGroup" with
      | Some e => (throws e, s)
      | None =>
          let r := _initgroups C user extraGroup s in
          if fst r =? 1
          then (throws (ERR_UNKNOWN_CREDENTIAL "User" user), snd r)
          else if fst r =? 2
          then (throws (ERR_UNKNOWN_CREDENTIAL "Group" extraGroup), snd r)
          else (returns, snd r)
      end
  end.

(** wrapIdSetter. *)
Definition wrapIdSetter {St} (C : Credentials St) (type : string)
    (method : Value -> St -> Z * St) (id : Value) (s : St) : Completion * St :=
  match validateId C id "id" with
  | Some e => (throws e, s)
  | None =>
      let r := method id s in
      if fst r =? 1
      then (throws (ERR_UNKNOWN_CREDENTIAL type id), snd r)
      else (returns, snd r)
  end.

(** The setters of the object that wrapPosixCredentialSetters returns. *)
Definition setegid {St} (C : Credentials St) :=
  wrapIdSetter C "Group" (_setegid C).

Definition seteuid {St} (C : Credentials St) :=
  wrapIdSetter C "User" (_seteuid C).

Definition setgid {St} (C : Credentials St) :=
  wrapIdSetter C "Group" (_setgid C).

Definition setuid {St} (C : Credentials St) :=
  wrapIdSetter C "User" (_setuid C).

(** The index of the first element that satisfies [p]. *)
Fixpoint first_index_where {A} (p : A -> bool) (l : list A) : option nat :=
  match l with
  | [] => None
  | x :: l' => if p x then Some 0%nat else S <$> first_index_where p l'
  end.

(** Natives that record the group lists they were given and know groups
    below 1000 only; a validator for the integers of 32 bits. *)
Definition recording_credentials : Credentials (list (list Value)) :=
  mk_credentials (list (list Value))
    (fun v name =>
       match v with
       | Integer z =>
           if (0 <=? z) && (z <? 2 ^ 32) then None
           else Some (ERR_FROM_VALIDATOR name v)
       | _ => Some (ERR_FROM_VALIDATOR name v)
       end)
    (fun _ _ s => (0, s))
    (fun l s =>
       (match first_index_where (fun g =>
                 match g with Integer z => 1000 <=? z | _ => false end) l with
        | Some i => Z.of_nat i + 1
        | None => 0
        end, l :: s))
    (fun _ s => (0, s)) (fun _ s => (0, s))
    (fun _ s => (0, s)) (fun _ s => (0, s)).

(** ** [process.umask] *)

(** node_process.cc, Umask.  [umask] is umask(2) of the C library on
    the state [K] of the process; [None] is a failed [CHECK].  An
    integer of the model is a [Uint32] when it lies in the range; [oct]
    is an [int], and [mode_t] has 32 bits without sign. *)
Definition Umask {K} (umask : Z -> K -> Z * K) (args : list Value) (k : K)
  : option (Z * K) :=
  match args with
  | [arg] =>
      match arg with
      | Undefined =>
          let r := umask 0 k in
          let old := to_uint32 (fst r) in
          let r' := umask (to_uint32 old) (snd r) in
          Some (old, snd r')
      | Integer z =>
          if (0 <=? z) && (z <? 2 ^ 32)
          then
            let oct := wrap_int32 z in
            let r := umask (to_uint32 oct) k in
            Some (to_uint32 (fst r), snd r)
          else None
      | _ => None
      end
  | _ => None
  end.

(** A world whose [uv_run] always comes back with one unit of referenced
    work left. *)
Definition busy_world : World :=
  mk_world (call_function quiet_world) (CompileAndCall quiet_world)
    (flush_tick quiet_world) (set_loop_work 1) (DrainTasks quiet_world)
    (CancelPendingDelayedTasks quiet_world)
    (RunBeforeExitCallbacks quiet_world) (RunCleanup quiet_world)
    (RunAtExitCallbacks quiet_world) (env_Start quiet_world)
    (inspector_agent_Start quiet_world)
    (inspector_WaitForDisconnect quiet_world) (Isolate_Allocate quiet_world)
    (SetupBootstrapObject quiet_world) (to_number quiet_world)
    (Get_throws quiet_world) (Set_throws quiet_world)
    (native_function quiet_world)
    (exit_code_string quiet_world) (HAVE_INSPECTOR quiet_world)
    (NODE_USE_V8_PLATFORM quiet_world).

(** * Properties *)

(** ** Running the monad *)

Lemma bind_Done {A B} (c : M A) (k : A -> M B) m a m' :
  c m = Done a m' -> bind c k m = k a m'.
Proof. intros H. unfold bind. now rewrite H. Qed.

Ltac run_step :=
  unfold bind, ret, emit_event, read, modify, ask, fatal, out_of_fuel; simpl.

(** An induction principle that reaches into the bodies of nested
    blocks. *)
Lemma ScopeOp_nested_ind (P : ScopeOp -> Prop)
    (Hmark : P OpMarkAsFailed) (Hclose : P OpClose)
    (Hnested : forall ctx object body,
        Forall P body -> P (OpNested ctx object body))
    (op : ScopeOp) : P op.
Proof.
  revert op. fix IH 1. intros [| |ctx object body].
  - exact Hmark.
  - exact Hclose.
  - apply Hnested. induction body as [|o rest IHrest].
    + constructor.
    + constructor; [apply IH | exact IHrest].
Qed.

Lemma run_op_nested W ctx object body s m :
  run_op W (OpNested ctx object body) s m =
  (inner <- InternalCallbackScope_new (Some object) ctx kRequireResource;;
   inner' <- run_ops W body inner;;
   InternalCallbackScope_delete W inner';;;
   ret s) m.
Proof.
  assert (E : forall ops s0 m0,
             (fix run_body (ops : list ScopeOp) (s0 : InternalCallbackScope)
                : M InternalCallbackScope :=
                match ops with
                | [] => ret s0
                | o :: rest => s1 <- run_op W o s0;; run_body rest s1
                end) ops s0 m0 = run_ops W ops s0 m0).
  { induction ops as [|o rest IH]; intros s0 m0; simpl; [reflexivity|].
    unfold bind. destruct (run_op W o s0 m0); auto. }
  cbn [run_op]. unfold bind.
  destruct (InternalCallbackScope_new _ _ _ m); auto.
  rewrite E. reflexivity.
Qed.

Lemma scopes_of_nested ctx object body :
  scopes_of (OpNested ctx object body) = S (scopes_in body).
Proof.
  reflexivity.
Qed.

Lemma stack_events_app a b :
  stack_events (a ++ b) = stack_events a ++ stack_events b.
Proof. unfold stack_events. apply List.filter_app. Qed.

Lemma count_events_app p a b :
  count_events p (a ++ b) = (count_events p a + count_events p b)%nat.
Proof. unfold count_events. rewrite List.filter_app. apply length_app. Qed.

Lemma body_trace_app id p c1 c2 c3 h1 h2 :
  body_trace id p c1 c2 h1 -> body_trace id p c2 c3 h2 ->
  body_trace id p c1 c3 (h1 ++ h2).
Proof.
  intros H1 H2.
  inversion H1 as [x1 y1 z1 Hb1 He1 | a1 b1 Hp1 Ha1 Hb1];
    inversion H2 as [x2 y2 z2 Hb2 He2 | a2 b2 Hp2 Ha2 Hb2];
    try congruence.
  - apply body_same; [now apply balanced_seq|].
    intros Hp. transitivity c2; auto.
  - assert (c1 = false) as -> by (rewrite He1 by exact Hp2; congruence).
    assert (c3 = true) as -> by congruence.
    rewrite app_assoc.
    apply body_closes; [assumption | now apply balanced_seq | assumption].
  - assert (c3 = true) as -> by (rewrite <- He2 by exact Hp1; congruence).
    assert (c1 = false) as -> by congruence.
    rewrite <- app_assoc. simpl.
    apply body_closes; [assumption | assumption | now apply balanced_seq].
Qed.

Lemma count_events_rev p h : count_events p (rev h) = count_events p h.
Proof.
  induction h as [|ev h IH]; [reflexivity|].
  simpl. rewrite count_events_app, IH. unfold count_events. simpl.
  destruct (p ev); simpl; lia.
Qed.

Lemma closes_now_trans p c1 c2 c3 :
  (c1 = true -> c2 = true) -> (c2 = true -> c3 = true) ->
  closes_now p c1 c3 = (closes_now p c1 c2 + closes_now p c2 c3)%nat.
Proof.
  destruct p, c1, c2, c3; simpl; intros H1 H2; auto;
    try (now discriminate H1); try (now discriminate H2).
Qed.

(** ** Callback scopes keep the async-id stack balanced *)

Section ScopeBalance.

Variable W : World.

(** The flush made by [Close] runs managed code after the pop; the
    scopes opened by that code are closed when the flush returns. *)
Hypothesis flush_keeps_stack :
  forall e, async_id_stack (snd (flush_tick W e)) = async_id_stack e.

Lemma InternalCallbackScope_new_spec object ctx m :
  exists s m',
    InternalCallbackScope_new (Some object) ctx kRequireResource m
      = Done s m' /\
    s = mk_scope ctx (Some object) (negb (can_call_into_js (env m)))
                 (can_call_into_js (env m)) false /\
    scope_holds s (async_id_stack (env m)) (async_id_stack (env m')) /\
    can_call_into_js (env m') = can_call_into_js (env m) /\
    log m' = (if can_call_into_js (env m) then [EvPushAsyncIds ctx] else [])
             ++ log m.
Proof.
  destruct ctx as [i t].
  unfold InternalCallbackScope_new, AsyncCallbackScope_enter, push_async_ids,
    scope_holds.
  run_step. destruct (can_call_into_js (env m)) eqn:Hcan; simpl;
    (do 2 eexists; split; [reflexivity|]; repeat split; assumption).
Qed.

Lemma pop_async_id_top c base m :
  async_id_stack (env m) = c :: base ->
  exists b,
    pop_async_id (async_id c) m =
      Done b (mk_machine (set_async_id_stack base (env m))
                         (EvPopAsyncId (async_id c) :: log m)).
Proof.
  intros H. unfold pop_async_id. run_step. rewrite H. simpl.
  rewrite Z.eqb_refl. simpl. eexists. reflexivity.
Qed.

Lemma Close_open_spec s base m :
  closed_ s = false ->
  scope_holds s base (async_id_stack (env m)) ->
  exists s' m',
    Close W s m = Done s' m' /\
    closed_ s' = true /\
    pushed_ids_ s' = pushed_ids_ s /\
    async_context_ s' = async_context_ s /\
    async_id_stack (env m') = base /\
    (flush_keeps_flag W ->
     can_call_into_js (env m') = can_call_into_js (env m)) /\
    exists tr, log m' = tr ++ log m /\
      stack_events (rev tr)
      = (if pushed_ids_ s
         then [EvPopAsyncId (async_id (async_context_ s))] else []) /\
      count_events is_pop tr = (if pushed_ids_ s then 1 else 0)%nat /\
      count_events is_push tr = 0%nat.
Proof.
  intros Hopen Hstack. unfold scope_holds in Hstack.
  rewrite Hopen in Hstack.
  destruct s as [c o f p cl]; simpl in *; subst cl.
  destruct p; simpl in Hstack.
  - destruct (pop_async_id_top _ _ _ Hstack) as [b Hpop].
    unfold Close; simpl. unfold bind at 1. rewrite Hpop.
    destruct f; simpl.
    + do 2 eexists. split; [reflexivity|]. repeat split.
      exists [EvPopAsyncId (async_id c)]. repeat split; reflexivity.
    + run_step.
      match goal with
      | |- context [flush_tick W ?e] =>
          pose proof (flush_keeps_stack e) as Hf;
          assert (Hk : flush_keeps_flag W ->
                       can_call_into_js (snd (flush_tick W e))
                       = can_call_into_js (env m))
            by (intros Hflag; rewrite Hflag; reflexivity);
          destruct (flush_tick W e) as [threw e'] eqn:E
      end.
      simpl in *.
      do 2 eexists. split; [reflexivity|].
      split; [destruct threw; reflexivity|].
      split; [destruct threw; reflexivity|].
      split; [destruct threw; reflexivity|].
      split; [exact Hf|]. split; [exact Hk|].
      exists [EvFlushTick; EvPopAsyncId (async_id c)].
      repeat split; reflexivity.
  - unfold Close; simpl. run_step.
    destruct f; simpl.
    + do 2 eexists. split; [reflexivity|]. repeat split; [exact Hstack|].
      exists []. repeat split; reflexivity.
    + match goal with
      | |- context [flush_tick W ?e] =>
          pose proof (flush_keeps_stack e) as Hf;
          assert (Hk : flush_keeps_flag W ->
                       can_call_into_js (snd (flush_tick W e))
                       = can_call_into_js (env m))
            by (intros Hflag; rewrite Hflag; reflexivity);
          destruct (flush_tick W e) as [threw e'] eqn:E
      end.
      simpl in *.
      do 2 eexists. split; [reflexivity|].
      split; [destruct threw; reflexivity|].
      split; [destruct threw; reflexivity|].
      split; [destruct threw; reflexivity|].
      split; [simpl; congruence|]. split; [exact Hk|].
      exists [EvFlushTick].
      repeat split; reflexivity.
Qed.

Lemma Close_closed_spec s m :
  closed_ s = true -> Close W s m = Done s m.
Proof. intros H. unfold Close. now rewrite H. Qed.

Lemma closes_now_same p c : closes_now p c c = 0%nat.
Proof. destruct p, c; reflexivity. Qed.

Lemma op_ok_nil : op_ok W (fun s => ret s) 0.
Proof.
  intros s m base Hh. exists s, m, [], 0%nat. simpl.
  split; [reflexivity|]. split; [exact Hh|].
  split; [reflexivity|]. split; [reflexivity|]. split; [auto|].
  split; [reflexivity|].
  split; [apply body_same; [constructor | reflexivity]|].
  split; [now rewrite closes_now_same|].
  split; [reflexivity|]. split; [lia|]. auto.
Qed.

Lemma op_ok_seq run1 run2 n1 n2 :
  op_ok W run1 n1 -> op_ok W run2 n2 ->
  op_ok W (fun s => s1 <- run1 s;; run2 s1) (n1 + n2).
Proof.
  intros H1 H2 s0 m0 base Hh.
  destruct (H1 s0 m0 base Hh)
    as (s1 & m1 & tr1 & k1 & Hrun1 & Hh1 & Hctx1 & Hp1 & Hmono1 & Hlog1
        & Hbt1 & Hpop1 & Hpush1 & Hle1 & Hex1).
  destruct (H2 s1 m1 base Hh1)
    as (s2 & m2 & tr2 & k2 & Hrun2 & Hh2 & Hctx2 & Hp2 & Hmono2 & Hlog2
        & Hbt2 & Hpop2 & Hpush2 & Hle2 & Hex2).
  exists s2, m2, (tr2 ++ tr1), (k1 + k2)%nat.
  rewrite (bind_Done _ _ _ _ _ Hrun1), Hrun2.
  split; [reflexivity|]. split; [exact Hh2|].
  split; [congruence|]. split; [congruence|]. split; [auto|].
  split; [rewrite Hlog2, Hlog1; apply app_assoc|].
  split.
  { rewrite rev_app_distr, stack_events_app.
    rewrite Hctx1, Hp1 in Hbt2. eapply body_trace_app; eassumption. }
  rewrite !count_events_app, Hpop1, Hpop2, Hpush1, Hpush2, Hp1.
  rewrite (closes_now_trans _ _ (closed_ s1) _ Hmono1 Hmono2).
  split; [lia|]. split; [lia|]. split; [lia|].
  intros Hflag Hcan.
  destruct (Hex1 Hflag Hcan) as [-> Hcan1].
  destruct (Hex2 Hflag Hcan1) as [-> Hcan2]. auto.
Qed.

Lemma op_ok_MarkAsFailed : op_ok W (fun s => ret (MarkAsFailed s)) 0.
Proof.
  intros s m base Hh. exists (MarkAsFailed s), m, [], 0%nat. simpl.
  split; [reflexivity|]. split; [exact Hh|].
  split; [reflexivity|]. split; [reflexivity|]. split; [auto|].
  split; [reflexivity|].
  split; [apply body_same; [constructor | reflexivity]|].
  split; [now rewrite closes_now_same|].
  split; [reflexivity|]. split; [lia|]. auto.
Qed.

Lemma op_ok_Close : op_ok W (Close W) 0.
Proof.
  intros s m base Hholds. destruct (closed_ s) eqn:Hc.
  - exists s, m, [], 0%nat. simpl. rewrite (Close_closed_spec _ _ Hc), Hc.
    split; [reflexivity|]. split; [exact Hholds|].
    split; [reflexivity|]. split; [reflexivity|]. split; [auto|].
    split; [reflexivity|].
    split; [apply body_same; [constructor | reflexivity]|].
    split; [now rewrite closes_now_same|].
    split; [reflexivity|]. split; [lia|]. auto.
  - destruct (Close_open_spec _ _ _ Hc Hholds)
      as (s' & m' & HC & Hcl & Hp & Hctx & Hst & Hflag & tr & Hlog & Hev
          & Hpop & Hpush).
    exists s', m', tr, 0%nat. simpl. rewrite HC, Hcl.
    split; [reflexivity|]. split.
    { unfold scope_holds. rewrite Hcl, andb_false_r. exact Hst. }
    split; [exact Hctx|]. split; [exact Hp|]. split; [auto|].
    split; [exact Hlog|].
    split.
    { rewrite Hev. destruct (pushed_ids_ s) eqn:Hpu.
      - apply (body_closes _ _ [] []); [reflexivity | constructor..].
      - apply body_same; [constructor | discriminate]. }
    split.
    { rewrite Hpop. unfold closes_now. destruct (pushed_ids_ s); reflexivity. }
    split; [exact Hpush|]. split; [lia|].
    intros Hf Hcan. split; [reflexivity|]. now rewrite (Hflag Hf).
Qed.

Lemma body_trace_inv id p c c' h :
  body_trace id p c c' h ->
  (balanced h /\ (p = true -> c = c')) \/
  (p = true /\ c = false /\ c' = true /\
   exists a b, balanced a /\ balanced b /\ h = a ++ EvPopAsyncId id :: b).
Proof.
  intros [x y z Hb He|a b Hp Ha Hb]; [left; auto|right].
  repeat split; try assumption. exists a, b. auto.
Qed.

(** A block: construct the scope, run the body, destroy the scope. *)
Lemma scope_block_spec run n ctx object m :
  op_ok W run n ->
  exists m' tr,
    (inner <- InternalCallbackScope_new (Some object) ctx kRequireResource;;
     inner' <- run inner;;
     InternalCallbackScope_delete W inner') m = Done tt m' /\
    async_id_stack (env m') = async_id_stack (env m) /\
    log m' = tr ++ log m /\
    balanced (stack_events (rev tr)) /\
    count_events is_pop tr = count_events is_push tr /\
    (count_events is_push tr <= S n)%nat /\
    (flush_keeps_flag W -> can_call_into_js (env m) = true ->
     count_events is_push tr = S n /\ can_call_into_js (env m') = true).
Proof.
  intros Hrun.
  destruct (InternalCallbackScope_new_spec object ctx m)
    as (s1 & m1 & Hnew & -> & Hst1 & Hcan1 & Hlog1).
  rewrite (bind_Done _ _ _ _ _ Hnew).
  destruct (Hrun _ m1 (async_id_stack (env m)) Hst1)
    as (s2 & m2 & tr2 & k & Hrun2 & Hh2 & Hctx2 & Hp2 & _ & Hlog2 & Hbt2
        & Hpop2 & Hpush2 & Hle2 & Hex2).
  rewrite (bind_Done _ _ _ _ _ Hrun2).
  cbn [async_context_ pushed_ids_ closed_] in *.
  set (tr1 := if can_call_into_js (env m) then [EvPushAsyncIds ctx] else [])
    in *.
  assert (Htr1 : stack_events (rev tr1) = tr1 /\
                 count_events is_push tr1
                 = (if can_call_into_js (env m) then 1 else 0)%nat /\
                 count_events is_pop tr1 = 0%nat).
  { unfold tr1. destruct (can_call_into_js (env m)); repeat split. }
  destruct Htr1 as (Hse1 & Hpush1 & Hpop1).
  unfold InternalCallbackScope_delete.
  assert (Hleave : forall m3,
            AsyncCallbackScope_leave m3
            = Done tt (mk_machine
                         (set_makecallback_depth
                            (Nat.pred (makecallback_depth (env m3))) (env m3))
                         (log m3))) by reflexivity.
  destruct (closed_ s2) eqn:Hc.
  - rewrite (bind_Done _ _ _ _ _ (Close_closed_spec _ _ Hc)), Hleave.
    unfold scope_holds in Hh2. rewrite Hc, andb_false_r in Hh2.
    eexists. exists (tr2 ++ tr1).
    split; [reflexivity|]. cbn [env log].
    split; [exact Hh2|].
    split; [rewrite Hlog2, Hlog1, <- ?app_assoc; reflexivity|].
    rewrite rev_app_distr, stack_events_app, Hse1, !count_events_app,
      Hpop2, Hpush2, Hpush1, Hpop1.
    unfold closes_now, tr1. destruct (can_call_into_js (env m)) eqn:Hcan.
    + split.
      { destruct (body_trace_inv _ _ _ _ _ Hbt2)
          as [[_ He]|(_ & _ & _ & a & b & Ha & Hb & ->)].
        - discriminate (He eq_refl).
        - change ([EvPushAsyncIds ctx]
                    ++ a ++ EvPopAsyncId (async_id ctx) :: b)
            with ((EvPushAsyncIds ctx
                     :: a ++ [EvPopAsyncId (async_id ctx)] ++ b)).
          rewrite app_assoc, app_comm_cons.
          apply balanced_seq; [now constructor | assumption]. }
      simpl. split; [lia|]. split; [lia|].
      intros Hf _. destruct (Hex2 Hf Hcan1) as [-> Hcan2].
      split; [lia|exact Hcan2].
    + split.
      { simpl.
        destruct (body_trace_inv _ _ _ _ _ Hbt2) as [[Hb _]|(Hp & _)];
          [assumption | discriminate]. }
      simpl. split; [lia|]. split; [lia|]. intros _ Hd. discriminate Hd.
  - destruct (Close_open_spec _ _ _ Hc Hh2)
      as (s3 & m3 & HC & Hcl & Hp & Hctx & Hst & Hflag3 & tr3 & Hlog3 & Hev
          & Hpop3 & Hpush3).
    rewrite (bind_Done _ _ _ _ _ HC), Hleave.
    rewrite Hp2, Hctx2 in *.
    eexists. exists (tr3 ++ tr2 ++ tr1).
    split; [reflexivity|]. cbn [env log].
    split; [exact Hst|].
    split; [rewrite Hlog3, Hlog2, Hlog1, <- ?app_assoc; reflexivity|].
    rewrite !rev_app_distr, !stack_events_app, Hse1, Hev, !count_events_app,
      Hpop2, Hpush2, Hpush1, Hpop1, Hpop3, Hpush3.
    unfold closes_now, tr1. destruct (can_call_into_js (env m)) eqn:Hcan.
    + split.
      { destruct (body_trace_inv _ _ _ _ _ Hbt2)
          as [[Hb _]|(_ & _ & Hd & _)]; [|discriminate].
        simpl. now constructor. }
      simpl. split; [lia|]. split; [lia|].
      intros Hf _. destruct (Hex2 Hf Hcan1) as [-> Hcan2].
      split; [lia|]. now rewrite (Hflag3 Hf).
    + split.
      { simpl. rewrite !app_nil_r.
        destruct (body_trace_inv _ _ _ _ _ Hbt2) as [[Hb _]|(Hp' & _)];
          [assumption | discriminate]. }
      simpl. split; [lia|]. split; [lia|]. intros _ Hd. discriminate Hd.
Qed.

Lemma run_op_spec op : op_ok W (run_op W op) (scopes_of op).
Proof.
  induction op as [| |ctx object body IH] using ScopeOp_nested_ind.
  - apply op_ok_MarkAsFailed.
  - apply op_ok_Close.
  - assert (Hbody : op_ok W (run_ops W body) (scopes_in body)).
    { induction body as [|o rest IHrest].
      - apply op_ok_nil.
      - inversion IH; subst. simpl.
        apply op_ok_seq; [assumption | apply IHrest; assumption]. }
    rewrite scopes_of_nested.
    intros s m base Hh.
    destruct (scope_block_spec _ _ ctx object m Hbody)
      as (m' & tr & Hrun & Hst & Hlog & Hbal & Hpop & Hle & Hex).
    exists s, m', tr, (count_events is_push tr). rewrite run_op_nested.
    split.
    { unfold bind in *.
      destruct (InternalCallbackScope_new _ _ _ m); try discriminate.
      destruct (run_ops W body a m0); try discriminate.
      now rewrite Hrun. }
    split; [now rewrite Hst|]. split; [reflexivity|]. split; [reflexivity|].
    split; [auto|].
    split; [exact Hlog|].
    split; [apply body_same; [assumption | reflexivity]|].
    split; [rewrite Hpop, closes_now_same; lia|].
    split; [reflexivity|]. split; [exact Hle|]. exact Hex.
Qed.

Lemma run_ops_spec ops : op_ok W (run_ops W ops) (scopes_in ops).
Proof.
  induction ops as [|o rest IH]; simpl.
  - apply op_ok_nil.
  - apply op_ok_seq; [apply run_op_spec | exact IH].
Qed.

End ScopeBalance.

(** ** The events of a callback *)

Lemma log_ext_nil (base : list Event) : base = [] ++ base.
Proof. reflexivity. Qed.

Lemma log_ext_cons (ev : Event) l tr base :
  l = tr ++ base -> ev :: l = (ev :: tr) ++ base.
Proof. intros ->. reflexivity. Qed.

Ltac solve_log := simpl; repeat (apply log_ext_cons); apply log_ext_nil.

Ltac case_split :=
  match goal with
  | |- context [match ?x with _ => _ end] =>
      lazymatch x with
      | context [match _ with _ => _ end] => fail
      | _ => destruct x eqn:?
      end
  end.

Lemma InternalMakeCallback_log W r cb argv ctx m :
  exists tr,
    log (machine_of (InternalMakeCallback W (Some r) cb argv ctx m))
      = tr ++ log m /\
    Forall (callback_event ctx r argv (env m)) tr /\
    count_events is_call tr
    = (if can_call_into_js (env m) then 1 else 0)%nat.
Proof.
  destruct ctx as [i t].
  unfold InternalMakeCallback, InternalCallbackScope_new, Call,
    InternalCallbackScope_delete, Close, push_async_ids, pop_async_id,
    AsyncCallbackScope_enter, AsyncCallbackScope_leave, flush.
  run_step.
  destruct (can_call_into_js (env m)) eqn:Hcan; simpl;
    repeat (case_split; simpl);
    (eexists; split; [solve_log|];
     split; [repeat (constructor; [simpl; eauto 6|]); constructor
            | reflexivity]).
Qed.

(** Once managed callbacks are forbidden, [InternalMakeCallback] answers
    an empty handle and has done nothing: nothing pushed, nothing
    called, nothing flushed, the environment as it was. *)
Lemma InternalMakeCallback_forbidden W r cb argv ctx m :
  can_call_into_js (env m) = false ->
  InternalMakeCallback W (Some r) cb argv ctx m = Done None m.
Proof.
  intros Hcan.
  unfold InternalMakeCallback, InternalCallbackScope_new,
    InternalCallbackScope_delete, Close,
    AsyncCallbackScope_enter, AsyncCallbackScope_leave.
  run_step. rewrite Hcan. simpl.
  destruct m as [[] l]. reflexivity.
Qed.

Lemma MakeCallback_function_log W r cb argv ctx m :
  log (machine_of (MakeCallback_function W r cb argv ctx m))
  = log (machine_of (InternalMakeCallback W (Some r) cb argv ctx m)).
Proof.
  unfold MakeCallback_function, bind.
  destruct (InternalMakeCallback W (Some r) cb argv ctx m) as [a m'| |];
    [|reflexivity|reflexivity].
  run_step. destruct a, (makecallback_depth (env m')); reflexivity.
Qed.

Lemma as_function_IsFunction W v :
  IsFunction v = true <-> exists f, as_function W v = Some f.
Proof.
  destruct v; simpl; split; try discriminate; eauto;
    intros [f Hf]; discriminate.
Qed.

Lemma as_function_None W v :
  IsFunction v = false <-> as_function W v = None.
Proof. destruct v; simpl; split; try discriminate; auto. Qed.

(** A data property is read as it is. *)
Lemma has_data_property_Get e o k :
  Get e o k <> Undefined -> has_data_property e o k = true.
Proof.
  unfold Get, has_data_property.
  destruct (heap e !! o) as [props|]; [|congruence].
  destruct (props !! k); simpl; [intros _; reflexivity|congruence].
Qed.

Lemma MaybeGet_data W e o k :
  Get e o k <> Undefined -> MaybeGet W e o k = Some (Get e o k).
Proof.
  intros H. unfold MaybeGet. now rewrite (has_data_property_Get _ _ _ H).
Qed.

Lemma MaybeGet_function W e o k f :
  as_function W (Get e o k) = Some f -> MaybeGet W e o k = Some (Get e o k).
Proof.
  intros H. apply MaybeGet_data. intros E. rewrite E in H. discriminate.
Qed.

Lemma MaybeGet_Some W e o k v :
  MaybeGet W e o k = Some v -> v = Get e o k.
Proof.
  unfold MaybeGet. destruct (_ && _); [discriminate|congruence].
Qed.

Lemma MaybeGet_function_None W e o k :
  MaybeGet W e o k = None -> as_function W (Get e o k) = None.
Proof.
  intros H. destruct (as_function W (Get e o k)) as [f|] eqn:Hf;
    [|reflexivity].
  rewrite (MaybeGet_function _ _ _ _ _ Hf) in H. discriminate.
Qed.

Lemma MakeCallback_method_log W r name argv ctx m :
  exists tr,
    log (machine_of (MakeCallback_method W r name argv ctx m))
      = tr ++ log m /\
    Forall (callback_event ctx r argv (env m)) tr /\
    (count_events is_call tr <= 1)%nat /\
    (forall f, as_function W (Get (env m) r name) = Some f ->
               count_events is_call tr
               = (if can_call_into_js (env m) then 1 else 0)%nat) /\
    (can_call_into_js (env m) = false -> tr = []) /\
    (forall v m', MakeCallback_method W r name argv ctx m = Done (Some v) m' ->
                  can_call_into_js (env m) = true ->
                  count_events is_call tr = 1%nat).
Proof.
  unfold MakeCallback_method, MakeCallback_symbol. run_step.
  assert (Hnil : exists tr : list Event,
            log m = tr ++ log m /\
            Forall (callback_event ctx r argv (env m)) tr /\
            (count_events is_call tr <= 1)%nat /\ tr = []).
  { exists []. repeat split; [constructor | unfold count_events; simpl; lia]. }
  destruct (MaybeGet W (env m) r name) as [v|] eqn:HM; simpl.
  - rewrite (MaybeGet_Some _ _ _ _ _ HM).
    destruct (as_function W (Get (env m) r name)) as [f|] eqn:Hf.
    + rewrite MakeCallback_function_log.
      destruct (InternalMakeCallback_log W r f argv ctx m)
        as (tr & Hlog & HF & Hc).
      exists tr. split; [exact Hlog|]. split; [exact HF|].
      split; [rewrite Hc; destruct (can_call_into_js (env m)); lia|].
      split; [intros f' _; exact Hc|].
      split.
      { intros Hcan.
        rewrite (InternalMakeCallback_forbidden _ _ _ _ _ _ Hcan) in Hlog.
        simpl in Hlog. symmetry in Hlog.
        apply (f_equal (@length Event)) in Hlog as Hlen.
        rewrite length_app in Hlen.
        destruct tr; [reflexivity | simpl in Hlen; lia]. }
      intros v' m' _ Hcan. now rewrite Hc, Hcan.
    + destruct Hnil as (tr & Hl & HF & Hle & ->).
      exists []. repeat split; try assumption; try discriminate.
  - rewrite (MaybeGet_function_None W (env m) r name HM).
    destruct Hnil as (tr & Hl & HF & Hle & ->).
    exists []. repeat split; try assumption; try discriminate.
Qed.

Lemma count_events_none p h :
  Forall (fun ev => p ev = false) h -> count_events p h = 0%nat.
Proof.
  induction 1 as [|ev h Hev _ IH]; [reflexivity|].
  unfold count_events in *. simpl. now rewrite Hev.
Qed.

Lemma Get_scope_entered ctx e o k : Get (scope_entered ctx e) o k = Get e o k.
Proof. reflexivity. Qed.

Lemma Get_Set_same o k v e : Get (Set_ o k v e) o k = v.
Proof.
  unfold Get, Set_. simpl. rewrite lookup_insert_eq. simpl.
  now rewrite lookup_insert_eq.
Qed.

Lemma Get_Set_other o k k' v e :
  k <> k' -> Get (Set_ o k v e) o k' = Get e o k'.
Proof.
  intros Hne. unfold Get, Set_. simpl. rewrite lookup_insert_eq.
  rewrite lookup_insert_ne by exact Hne.
  destruct (heap e !! o); reflexivity.
Qed.

Lemma read_exit_code_spec W p m :
  read_exit_code W p m
  = match exit_code_of W (env m) p with
    | Some code => Done code m
    | None => Fatal m
    end.
Proof.
  unfold read_exit_code, exit_code_of. run_step.
  destruct (MaybeGet W (env m) p (exit_code_string W)) as [v|]; simpl;
    [|reflexivity].
  destruct (Int32Value W (env m) v); reflexivity.
Qed.

Lemma EmitExit_unfold W m :
  EmitExit W m =
  let p := process_object (env m) in
  if Set_is_nothing W (env m) p "_exiting" (Boolean true)
  then Fatal m
  else
    let e1 := Set_ p "_exiting" (Boolean true) (env m) in
    match exit_code_of W e1 p with
    | None => Fatal (mk_machine e1 (log m))
    | Some code =>
        match MakeCallback_method W p "emit" [Str "exit"; Integer code]
                (mk_async_context 0 0) (mk_machine e1 (log m)) with
        | Done (Some _) m2 =>
            match exit_code_of W (env m2) p with
            | Some code' => Done code' m2
            | None => Fatal m2
            end
        | Done None m2 => Fatal m2
        | Fatal m2 => Fatal m2
        | OutOfFuel m2 => OutOfFuel m2
        end
    end.
Proof.
  unfold EmitExit, MaybeSet. unfold bind at 1 2. unfold read at 1.
  cbv zeta.
  destruct (Set_is_nothing W (env m) _ _ _); [reflexivity|].
  cbn [FromJust]. unfold bind at 1. unfold ret at 1.
  unfold bind at 1. rewrite read_exit_code_spec. cbn [env log].
  destruct (exit_code_of W _ _) as [code|]; [|reflexivity].
  unfold bind at 1.
  destruct (MakeCallback_method _ _ _ _ _ _) as [[v|] m2| |];
    try reflexivity.
  cbn [ToLocalChecked]. unfold bind at 1, ret at 1.
  apply read_exit_code_spec.
Qed.

Lemma exit_code_of_Integer W e p z :
  Get e p (exit_code_string W) = Integer z ->
  exit_code_of W e p = Some (wrap_int32 z).
Proof.
  intros H. unfold exit_code_of.
  rewrite MaybeGet_data by (rewrite H; discriminate).
  now rewrite H.
Qed.

(** C10.  [EmitExit] stores true in the [_exiting] property of the
    process object before it emits 'exit': every call it makes starts in
    an environment where the property is true, and is passed, after the
    event name, the integer that the exit-code property gave when it was
    read and converted right after that store, before any listener ran;
    the property is still what it was then when the call starts.  It
    makes at most one call, and exactly one when the store and the
    reading do not throw, [process.emit] is a function and managed code
    may be called.  When the store throws, or the reading or the
    conversion of the exit code does, the process aborts before any
    call. *)
Theorem EmitExit_marks_exiting_then_emits (W : World) (m : Machine) :
  let p := process_object (env m) in
  let e1 := Set_ p "_exiting" (Boolean true) (env m) in
  exists tr,
    log (machine_of (EmitExit W m)) = tr ++ log m /\
    (forall callee recv argv at_call,
        In (EvCall callee recv argv at_call) tr ->
        recv = p /\
        Get at_call p "_exiting" = Boolean true /\
        exists code,
          exit_code_of W e1 p = Some code /\
          Get at_call p (exit_code_string W)
          = Get e1 p (exit_code_string W) /\
          (argv = [Str "exit"; Integer code] \/
           exists callback,
             argv = [Function callback; Str "exit"; Integer code])) /\
    (count_events is_call tr <= 1)%nat /\
    (forall f code,
        Set_is_nothing W (env m) p "_exiting" (Boolean true) = false ->
        exit_code_of W e1 p = Some code ->
        as_function W (Get (env m) p "emit") = Some f ->
        can_call_into_js (env m) = true ->
        count_events is_call tr = 1%nat) /\
    (Set_is_nothing W (env m) p "_exiting" (Boolean true) = true ->
     EmitExit W m = Fatal m) /\
    (Set_is_nothing W (env m) p "_exiting" (Boolean true) = false ->
     exit_code_of W e1 p = None ->
     EmitExit W m = Fatal (mk_machine e1 (log m))) /\
    (forall z,
        exit_code_string W <> "_exiting" ->
        Get (env m) p (exit_code_string W) = Integer z ->
        exit_code_of W e1 p = Some (wrap_int32 z)).
Proof.
  intros p e1. rewrite EmitExit_unfold. cbv zeta. fold p e1.
  assert (Hlast : forall z,
             exit_code_string W <> "_exiting" ->
             Get (env m) p (exit_code_string W) = Integer z ->
             exit_code_of W e1 p = Some (wrap_int32 z)).
  { intros z Hne Hz. apply exit_code_of_Integer. unfold e1.
    rewrite Get_Set_other by congruence. exact Hz. }
  assert (Hnil : (count_events is_call [] <= 1)%nat)
    by (unfold count_events; simpl; lia).
  destruct (Set_is_nothing W (env m) p "_exiting" (Boolean true)) eqn:Hset.
  { exists []. split; [reflexivity|].
    split; [intros ? ? ? ? []|]. split; [exact Hnil|].
    split; [discriminate|]. split; [reflexivity|].
    split; [discriminate | exact Hlast]. }
  destruct (exit_code_of W e1 p) as [code|] eqn:Hcode.
  2:{ exists []. split; [reflexivity|].
      split; [intros ? ? ? ? []|]. split; [exact Hnil|].
      split; [discriminate|]. split; [discriminate|].
      split; [reflexivity | exact Hlast]. }
  destruct (MakeCallback_method_log W p "emit" [Str "exit"; Integer code]
              (mk_async_context 0 0) (mk_machine e1 (log m)))
    as (tr & Hlog & HF & Hle & Hone & _).
  exists tr. split.
  { destruct (MakeCallback_method _ _ _ _ _ _) as [[v|] m2| |];
      [destruct (exit_code_of W (env m2) p)| | |]; exact Hlog. }
  split.
  { intros callee recv argv at_call Hin.
    rewrite List.Forall_forall in HF. specialize (HF _ Hin). simpl in HF.
    destruct HF as (-> & Hargs & ->).
    split; [reflexivity|]. rewrite !Get_scope_entered.
    split; [apply Get_Set_same|]. exists code.
    split; [reflexivity|]. split; [reflexivity|]. exact Hargs. }
  split; [exact Hle|]. split.
  { intros f code' _ _ Hf Hcan.
    rewrite (Hone f).
    - cbn [env].
      change (can_call_into_js e1) with (can_call_into_js (env m)).
      now rewrite Hcan.
    - cbn [env]. unfold e1. rewrite Get_Set_other by discriminate. exact Hf. }
  split; [discriminate|]. split; [discriminate | exact Hlast].
Qed.

(** ** The public [MakeCallback]s *)

(** C9.  When [InternalMakeCallback], called with async context {0, 0},
    returns an empty handle and leaves the environment at makecallback
    depth 0, each of the three legacy [MakeCallback] overloads returns
    [Undefined] and not an empty handle: the overload that takes the
    function, and the overloads that take a method name or a symbol
    under which the receiver holds that function. *)
Theorem legacy_MakeCallback_returns_Undefined_on_failure (W : World)
    (recv callback : nat) (argv : list Value) (m m' : Machine) :
  InternalMakeCallback W (Some recv) callback argv (mk_async_context 0 0) m
    = Done None m' ->
  makecallback_depth (env m') = 0%nat ->
  MakeCallback_legacy_function W recv callback argv m
    = Done (Some Undefined) m' /\
  (forall name,
      Get (env m) recv name = Function callback ->
      MakeCallback_legacy_method W recv name argv m
        = Done (Some Undefined) m' /\
      MakeCallback_legacy_symbol W recv name argv m
        = Done (Some Undefined) m').
Proof.
  intros Hint Hdepth.
  assert (Hf : MakeCallback_function W recv callback argv
                 (mk_async_context 0 0) m = Done (Some Undefined) m').
  { unfold MakeCallback_function. rewrite (bind_Done _ _ _ _ _ Hint).
    run_step. now rewrite Hdepth. }
  split; [exact Hf|].
  intros name Hget.
  unfold MakeCallback_legacy_method, MakeCallback_legacy_symbol,
    MakeCallback_method, MakeCallback_symbol.
  run_step. rewrite MaybeGet_data by (rewrite Hget; discriminate).
  rewrite Hget. split; exact Hf.
Qed.

Lemma legacy_MakeCallback_returns_Undefined_on_failure_witness :
  exists m',
    InternalMakeCallback throwing_world (Some 1%nat) 7 [Str "exit"]
      (mk_async_context 0 0) start_machine = Done None m' /\
    makecallback_depth (env m') = 0%nat /\
    MakeCallback_legacy_function throwing_world 1 7 [Str "exit"] start_machine
      = Done (Some Undefined) m' /\
    MakeCallback_legacy_method throwing_world 1 "emit" [Str "exit"]
      start_machine = Done (Some Undefined) m'.
Proof.
  eexists.
  assert (H1 : InternalMakeCallback throwing_world (Some 1%nat) 7 [Str "exit"]
      (mk_async_context 0 0) start_machine = Done None
        (machine_of (InternalMakeCallback throwing_world (Some 1%nat) 7
           [Str "exit"] (mk_async_context 0 0) start_machine))).
  { vm_compute. reflexivity. }
  assert (H2 : makecallback_depth (env (machine_of
           (InternalMakeCallback throwing_world (Some 1%nat) 7
           [Str "exit"] (mk_async_context 0 0) start_machine))) = 0%nat).
  { vm_compute. reflexivity. }
  destruct (legacy_MakeCallback_returns_Undefined_on_failure
              throwing_world 1 7 [Str "exit"] start_machine _ H1 H2)
    as [Hf Hm].
  split; [exact H1|]. split; [exact H2|]. split; [exact Hf|].
  apply (Hm "emit"). vm_compute. reflexivity.
Defined.

(** ** Bootstrap *)

(** C6.  [ExecuteBootstrapper] returns what [CompileAndCall] returned.
    When that is an empty handle, the async-id stack is empty when
    [ExecuteBootstrapper] returns; otherwise the environment, and with it
    the async-id stack, is exactly as [CompileAndCall] left it. *)
Theorem ExecuteBootstrapper_clears_stack_when_empty (W : World)
    (id : string) (parameters : list string) (arguments : list Value)
    (m : Machine) :
  let r := CompileAndCall W id parameters arguments (env m) in
  exists m',
    ExecuteBootstrapper W id parameters arguments m = Done (fst r) m' /\
    match fst r with
    | None =>
        async_id_stack (env m') = [] /\
        env m' = set_async_id_stack [] (snd r) /\
        log m' = [EvClearAsyncIdStack; EvCompileAndCall id] ++ log m
    | Some _ =>
        env m' = snd r /\
        log m' = [EvCompileAndCall id] ++ log m
    end.
Proof.
  intros r. unfold ExecuteBootstrapper, clear_async_id_stack. run_step.
  fold r. destruct (fst r); eexists; (split; [reflexivity|]);
    repeat split; reflexivity.
Qed.

(** ** Startup failures *)

(** C7, as the code has it.  When [Isolate::Allocate] gives no isolate,
    [Start] returns 12 and has done nothing else: no event is logged, so
    no cleanup hook ran and the run loop was not entered.  When the
    inspector was requested and is not started after [StartInspector],
    [Start] returns 12 as well, right after the isolate is disposed,
    without bootstrap, loop or exit notification. *)
Theorem Start_returns_12_on_startup_failure (W : World) (fuel : nat)
    (m : Machine) :
  (Isolate_Allocate W = false -> Start_loop W fuel m = Done 12 m) /\
  (forall m1,
      Isolate_Allocate W = true ->
      (emit_event EvEnvStart;;; modify (env_Start W);;; StartInspector W)
        (mk_machine (env m) (EvRegisterIsolate :: log m)) = Done tt m1 ->
      inspector_enabled (env m1) = true ->
      NODE_USE_V8_PLATFORM W && HAVE_INSPECTOR W
        && inspector_listening (env m1) = false ->
      Start_loop W fuel m
        = Done 12 (mk_machine (env m1) (EvDisposeIsolate :: log m1))).
Proof.
  split.
  - intros Halloc. unfold Start_loop, NewIsolate. rewrite Halloc. reflexivity.
  - intros m1 Halloc Hstart Henabled Hnot.
    unfold Start_loop, NewIsolate. rewrite Halloc.
    unfold Start_isolate. unfold bind in *. simpl in *.
    destruct (StartInspector W _) as [[] m1'| |]; try discriminate.
    injection Hstart as ->.
    unfold v8_platform_InspectorStarted. unfold read, ret.
    rewrite Henabled.
    destruct (NODE_USE_V8_PLATFORM W && HAVE_INSPECTOR W) eqn:Hcfg; simpl.
    + simpl in Hnot. rewrite Hnot. reflexivity.
    + reflexivity.
Qed.

Lemma Start_returns_12_on_startup_failure_witness :
  Start_loop no_isolate_world 3 start_machine = Done 12 start_machine /\
  exists m',
    Start_loop quiet_world 3 inspector_requested_machine = Done 12 m' /\
    count_events is_uv_run (log m') = 0%nat.
Proof.
  split.
  - apply (Start_returns_12_on_startup_failure no_isolate_world 3
             start_machine). reflexivity.
  - eexists. split.
    + apply (Start_returns_12_on_startup_failure quiet_world 3
               inspector_requested_machine);
        [reflexivity | vm_compute; reflexivity | reflexivity | reflexivity].
    + vm_compute. reflexivity.
Defined.

(** The claim C7 as stated has the code 12 set apart from every exit code
    a script can cause.  Here no startup step fails, an 'exit' listener
    stores 12 as the exit code, and [Start] returns 12 after one exit
    notification. *)
Lemma exit_code_12_also_comes_from_a_script :
  Isolate_Allocate script12_world = true /\
  inspector_enabled (env start_machine) = false /\
  exists m',
    Start_loop script12_world 1 start_machine = Done 12 m' /\
    count_events (is_emission "exit") (log m') = 1%nat /\
    Get (env m') 1 "exitCode" = Integer 12.
Proof.
  split; [reflexivity|]. split; [reflexivity|].
  eexists. split; [vm_compute; reflexivity|].
  split; vm_compute; reflexivity.
Qed.

Ltac solve_log_upto := simpl; repeat first [apply log_ext_nil | apply log_ext_cons].

Lemma bootstrap_block_log W m :
  exists boot,
    log (machine_of (bootstrap_block W m))
      = (EvPopAsyncId 1 :: boot)
        ++ EvPushAsyncIds (mk_async_context 1 0) :: log m /\
    Forall (fun ev => is_bootstrap_event ev = true) boot /\
    (bootstrap_block W m <> OutOfFuel (machine_of (bootstrap_block W m))) /\
    (fst (loaders_result W (env m)) = None ->
     boot = [EvClearAsyncIdStack;
             EvCompileAndCall "internal/bootstrap/loaders"] /\
     exists m1, bootstrap_block W m = Done tt m1 /\
                async_id_stack (env m1) = []).
Proof.
  unfold bootstrap_block, LoadEnvironment, ExecuteBootstrapper,
    clear_async_id_stack, Object_New, push_async_ids, pop_async_id,
    AsyncCallbackScope_enter, AsyncCallbackScope_leave.
  run_step.
  change (CompileAndCall W "internal/bootstrap/loaders" _ _ _)
    with (loaders_result W (env m)).
  destruct (fst (loaders_result W (env m))) as [exports|] eqn:Hl; simpl.
  - repeat (case_split; simpl);
      (eexists; split;
       [apply log_ext_cons; solve_log_upto
       | split; [repeat constructor
                | split; [discriminate | discriminate]]]).
  - exists [EvClearAsyncIdStack;
            EvCompileAndCall "internal/bootstrap/loaders"].
    split; [reflexivity|].
    split; [repeat constructor|]. split; [discriminate|].
    intros _. split; [reflexivity|]. eexists. split; reflexivity.
Qed.

(** ** Computations only add to the log *)

Lemma logs_at_ret {A} Q (a : A) m : logs_at Q (ret a) m.
Proof. exists []. split; [reflexivity | constructor]. Qed.

Lemma logs_at_fatal {A} Q m : logs_at Q (@fatal A) m.
Proof. exists []. split; [reflexivity | constructor]. Qed.

Lemma logs_at_out_of_fuel {A} Q m : logs_at Q (@out_of_fuel A) m.
Proof. exists []. split; [reflexivity | constructor]. Qed.

Lemma logs_at_read {A} Q (f : Environment -> A) m : logs_at Q (read f) m.
Proof. exists []. split; [reflexivity | constructor]. Qed.

Lemma logs_at_modify Q f m : logs_at Q (modify f) m.
Proof. exists []. split; [reflexivity | constructor]. Qed.

Lemma logs_at_ask {A} Q (f : Environment -> A * Environment) m :
  logs_at Q (ask f) m.
Proof. exists []. split; [reflexivity | constructor]. Qed.

Lemma logs_at_emit (Q : Event -> Prop) ev m : Q ev -> logs_at Q (emit_event ev) m.
Proof. intros H. exists [ev]. split; [reflexivity | now repeat constructor]. Qed.

Lemma logs_at_bind {A B} Q (c : M A) (k : A -> M B) m :
  logs_at Q c m ->
  (forall a m', c m = Done a m' -> logs_at Q (k a) m') ->
  logs_at Q (bind c k) m.
Proof.
  intros (tr & Hlog & HQ) Hk. unfold logs_at, bind.
  destruct (c m) as [a m'| |] eqn:E; try (exists tr; split; assumption).
  destruct (Hk a m' eq_refl) as (tr' & Hlog' & HQ').
  exists (tr' ++ tr). simpl in Hlog. split.
  - rewrite Hlog', Hlog. apply app_assoc.
  - apply Forall_app. split; assumption.
Qed.

Lemma EmitBeforeExit_unfold W m :
  EmitBeforeExit W m =
  match before_exit_code_of W (env m) (process_object (env m)) with
  | None => Fatal m
  | Some code =>
      match MakeCallback_method W (process_object (env m)) "emit"
              [Str "beforeExit"; Integer code] (mk_async_context 0 0) m with
      | Done (Some _) m2 => Done tt m2
      | Done None m2 => Fatal m2
      | Fatal m2 => Fatal m2
      | OutOfFuel m2 => OutOfFuel m2
      end
  end.
Proof.
  unfold EmitBeforeExit, before_exit_code_of. run_step.
  destruct (MaybeGet W (env m) _ _) as [v|]; simpl; [|reflexivity].
  destruct (ToInteger W (env m) v) as [code|]; simpl; [|reflexivity].
  destruct (MakeCallback_method _ _ _ _ _ _) as [[v'|] m2| |]; reflexivity.
Qed.

Lemma EmitBeforeExit_logs W m :
  loop_work (env m) = 0%nat -> logs_at loop_event (EmitBeforeExit W) m.
Proof.
  intros Hidle. unfold logs_at. rewrite EmitBeforeExit_unfold.
  destruct (before_exit_code_of W (env m) (process_object (env m)))
    as [code|]; [|exists []; split; [reflexivity | constructor]].
  destruct (MakeCallback_method_log W (process_object (env m)) "emit"
              [Str "beforeExit"; Integer code]
              (mk_async_context 0 0) m) as (tr & Hlog & HF & _).
  exists tr. split.
  { destruct (MakeCallback_method _ _ _ _ _ _) as [[v|] m2| |]; exact Hlog. }
  eapply Forall_impl; [exact HF|].
  intros [] Hev; simpl in *; try exact I; try contradiction.
  destruct Hev as (_ & [-> | [cb ->]] & ->); split; auto.
Qed.

Lemma uv_loop_alive_spec m :
  uv_loop_alive m
  = Done (0 <? loop_work (env m))%nat
         (mk_machine (env m) (EvLoopAlive (0 <? loop_work (env m))%nat :: log m)).
Proof. reflexivity. Qed.

Lemma RunBeforeExit_logs W m : logs_at loop_event (RunBeforeExit W) m.
Proof.
  unfold RunBeforeExit.
  apply logs_at_bind; [apply logs_at_emit; exact I|]. intros [] m1 _.
  apply logs_at_bind; [apply logs_at_modify|]. intros [] m2 _.
  apply logs_at_bind.
  { exists [EvLoopAlive (0 <? loop_work (env m2))%nat].
    split; [reflexivity | repeat constructor]. }
  intros alive m3 H. rewrite uv_loop_alive_spec in H. injection H as <- <-.
  destruct (0 <? loop_work (env m2))%nat eqn:Ha; [apply logs_at_ret|].
  apply EmitBeforeExit_logs. simpl. apply Nat.ltb_ge in Ha. lia.
Qed.

Lemma event_loop_logs W fuel : forall m, logs_at loop_event (event_loop W fuel) m.
Proof.
  induction fuel as [|fuel IH]; intros m; simpl.
  - apply logs_at_out_of_fuel.
  - apply logs_at_bind; [apply logs_at_emit; exact I|]. intros [] m1 _.
    apply logs_at_bind; [apply logs_at_modify|]. intros [] m2 _.
    apply logs_at_bind.
    { unfold DrainVMTasks. apply logs_at_bind; [apply logs_at_emit; exact I|].
      intros. apply logs_at_modify. }
    intros [] m3 _.
    apply logs_at_bind.
    { eexists [_]. split; [reflexivity | repeat constructor]. }
    intros more m4 _. destruct more; [apply IH|].
    apply logs_at_bind; [apply RunBeforeExit_logs|]. intros [] m5 _.
    apply logs_at_bind.
    { eexists [_]. split; [reflexivity | repeat constructor]. }
    intros more' m6 _. destruct more'; [apply IH | apply logs_at_ret].
Qed.

(** ** The exit sequence *)

Lemma exit_sequence_after_EmitExit W m :
  match EmitExit W (mk_machine (set_trace_sync_io false (env m)) (log m)) with
  | Done code m2 =>
      exists m' w e3,
        exit_sequence W m = Done code m' /\
        log m' = [EvCancelVMTasks; EvDrainVMTasks; EvRunAtExit; EvRunCleanup;
                  EvSetCanCallIntoJs false] ++ w ++ log m2 /\
        Forall (fun ev => ev = EvWaitForInspectorDisconnect) w /\
        env m' = CancelPendingDelayedTasks W
                   (DrainTasks W
                      (RunAtExitCallbacks W
                         (RunCleanup W (set_can_call_into_js false e3))))
  | Fatal m2 => exit_sequence W m = Fatal m2
  | OutOfFuel m2 => exit_sequence W m = OutOfFuel m2
  end.
Proof.
  assert (Hmod : forall A f (k : unit -> M A) m0,
             bind (modify f) k m0 = k tt (mk_machine (f (env m0)) (log m0)))
    by reflexivity.
  destruct (EmitExit W _) as [code m2| |] eqn:HE;
    unfold exit_sequence; rewrite Hmod; unfold bind at 1; rewrite HE;
    [|reflexivity|reflexivity].
  unfold WaitForInspectorDisconnect, RunAtExit, DrainVMTasks, CancelVMTasks.
  run_step.
  destruct (HAVE_INSPECTOR W); [destruct (inspector_active (env m2))|]; simpl.
  - eexists. exists [EvWaitForInspectorDisconnect]. eexists.
    split; [reflexivity|]. split; [reflexivity|].
    split; [repeat constructor|]. reflexivity.
  - eexists. exists []. eexists.
    split; [reflexivity|]. split; [reflexivity|].
    split; [constructor|]. reflexivity.
  - eexists. exists []. eexists.
    split; [reflexivity|]. split; [reflexivity|].
    split; [constructor|]. reflexivity.
Qed.

Lemma RunLoop_after_loop W fuel m m1 :
  (bootstrap_block W;;; event_loop W fuel) m = Done tt m1 ->
  RunLoop W fuel m = exit_sequence W m1.
Proof.
  unfold RunLoop, bind. intros H.
  destruct (bootstrap_block W m) as [[] mb| |]; try discriminate.
  destruct (event_loop W fuel mb) as [[] ml| |]; try discriminate.
  now injection H as ->.
Qed.

(** C3.  When the loop phase is over and the 'exit' emission returns,
    the run loop returns the exit code that the process object holds in
    the environment the listeners left, as [Int32Value] converts it
    there, whatever code was computed and passed to them before; a
    listener that leaves 7 there makes the run loop return 7.  When
    reading that property or converting it throws, the process aborts
    and the run loop does not return. *)
Theorem RunLoop_returns_exit_code_left_by_listeners (W : World) (fuel : nat)
    (m m1 m2 : Machine) (v : Value) (code0 : Z) :
  (bootstrap_block W;;; event_loop W fuel) m = Done tt m1 ->
  let p := process_object (env m1) in
  let e0 := set_trace_sync_io false (env m1) in
  let e1 := Set_ p "_exiting" (Boolean true) e0 in
  Set_is_nothing W e0 p "_exiting" (Boolean true) = false ->
  exit_code_of W e1 p = Some code0 ->
  MakeCallback_method W p "emit" [Str "exit"; Integer code0]
    (mk_async_context 0 0) (mk_machine e1 (log m1)) = Done (Some v) m2 ->
  match exit_code_of W (env m2) p with
  | Some code => exists m', RunLoop W fuel m = Done code m'
  | None => RunLoop W fuel m = Fatal m2
  end /\
  (forall z, Get (env m2) p (exit_code_string W) = Integer z ->
             exists m', RunLoop W fuel m = Done (wrap_int32 z) m') /\
  (Get (env m2) p (exit_code_string W) = Integer 7 ->
   exists m', RunLoop W fuel m = Done 7 m').
Proof.
  intros Hloop p e0 e1 Hset Hcode0 Hemit.
  assert (HE : EmitExit W (mk_machine e0 (log m1))
               = match exit_code_of W (env m2) p with
                 | Some code => Done code m2
                 | None => Fatal m2
                 end).
  { rewrite EmitExit_unfold. cbv zeta. cbn [env log].
    change (process_object e0) with p. rewrite Hset.
    fold e1. rewrite Hcode0, Hemit. reflexivity. }
  pose proof (exit_sequence_after_EmitExit W m1) as Hseq.
  fold e0 in Hseq. rewrite HE in Hseq.
  rewrite (RunLoop_after_loop _ _ _ _ Hloop).
  assert (Hz : forall z, Get (env m2) p (exit_code_string W) = Integer z ->
                         exists m', exit_sequence W m1
                                    = Done (wrap_int32 z) m').
  { intros z Hget. rewrite (exit_code_of_Integer _ _ _ _ Hget) in Hseq.
    destruct Hseq as (m' & w & e3 & Hrun & _). exists m'. exact Hrun. }
  split; [|split; [exact Hz | exact (Hz 7)]].
  destruct (exit_code_of W (env m2) p) as [code|].
  - destruct Hseq as (m' & w & e3 & Hrun & _). exists m'. exact Hrun.
  - exact Hseq.
Qed.

Lemma RunLoop_returns_exit_code_left_by_listeners_witness :
  Get (env start_machine) 1 "exitCode" = Integer 0 /\
  exists m', RunLoop exit7_world 1 start_machine = Done 7 m'.
Proof.
  split; [reflexivity|].
  pose proof (RunLoop_returns_exit_code_left_by_listeners exit7_world 1
                start_machine) as H.
  edestruct H as (_ & _ & H7).
  - vm_compute. reflexivity.
  - vm_compute. reflexivity.
  - vm_compute. reflexivity.
  - vm_compute. reflexivity.
  - apply H7. vm_compute. reflexivity.
Defined.

(** ** The history of the run loop *)

Lemma event_loop_S_log W fuel m :
  exists tr,
    log (machine_of (event_loop W (S fuel) m)) = tr ++ EvUvRun :: log m /\
    Forall loop_event tr.
Proof.
  change (logs_at loop_event
            (modify (uv_run W);;;
             DrainVMTasks W;;;
             more <- uv_loop_alive;;
             if more : bool then event_loop W fuel
             else
               RunBeforeExit W;;;
               more' <- uv_loop_alive;;
               if more' : bool then event_loop W fuel else ret tt)
            (mk_machine (env m) (EvUvRun :: log m))).
  apply logs_at_bind; [apply logs_at_modify|]. intros [] m2 _.
  apply logs_at_bind.
  { unfold DrainVMTasks. apply logs_at_bind; [apply logs_at_emit; exact I|].
    intros. apply logs_at_modify. }
  intros [] m3 _.
  apply logs_at_bind.
  { eexists [_]. split; [reflexivity | repeat constructor]. }
  intros more m4 _. destruct more; [apply event_loop_logs|].
  apply logs_at_bind; [apply RunBeforeExit_logs|]. intros [] m5 _.
  apply logs_at_bind.
  { eexists [_]. split; [reflexivity | repeat constructor]. }
  intros more' m6 _. destruct more'; [apply event_loop_logs | apply logs_at_ret].
Qed.

Lemma callback_event_emission ctx r name rest e tr :
  Forall (callback_event ctx r (Str name :: rest) e) tr ->
  Forall (fun ev => is_emission name ev = is_call ev) tr.
Proof.
  intros H. eapply Forall_impl; [exact H|].
  intros [] Hev; simpl in *; try reflexivity.
  destruct Hev as (_ & [-> | [cb ->]] & _); simpl;
    now rewrite String.eqb_refl.
Qed.

Lemma count_events_ext p q h :
  Forall (fun ev => p ev = q ev) h -> count_events p h = count_events q h.
Proof.
  induction 1 as [|ev h Hev _ IH]; [reflexivity|].
  unfold count_events in *. simpl. rewrite Hev.
  destruct (q ev); simpl; now rewrite IH.
Qed.

Lemma exit_callback_events ctx r code e tr :
  Forall (callback_event ctx r [Str "exit"; Integer code] e) tr ->
  Forall (fun ev => is_emission "exit" ev = is_call ev) tr /\
  Forall (fun ev => is_emission "beforeExit" ev = false) tr.
Proof.
  intros HF. split; [eapply callback_event_emission; exact HF|].
  eapply Forall_impl; [exact HF|].
  intros [] Hev; simpl in *; try reflexivity.
  destruct Hev as (_ & [-> | [cb ->]] & _); reflexivity.
Qed.

Lemma exit_sequence_log W m :
  exists tr_cb w,
    Forall (fun ev => is_emission "exit" ev = is_call ev) tr_cb /\
    Forall (fun ev => is_emission "beforeExit" ev = false) tr_cb /\
    (count_events is_call tr_cb <= 1)%nat /\
    Forall (fun ev => ev = EvWaitForInspectorDisconnect) w /\
    match exit_sequence W m with
    | Done _ m' =>
        exists e2,
          log m' = [EvCancelVMTasks; EvDrainVMTasks; EvRunAtExit; EvRunCleanup;
                    EvSetCanCallIntoJs false] ++ w ++ tr_cb ++ log m /\
          count_events is_call tr_cb
          = (if can_call_into_js (env m) then 1 else 0)%nat /\
          env m' = CancelPendingDelayedTasks W
                     (DrainTasks W
                        (RunAtExitCallbacks W
                           (RunCleanup W (set_can_call_into_js false e2))))
    | Fatal m' => log m' = tr_cb ++ log m
    | OutOfFuel m' => log m' = tr_cb ++ log m
    end.
Proof.
  assert (Hnil : (count_events is_call [] <= 1)%nat)
    by (unfold count_events; simpl; lia).
  pose proof (exit_sequence_after_EmitExit W m) as Hseq.
  rewrite EmitExit_unfold in Hseq. cbv zeta in Hseq. cbn [env log] in Hseq.
  destruct (Set_is_nothing W _ _ _ _); cbv beta iota in Hseq.
  { exists [], [].
    split; [constructor|]. split; [constructor|]. split; [exact Hnil|].
    split; [constructor|].
    rewrite Hseq. reflexivity. }
  destruct (exit_code_of W _ _) as [code|]; cbv beta iota in Hseq.
  2:{ exists [], [].
    split; [constructor|]. split; [constructor|]. split; [exact Hnil|].
    split; [constructor|].
      rewrite Hseq. reflexivity. }
  match type of Hseq with
  | context [MakeCallback_method W ?p ?n ?a ?c ?m0] =>
      destruct (MakeCallback_method_log W p n a c m0)
        as (tr & Hlog & HF & Hle & _ & Hoff & Hone);
      destruct (MakeCallback_method W p n a c m0) as [[v|] m2| |] eqn:E
  end; simpl in Hlog; destruct (exit_callback_events _ _ _ _ _ HF) as [Hx Hb];
    cbv beta iota in Hseq.
  - destruct (exit_code_of W (env m2) _) as [code'|]; cbv beta iota in Hseq.
    + destruct Hseq as (m' & w & e2 & Hrun & Hl & Hw & Henv).
      exists tr, w.
      split; [exact Hx|]. split; [exact Hb|]. split; [exact Hle|].
      split; [exact Hw|].
      rewrite Hrun. exists e2. split; [now rewrite Hl, Hlog|].
      split; [|exact Henv].
      cbn [env] in Hoff, Hone.
      change (can_call_into_js (Set_ _ _ _ (set_trace_sync_io false (env m))))
        with (can_call_into_js (env m)) in Hoff, Hone.
      destruct (can_call_into_js (env m)).
      * eapply Hone; reflexivity.
      * rewrite Hoff; reflexivity.
    + exists tr, [].
    split; [exact Hx|]. split; [exact Hb|]. split; [exact Hle|].
    split; [constructor|].
      rewrite Hseq. exact Hlog.
  - exists tr, [].
    split; [exact Hx|]. split; [exact Hb|]. split; [exact Hle|].
    split; [constructor|].
    rewrite Hseq. exact Hlog.
  - exists tr, [].
    split; [exact Hx|]. split; [exact Hb|]. split; [exact Hle|].
    split; [constructor|].
    rewrite Hseq. exact Hlog.
  - exists tr, [].
    split; [exact Hx|]. split; [exact Hb|]. split; [exact Hle|].
    split; [constructor|].
    rewrite Hseq. exact Hlog.
Qed.

Lemma RunLoop_log W fuel m :
  exists boot tr_loop tr_cb w,
    Forall (fun ev => is_bootstrap_event ev = true) boot /\
    Forall loop_event tr_loop /\
    Forall (fun ev => is_emission "exit" ev = is_call ev) tr_cb /\
    Forall (fun ev => is_emission "beforeExit" ev = false) tr_cb /\
    (count_events is_call tr_cb <= 1)%nat /\
    Forall (fun ev => ev = EvWaitForInspectorDisconnect) w /\
    match RunLoop W fuel m with
    | Done _ m' =>
        exists m1 e2,
          (bootstrap_block W;;; event_loop W fuel) m = Done tt m1 /\
          log m' = [EvCancelVMTasks; EvDrainVMTasks; EvRunAtExit; EvRunCleanup;
                    EvSetCanCallIntoJs false] ++ w ++ tr_cb ++ tr_loop
                   ++ (EvPopAsyncId 1 :: boot)
                   ++ EvPushAsyncIds (mk_async_context 1 0) :: log m /\
          count_events is_call tr_cb
          = (if can_call_into_js (env m1) then 1 else 0)%nat /\
          env m' = CancelPendingDelayedTasks W
                     (DrainTasks W
                        (RunAtExitCallbacks W
                           (RunCleanup W (set_can_call_into_js false e2))))
    | Fatal m' | OutOfFuel m' =>
        log m' = tr_cb ++ tr_loop ++ (EvPopAsyncId 1 :: boot)
                 ++ EvPushAsyncIds (mk_async_context 1 0) :: log m
    end.
Proof.
  destruct (bootstrap_block_log W m) as (boot & Hb & HFb & _ & _).
  unfold RunLoop, bind.
  assert (Hnil : (count_events is_call [] <= 1)%nat)
    by (unfold count_events; simpl; lia).
  destruct (bootstrap_block W m) as [[] mb| |]; simpl in Hb;
    try (exists boot, [], [], [];
         split; [exact HFb|]; split; [constructor|]; split; [constructor|];
         split; [constructor|]; split; [exact Hnil|]; split; [constructor|];
         exact Hb).
  destruct (event_loop_logs W fuel mb) as (tl & Hl & HFl).
  destruct (event_loop W fuel mb) as [[] ml| |]; simpl in Hl;
    try (exists boot, tl, [], [];
         split; [exact HFb|]; split; [exact HFl|]; split; [constructor|];
         split; [constructor|]; split; [exact Hnil|]; split; [constructor|];
         rewrite Hl, Hb; reflexivity).
  destruct (exit_sequence_log W ml) as (tr_cb & w & H1 & H2 & H3 & H4 & H5).
  exists boot, tl, tr_cb, w.
  split; [exact HFb|]. split; [exact HFl|]. split; [exact H1|].
  split; [exact H2|]. split; [exact H3|]. split; [exact H4|].
  destruct (exit_sequence W ml) as [code m'| |].
  - destruct H5 as (e2 & H5 & H6 & H7). exists ml, e2.
    split; [reflexivity|]. split; [|split; [exact H6 | exact H7]].
    rewrite H5, Hl, Hb. reflexivity.
  - rewrite H5, Hl, Hb. reflexivity.
  - rewrite H5, Hl, Hb. reflexivity.
Qed.

Lemma In_app_iff_ev (ev : Event) a b : In ev (a ++ b) <-> In ev a \/ In ev b.
Proof. apply List.in_app_iff. Qed.

(** C8.  In every run of the run loop, finished or not: a call that
    announces 'beforeExit' is made only to an environment whose event
    loop has no referenced work; 'exit' is announced at most once.  When
    the run loop returns, 'exit' was announced before
    [set_can_call_into_js(false)], exactly once when managed code could
    be called as the loop phase ended (and not at all otherwise); the
    environment handed to the cleanup hooks, the at-exit callbacks and
    the platform tasks is one in which [can_call_into_js] has been set to
    false, and those steps enter no managed code.  In any environment
    where that flag is false, and so in that one, [InternalMakeCallback]
    pushes nothing, calls nothing, flushes nothing and answers an empty
    handle: managed callbacks are forbidden. *)
Theorem RunLoop_exit_notifications (W : World) (fuel : nat) (m : Machine) :
  exists tr,
    log (machine_of (RunLoop W fuel m)) = tr ++ log m /\
    (forall callee recv argv at_call,
        In (EvCall callee recv argv at_call) tr ->
        event_name argv = Some "beforeExit" ->
        loop_work at_call = 0%nat) /\
    (count_events (is_emission "exit") tr <= 1)%nat /\
    (forall code m',
        RunLoop W fuel m = Done code m' ->
        exists before m1 e2,
          (bootstrap_block W;;; event_loop W fuel) m = Done tt m1 /\
          tr = [EvCancelVMTasks; EvDrainVMTasks; EvRunAtExit; EvRunCleanup;
                EvSetCanCallIntoJs false] ++ before /\
          count_events (is_emission "exit") before
          = (if can_call_into_js (env m1) then 1 else 0)%nat /\
          count_events is_managed_entry
            [EvCancelVMTasks; EvDrainVMTasks; EvRunAtExit; EvRunCleanup]
          = 0%nat /\
          env m' = CancelPendingDelayedTasks W
                     (DrainTasks W
                        (RunAtExitCallbacks W
                           (RunCleanup W (set_can_call_into_js false e2)))) /\
          forall l r cb argv ctx,
            InternalMakeCallback W (Some r) cb argv ctx
              (mk_machine (set_can_call_into_js false e2) l)
            = Done None (mk_machine (set_can_call_into_js false e2) l)) /\
    (forall r cb argv ctx m0,
        can_call_into_js (env m0) = false ->
        InternalMakeCallback W (Some r) cb argv ctx m0 = Done None m0 /\
        MakeCallback_function W r cb argv ctx m0
        = Done (match makecallback_depth (env m0) with
                | O => Some Undefined
                | S _ => None
                end) m0).
Proof.
  destruct (RunLoop_log W fuel m)
    as (boot & tl & tr_cb & w & HFb & HFl & Hex & Hbe & Hle & Hw & Hlog).
  assert (Hboot0 : forall name,
             count_events (is_emission name)
               ((EvPopAsyncId 1 :: boot)
                ++ [EvPushAsyncIds (mk_async_context 1 0)]) = 0%nat).
  { intros name. apply count_events_none. apply Forall_app. split.
    - constructor; [reflexivity|]. eapply Forall_impl; [exact HFb|].
      intros []; simpl; congruence.
    - repeat constructor. }
  assert (Hloop0 : count_events (is_emission "exit") tl = 0%nat).
  { apply count_events_none. eapply Forall_impl; [exact HFl|].
    intros [] Hev; simpl in *; try reflexivity.
    destruct Hev as [-> _]. reflexivity. }
  assert (Hw0 : count_events (is_emission "exit") w = 0%nat).
  { apply count_events_none. eapply Forall_impl; [exact Hw|].
    intros ev ->. reflexivity. }
  assert (Hcb : count_events (is_emission "exit") tr_cb
                = count_events is_call tr_cb)
    by (apply count_events_ext; exact Hex).
  assert (Hidle : forall callee recv argv at_call,
             In (EvCall callee recv argv at_call)
                (w ++ tr_cb ++ tl ++ (EvPopAsyncId 1 :: boot)
                 ++ [EvPushAsyncIds (mk_async_context 1 0)]) ->
             event_name argv = Some "beforeExit" ->
             loop_work at_call = 0%nat).
  { intros callee recv argv at_call Hin Hname.
    rewrite !In_app_iff_ev in Hin.
    destruct Hin as [Hin | [Hin | [Hin | [Hin | Hin]]]].
    - rewrite List.Forall_forall in Hw. now specialize (Hw _ Hin).
    - rewrite List.Forall_forall in Hbe. specialize (Hbe _ Hin).
      simpl in Hbe. rewrite Hname in Hbe. discriminate.
    - rewrite List.Forall_forall in HFl. specialize (HFl _ Hin).
      simpl in HFl. tauto.
    - destruct Hin as [Hin | Hin]; [discriminate|].
      rewrite List.Forall_forall in HFb. specialize (HFb _ Hin).
      discriminate.
    - destruct Hin as [Hin | []]. discriminate. }
  assert (Hoff : forall r cb argv ctx m0,
             can_call_into_js (env m0) = false ->
             InternalMakeCallback W (Some r) cb argv ctx m0 = Done None m0 /\
             MakeCallback_function W r cb argv ctx m0
             = Done (match makecallback_depth (env m0) with
                     | O => Some Undefined
                     | S _ => None
                     end) m0).
  { intros r cb argv ctx m0 Hcan.
    pose proof (InternalMakeCallback_forbidden W r cb argv ctx m0 Hcan) as HI.
    split; [exact HI|].
    unfold MakeCallback_function, bind. rewrite HI. unfold read.
    destruct (makecallback_depth (env m0)); reflexivity. }
  destruct (RunLoop W fuel m) as [code m'| |] eqn:HR; simpl.
  - destruct Hlog as (m1 & e2 & Hphase & Hlog & Hone & Henv).
    exists ([EvCancelVMTasks; EvDrainVMTasks; EvRunAtExit; EvRunCleanup;
             EvSetCanCallIntoJs false]
            ++ w ++ tr_cb ++ tl ++ (EvPopAsyncId 1 :: boot)
            ++ [EvPushAsyncIds (mk_async_context 1 0)]).
    split; [rewrite Hlog; now rewrite <- !app_assoc|].
    split.
    { intros callee recv argv at_call Hin.
      apply (Hidle callee recv argv at_call).
      rewrite In_app_iff_ev in Hin. destruct Hin as [Hin | Hin]; [|exact Hin].
      simpl in Hin. repeat (destruct Hin as [Hin | Hin]; [discriminate|]).
      destruct Hin. }
    assert (Hcount : count_events (is_emission "exit")
                       (w ++ tr_cb ++ tl ++ (EvPopAsyncId 1 :: boot)
                        ++ [EvPushAsyncIds (mk_async_context 1 0)])
                     = (if can_call_into_js (env m1) then 1 else 0)%nat).
    { do 3 rewrite count_events_app.
      rewrite Hw0, Hcb, Hone, Hloop0, Hboot0.
      destruct (can_call_into_js (env m1)); reflexivity. }
    split.
    { rewrite count_events_app, Hcount.
      destruct (can_call_into_js (env m1)); unfold count_events; simpl; lia. }
    split; [|exact Hoff].
    intros code' m'' Heq. injection Heq as _ <-.
    eexists. exists m1, e2. split; [exact Hphase|].
    split; [reflexivity|]. split; [exact Hcount|].
    split; [reflexivity|]. split; [exact Henv|].
    intros l r cb argv ctx. apply Hoff. reflexivity.
  - exists (tr_cb ++ tl ++ (EvPopAsyncId 1 :: boot)
            ++ [EvPushAsyncIds (mk_async_context 1 0)]).
    split; [rewrite Hlog; now rewrite <- !app_assoc|].
    split.
    { intros callee recv argv at_call Hin.
      apply (Hidle callee recv argv at_call).
      rewrite In_app_iff_ev. right. exact Hin. }
    split; [|split; [discriminate | exact Hoff]].
    do 2 rewrite count_events_app. rewrite Hcb, Hloop0, Hboot0. lia.
  - exists (tr_cb ++ tl ++ (EvPopAsyncId 1 :: boot)
            ++ [EvPushAsyncIds (mk_async_context 1 0)]).
    split; [rewrite Hlog; now rewrite <- !app_assoc|].
    split.
    { intros callee recv argv at_call Hin.
      apply (Hidle callee recv argv at_call).
      rewrite In_app_iff_ev. right. exact Hin. }
    split; [|split; [discriminate | exact Hoff]].
    do 2 rewrite count_events_app. rewrite Hcb, Hloop0, Hboot0. lia.
Qed.

(** ** Bootstrap inside the run loop *)

Lemma bootstrap_block_keeps_scopes W m :
  bootstrap_keeps_scopes W ->
  exists m1 boot,
    bootstrap_block W m = Done tt m1 /\
    log m1 = (EvPopAsyncId 1 :: boot)
             ++ EvPushAsyncIds (mk_async_context 1 0) :: log m /\
    makecallback_depth (env m1) = makecallback_depth (env m) /\
    async_id_stack (env m1)
    = (if existsb is_clear boot then [] else async_id_stack (env m)).
Proof.
  intros [HC HS].
  unfold bootstrap_block, LoadEnvironment, ExecuteBootstrapper,
    clear_async_id_stack, Object_New, push_async_ids, pop_async_id,
    AsyncCallbackScope_enter, AsyncCallbackScope_leave.
  run_step.
  match goal with
  | |- context [CompileAndCall W "internal/bootstrap/loaders" ?ps ?args ?e] =>
      destruct (HC "internal/bootstrap/loaders" ps args e) as [H1 H2];
      cbn beta in H1, H2;
      destruct (CompileAndCall W "internal/bootstrap/loaders" ps args e)
        as [[exports|] e1]
  end; cbn [fst snd] in *; cbv beta iota; cbn [env log];
    simpl in H1, H2.
  - match goal with
    | |- context [CompileAndCall W "internal/bootstrap/node" ?ps ?args
                    (SetupBootstrapObject W ?b ?e)] =>
        destruct (HC "internal/bootstrap/node" ps args
                    (SetupBootstrapObject W b e)) as [H3 H4];
        destruct (HS b e) as [H5 H6];
        cbn beta in H3, H4;
        destruct (CompileAndCall W "internal/bootstrap/node" ps args
                    (SetupBootstrapObject W b e)) as [[r2|] e2]
    end; cbn [fst snd] in *; cbv beta iota; cbn [env log];
      rewrite H5 in H3; rewrite H6 in H4; simpl in H3, H4;
      rewrite H1 in H3; rewrite H2 in H4.
    + rewrite H3. simpl.
      eexists. exists [EvCompileAndCall "internal/bootstrap/node";
                       EvCompileAndCall "internal/bootstrap/loaders"].
      split; [reflexivity|]. split; [reflexivity|].
      split; [simpl; rewrite H4; reflexivity | reflexivity].
    + simpl.
      eexists. exists [EvClearAsyncIdStack;
                       EvCompileAndCall "internal/bootstrap/node";
                       EvCompileAndCall "internal/bootstrap/loaders"].
      split; [reflexivity|]. split; [reflexivity|].
      split; [simpl; rewrite H4; reflexivity | reflexivity].
  - simpl.
    eexists. exists [EvClearAsyncIdStack;
                     EvCompileAndCall "internal/bootstrap/loaders"].
    split; [reflexivity|]. split; [reflexivity|].
    split; [simpl; rewrite H2; reflexivity | reflexivity].
Qed.

Lemma existsb_rev_eq {A} (f : A -> bool) (l : list A) :
  existsb f (rev l) = existsb f l.
Proof.
  induction l as [|a l IH]; [reflexivity|].
  simpl. rewrite existsb_app, IH. simpl.
  rewrite orb_false_r. apply orb_comm.
Qed.

(** C2, as the code has it.  The bootstrap block enters one
    [AsyncCallbackScope], pushes the async ids (1, 0), runs the
    bootstrappers, and calls [pop_async_id(1)]; between that push and
    that pop it logs nothing but bootstrapper calls and the clearing of
    the stack.  When the bootstrappers and [SetupBootstrapObject] leave
    the callback scopes as they found them, the block returns with the
    callback depth it started from, and with the async-id stack it
    started from when no bootstrapper failed: the pair (1, 0) has been
    popped and the scope left.  When the block returns, the next thing
    the run loop does is [uv_run]: it enters the event loop.  That is so
    when the first bootstrapper fails, too: the stack is cleared, the
    second bootstrapper is not run, the pop finds the stack empty, the
    block returns, and the event loop is entered. *)
Theorem bootstrap_runs_in_one_scope_then_loop (W : World) (fuel : nat)
    (m : Machine) :
  exists boot,
    history (machine_of (bootstrap_block W m))
      = history m
        ++ EvPushAsyncIds (mk_async_context 1 0) :: boot ++ [EvPopAsyncId 1] /\
    Forall (fun ev => is_bootstrap_event ev = true) boot /\
    (bootstrap_keeps_scopes W ->
     exists m1,
       bootstrap_block W m = Done tt m1 /\
       makecallback_depth (env m1) = makecallback_depth (env m) /\
       async_id_stack (env m1)
       = (if existsb is_clear boot then [] else async_id_stack (env m))) /\
    (forall m1,
        bootstrap_block W m = Done tt m1 ->
        exists rest,
          history (machine_of (RunLoop W (S fuel) m))
            = history m1 ++ EvUvRun :: rest) /\
    (fst (loaders_result W (env m)) = None ->
     boot = [EvCompileAndCall "internal/bootstrap/loaders";
             EvClearAsyncIdStack] /\
     exists m1, bootstrap_block W m = Done tt m1 /\
                async_id_stack (env m1) = []).
Proof.
  destruct (bootstrap_block_log W m) as (boot & Hb & HFb & _ & Hfail).
  exists (rev boot). split.
  { unfold history. rewrite Hb, rev_app_distr. simpl.
    rewrite <- !app_assoc. reflexivity. }
  split; [apply Forall_rev; exact HFb|].
  split.
  { intros Hkeep.
    destruct (bootstrap_block_keeps_scopes W m Hkeep)
      as (m1 & boot' & Hrun & Hlog & Hdepth & Hstack).
    exists m1. split; [exact Hrun|]. split; [exact Hdepth|].
    rewrite Hrun in Hb. simpl in Hb. rewrite Hlog in Hb.
    injection Hb as Hb. apply app_inv_tail in Hb. subst boot'.
    rewrite existsb_rev_eq. exact Hstack. }
  split.
  - intros m1 Hrun.
    assert (Hloop : exists tr,
               log (machine_of (RunLoop W (S fuel) m))
               = tr ++ EvUvRun :: log m1).
    { unfold RunLoop. rewrite (bind_Done _ _ _ _ _ Hrun).
      destruct (event_loop_S_log W fuel m1) as (tl & Hl & _).
      unfold bind.
      destruct (event_loop W (S fuel) m1) as [[] ml| |] eqn:E; simpl in Hl;
        try (exists tl; exact Hl).
      destruct (exit_sequence_log W ml) as (tr_cb & w & _ & _ & _ & _ & H5).
      destruct (exit_sequence W ml) as [code m'| |]; simpl.
      - destruct H5 as (e2 & H5 & _). eexists. rewrite H5, Hl.
        rewrite !app_assoc. reflexivity.
      - eexists. rewrite H5, Hl. rewrite !app_assoc. reflexivity.
      - eexists. rewrite H5, Hl. rewrite !app_assoc. reflexivity. }
    destruct Hloop as (tr & Htr). exists (rev tr).
    unfold history. rewrite Htr, rev_app_distr. simpl.
    rewrite <- app_assoc. reflexivity.
  - intros Hnone. destruct (Hfail Hnone) as [-> Hm1].
    split; [reflexivity | exact Hm1].
Qed.

Lemma bootstrap_runs_in_one_scope_then_loop_witness :
  bootstrap_keeps_scopes quiet_world /\
  async_id_stack (env start_machine) = [] /\
  exists m1,
    bootstrap_block quiet_world start_machine = Done tt m1 /\
    makecallback_depth (env m1) = makecallback_depth (env start_machine) /\
    async_id_stack (env m1) = [] /\
    count_events is_push (log m1) = 1%nat /\
    count_events is_pop (log m1) = 1%nat.
Proof.
  assert (Hkeep : bootstrap_keeps_scopes quiet_world)
    by (split; intros; intros e; split; reflexivity).
  split; [exact Hkeep|]. split; [reflexivity|].
  destruct (bootstrap_runs_in_one_scope_then_loop quiet_world 0 start_machine)
    as (boot & _ & _ & Hstate & _).
  destruct (Hstate Hkeep) as (m1 & Hrun & Hdepth & Hstack).
  exists m1. split; [exact Hrun|]. split; [exact Hdepth|].
  split; [destruct (existsb is_clear boot); exact Hstack|].
  vm_compute in Hrun. injection Hrun as <-.
  split; vm_compute; reflexivity.
Defined.

(** The claim C2 as stated has a failed bootstrap keep the run loop out
    of the event loop.  Here the first bootstrapper fails, and the run
    loop goes through one round of the event loop and the exit
    notification and returns the exit code 0. *)
Lemma failed_bootstrap_still_enters_event_loop :
  fst (loaders_result failing_bootstrap_world (env start_machine)) = None /\
  exists m',
    RunLoop failing_bootstrap_world 1 start_machine = Done 0 m' /\
    count_events is_uv_run (log m') = 1%nat /\
    count_events (is_emission "exit") (log m') = 1%nat.
Proof.
  split; [reflexivity|].
  eexists. split; [vm_compute; reflexivity|].
  split; vm_compute; reflexivity.
Qed.

(** ** [ThreadPoolWork] *)

Lemma pool_ext_nil (base : list PoolEvent) : base = [] ++ base.
Proof. reflexivity. Qed.

Lemma pool_ext_cons (ev : PoolEvent) l tr base :
  l = tr ++ base -> ev :: l = (ev :: tr) ++ base.
Proof. intros ->. reflexivity. Qed.

Ltac solve_log_p :=
  simpl; repeat first [apply pool_ext_nil | apply pool_ext_cons].

Lemma pool_step_inv I c0 e1 base s w :
  request_waiting e1 = c0 + 1 ->
  pool_inv I c0 e1 base w -> pool_inv I c0 e1 base (pool_step I s w).
Proof.
  intros Hc (tr & Hlog & Hst). unfold pool_inv, pool_log_in_state in *.
  assert (Hc0 : request_waiting e1 - 1 = c0) by lia.
  destruct w as [e st l]. simpl in *.
  destruct s, st; simpl; try (exists tr; split; assumption);
    try contradiction.
  - destruct Hst as [-> ->]. eexists. split; [rewrite Hlog; solve_log_p|].
    simpl. auto.
  - destruct Hst as [-> ->]. eexists. split; [rewrite Hlog; solve_log_p|].
    simpl. auto.
  - destruct Hst as [-> ->]. eexists. split; [rewrite Hlog; solve_log_p|].
    simpl. left. rewrite Hc0. split; reflexivity.
  - destruct Hst as [-> ->]. eexists. split; [rewrite Hlog; solve_log_p|].
    simpl. right. rewrite Hc0. split; reflexivity.
Qed.

Lemma pool_run_inv I c0 e1 base sched :
  request_waiting e1 = c0 + 1 ->
  forall w, pool_inv I c0 e1 base w ->
            pool_inv I c0 e1 base (pool_run I sched w).
Proof.
  intros Hc.
  induction sched as [|s rest IH]; intros w Hw; simpl; [exact Hw|].
  apply IH. apply pool_step_inv; assumption.
Qed.

Lemma ScheduleWork_inv I w :
  exists w1,
    ScheduleWork w = Some w1 /\
    env_ w1 = set_request_waiting (request_waiting (env_ w) + 1) (env_ w) /\
    request_waiting (env_ w1) = request_waiting (env_ w) + 1 /\
    work_log w1
    = [EvQueueWork; EvIncreaseWaitingRequestCounter] ++ work_log w /\
    pool_inv I (request_waiting (env_ w)) (env_ w1) (work_log w) w1.
Proof.
  eexists. split; [reflexivity|]. split; [reflexivity|].
  split; [reflexivity|]. split; [reflexivity|].
  exists [EvQueueWork; EvIncreaseWaitingRequestCounter].
  split; [reflexivity|]. split; reflexivity.
Qed.

Lemma pool_drains I c0 e1 base w :
  pool_inv I c0 e1 base w ->
  work_req_ (pool_run I [worker_picks_up; worker_finishes; loop_delivers] w)
  = work_delivered.
Proof.
  intros (tr & _ & Hst). unfold pool_log_in_state in Hst.
  destruct w as [e st l]. simpl in *.
  destruct st; try contradiction; reflexivity.
Qed.

(** C5.  [ScheduleWork] on a unit that was not submitted increments the
    counter of outstanding work of the environment and then submits the
    request.  Whatever the thread pool, the event loop and the owner's
    cancellations do next, in any order: until the completion is
    delivered the environment stays as [ScheduleWork] left it, the
    counter one above its value before; [AfterThreadPoolWork] is entered
    at most once, and exactly once when the request has been delivered,
    which the worker and the loop always bring about; it is entered
    right after the counter was decremented, with the counter back at
    its value before [ScheduleWork], and the environment of the unit is
    then what [AfterThreadPoolWork(status)] made of the environment with
    the counter decremented; its status is 0 and [DoThreadPoolWork] has
    returned before, or its status is the negative cancellation code and
    [DoThreadPoolWork] was never entered. *)
Theorem ThreadPoolWork_completes_once (I : WorkImpl) (w : ThreadPoolWork)
    (sched : list PoolStep) :
  work_req_ w = work_unsubmitted ->
  exists w1,
    ScheduleWork w = Some w1 /\
    env_ w1 = set_request_waiting (request_waiting (env_ w) + 1) (env_ w) /\
    request_waiting (env_ w1) = request_waiting (env_ w) + 1 /\
    work_log w1
    = [EvQueueWork; EvIncreaseWaitingRequestCounter] ++ work_log w /\
    let w2 := pool_run I sched w1 in
    exists tr,
      work_log w2 = tr ++ work_log w /\
      (exists later, rev tr = EvIncreaseWaitingRequestCounter
                              :: EvQueueWork :: later) /\
      (count_occ_after tr <= 1)%nat /\
      (work_req_ w2 = work_delivered <-> count_occ_after tr = 1%nat) /\
      (count_occ_after tr = 0%nat -> env_ w2 = env_ w1) /\
      (forall status c,
          In (EvAfterThreadPoolWork status c) tr ->
          c = request_waiting (env_ w) /\
          env_ w2
          = AfterThreadPoolWork I status
              (set_request_waiting (request_waiting (env_ w1) - 1)
                 (env_ w1)) /\
          (exists before,
              rev tr = before ++ [EvDecreaseWaitingRequestCounter;
                                  EvAfterThreadPoolWork status c] /\
              ((status = 0 /\ In EvDoThreadPoolWorkReturn before) \/
               (status = UV_ECANCELED /\ status < 0 /\
                ~ In EvDoThreadPoolWorkEnter tr)))) /\
      work_req_ (pool_run I [worker_picks_up; worker_finishes; loop_delivers]
                   w2) = work_delivered.
Proof.
  intros _.
  destruct (ScheduleWork_inv I w) as (w1 & Hs & He & Hc & Hl & Hinv).
  exists w1. split; [exact Hs|]. split; [exact He|]. split; [exact Hc|].
  split; [exact Hl|].
  intros w2.
  pose proof (pool_run_inv I _ _ _ sched Hc w1 Hinv) as Hinv2.
  fold w2 in Hinv2.
  pose proof (pool_drains I _ _ _ w2 Hinv2) as Hdrain.
  assert (Hc0 : request_waiting (env_ w1) - 1 = request_waiting (env_ w))
    by lia.
  rewrite Hc0.
  destruct Hinv2 as (tr & Hlog & Hst). exists tr. split; [exact Hlog|].
  unfold pool_log_in_state in Hst. unfold count_occ_after.
  destruct (work_req_ w2); try contradiction;
    try (destruct Hst as [-> Henv]);
    try (destruct Hst as [[-> Henv] | [-> Henv]]);
    (split; [eexists; reflexivity|]);
    (split; [simpl; lia|]);
    (split; [split; [try discriminate; reflexivity
                    | try reflexivity; simpl; discriminate]|]);
    (split; [try (intros _; exact Henv); simpl; discriminate|]);
    (split; [|exact Hdrain]);
    intros status c Hin; simpl in Hin;
    repeat (destruct Hin as [Hin | Hin]; [try discriminate|]);
    try contradiction.
  - injection Hin as <- <-. split; [reflexivity|]. split; [exact Henv|].
    exists [EvIncreaseWaitingRequestCounter; EvQueueWork;
            EvDoThreadPoolWorkEnter; EvDoThreadPoolWorkReturn].
    split; [reflexivity|]. left. split; [reflexivity|]. simpl. tauto.
  - injection Hin as <- <-. split; [reflexivity|]. split; [exact Henv|].
    exists [EvIncreaseWaitingRequestCounter; EvQueueWork].
    split; [reflexivity|]. right. split; [reflexivity|].
    split; [reflexivity|]. simpl. intros [H|[H|[H|[H|[]]]]]; discriminate.
Qed.

Lemma ThreadPoolWork_completes_once_witness :
  work_req_ fresh_work = work_unsubmitted /\
  request_waiting (env_ fresh_work) = 0 /\
  exists w1,
    ScheduleWork fresh_work = Some w1 /\
    request_waiting (env_ w1) = 1 /\
    let w2 := pool_run recording_impl
                [owner_cancels; worker_picks_up; loop_delivers] w1 in
    work_req_ w2 = work_delivered /\
    request_waiting (env_ w2) = 0 /\
    Get (env_ w2) 1 "status" = Integer UV_ECANCELED.
Proof.
  split; [reflexivity|]. split; [reflexivity|].
  destruct (ThreadPoolWork_completes_once recording_impl fresh_work
              [owner_cancels; worker_picks_up; loop_delivers] eq_refl)
    as (w1 & Hs & _ & Hc & _ & tr & Hlog & _ & _ & Hdel & _ & Hafter & _).
  exists w1. split; [exact Hs|]. split; [exact Hc|].
  injection Hs as <-. cbv zeta.
  assert (Hin : In (EvAfterThreadPoolWork UV_ECANCELED 0) tr).
  { change (work_log fresh_work) with (@nil PoolEvent) in Hlog.
    rewrite app_nil_r in Hlog. vm_compute in Hlog. subst tr.
    left. reflexivity. }
  destruct (Hafter _ _ Hin) as (_ & Henv & _).
  split; [vm_compute; reflexivity|].
  rewrite Henv. split; vm_compute; reflexivity.
Defined.

(** ** Callback scopes once managed callbacks are forbidden *)

Lemma op_off_nil : op_off (fun s => ret s).
Proof. intros s m _ Hf Hp. exists s. auto. Qed.

Lemma op_off_seq run1 run2 :
  op_off run1 -> op_off run2 -> op_off (fun s => s1 <- run1 s;; run2 s1).
Proof.
  intros H1 H2 s m Hcan Hf Hp.
  destruct (H1 s m Hcan Hf Hp) as (s1 & Hrun1 & Hf1 & Hp1).
  destruct (H2 s1 m Hcan Hf1 Hp1) as (s2 & Hrun2 & Hf2 & Hp2).
  exists s2. rewrite (bind_Done _ _ _ _ _ Hrun1). auto.
Qed.

Lemma op_off_MarkAsFailed : op_off (fun s => ret (MarkAsFailed s)).
Proof. intros s m _ Hf Hp. exists (MarkAsFailed s). auto. Qed.

Lemma op_off_Close W : op_off (Close W).
Proof.
  intros [c o f p cl] m _ Hf Hp. simpl in *. subst f p.
  unfold Close. destruct cl; simpl; eexists; split; reflexivity || auto.
Qed.

(** A block entered once managed callbacks are forbidden leaves the
    machine as it found it. *)
Lemma scope_block_off W run ctx object m :
  op_off run ->
  can_call_into_js (env m) = false ->
  (inner <- InternalCallbackScope_new (Some object) ctx kRequireResource;;
   inner' <- run inner;;
   InternalCallbackScope_delete W inner') m = Done tt m.
Proof.
  intros Hrun Hcan.
  set (m1 := mk_machine
               (set_makecallback_depth (S (makecallback_depth (env m)))
                  (env m)) (log m)).
  assert (Hnew : InternalCallbackScope_new (Some object) ctx kRequireResource m
                 = Done (mk_scope ctx (Some object) true false false) m1).
  { unfold InternalCallbackScope_new, AsyncCallbackScope_enter. run_step.
    rewrite Hcan. reflexivity. }
  rewrite (bind_Done _ _ _ _ _ Hnew).
  destruct (Hrun (mk_scope ctx (Some object) true false false) m1)
    as (s2 & Hrun2 & Hf2 & Hp2); [exact Hcan | reflexivity | reflexivity |].
  rewrite (bind_Done _ _ _ _ _ Hrun2).
  destruct (op_off_Close W s2 m1 Hcan Hf2 Hp2) as (s3 & HC & _).
  unfold InternalCallbackScope_delete. rewrite (bind_Done _ _ _ _ _ HC).
  unfold m1. destruct m as [[] l]. reflexivity.
Qed.

Lemma run_op_off W op : op_off (run_op W op).
Proof.
  induction op as [| |ctx object body IH] using ScopeOp_nested_ind.
  - apply op_off_MarkAsFailed.
  - apply op_off_Close.
  - assert (Hbody : op_off (run_ops W body)).
    { induction body as [|o rest IHrest].
      - apply op_off_nil.
      - inversion IH; subst. simpl.
        apply op_off_seq; [assumption | apply IHrest; assumption]. }
    intros s m Hcan Hf Hp. exists s. rewrite run_op_nested.
    pose proof (scope_block_off W _ ctx object m Hbody Hcan) as Hrun.
    split; [|auto].
    unfold bind in *.
    destruct (InternalCallbackScope_new _ _ _ m); try discriminate.
    destruct (run_ops W body a m0); try discriminate.
    now rewrite Hrun.
Qed.

Lemma run_ops_off W ops : op_off (run_ops W ops).
Proof.
  induction ops as [|o rest IH]; simpl.
  - apply op_off_nil.
  - apply op_off_seq; [apply run_op_off | exact IH].
Qed.

(** ** [InternalMakeCallback] keeps the stack *)

Lemma InternalCallbackScope_delete_keeps_stack W s base m :
  (forall e, async_id_stack (snd (flush_tick W e)) = async_id_stack e) ->
  scope_holds s base (async_id_stack (env m)) ->
  exists m',
    InternalCallbackScope_delete W s m = Done tt m' /\
    async_id_stack (env m') = base.
Proof.
  intros Hflush Hh. unfold InternalCallbackScope_delete.
  destruct (closed_ s) eqn:Hc.
  - rewrite (bind_Done _ _ _ _ _ (Close_closed_spec W s m Hc)).
    unfold scope_holds in Hh. rewrite Hc, andb_false_r in Hh.
    eexists. split; [reflexivity | exact Hh].
  - destruct (Close_open_spec W Hflush s base m Hc Hh)
      as (s' & m' & HC & _ & _ & _ & Hst & _).
    rewrite (bind_Done _ _ _ _ _ HC).
    eexists. split; [reflexivity | exact Hst].
Qed.

Lemma InternalMakeCallback_keeps_stack W r cb argv ctx m :
  (forall e, async_id_stack (snd (flush_tick W e)) = async_id_stack e) ->
  (forall f recv a e,
      async_id_stack (snd (call_function W f recv a e)) = async_id_stack e) ->
  exists o m',
    InternalMakeCallback W (Some r) cb argv ctx m = Done o m' /\
    async_id_stack (env m') = async_id_stack (env m).
Proof.
  intros Hflush Hcall.
  destruct (InternalCallbackScope_new_spec r ctx m)
    as (s1 & m1 & Hnew & -> & Hst1 & _).
  unfold InternalMakeCallback. rewrite (bind_Done _ _ _ _ _ Hnew).
  cbn [Failed failed_].
  destruct (can_call_into_js (env m)) eqn:Hcan; cbn [negb].
  2:{ destruct (InternalCallbackScope_delete_keeps_stack W _ _ m1 Hflush Hst1)
        as (m4 & Hdel & Hst4).
      rewrite (bind_Done _ _ _ _ _ Hdel).
      do 2 eexists. split; [reflexivity | exact Hst4]. }
  unfold scope_holds in Hst1. cbn [pushed_ids_ closed_ async_context_ andb negb]
    in Hst1.
  assert (Hafter : forall f a,
            exists o m',
              (ret_ <- Call W f r a;;
               match ret_ with
               | Some v =>
                   scope' <- Close W (mk_scope ctx (Some r) false true false);;
                   (if Failed scope'
                    then InternalCallbackScope_delete W scope';;; ret None
                    else InternalCallbackScope_delete W scope';;;
                         ret (Some v))
               | None =>
                   InternalCallbackScope_delete W
                     (MarkAsFailed (mk_scope ctx (Some r) false true false));;;
                   ret None
               end) m1 = Done o m' /\
              async_id_stack (env m') = async_id_stack (env m)).
  { intros f a.
    set (m2 := mk_machine (snd (call_function W f r a (env m1)))
                 (EvCall f r a (env m1) :: log m1)).
    assert (HC : Call W f r a m1
                 = Done (fst (call_function W f r a (env m1))) m2)
      by reflexivity.
    rewrite (bind_Done _ _ _ _ _ HC).
    assert (Hst2 : async_id_stack (env m2) = ctx :: async_id_stack (env m)).
    { unfold m2. cbn [env]. now rewrite Hcall. }
    destruct (fst (call_function W f r a (env m1))) as [v|].
    - destruct (Close_open_spec W Hflush
                  (mk_scope ctx (Some r) false true false)
                  (async_id_stack (env m)) m2 eq_refl)
        as (s' & m3 & HCl & Hcl & Hp & _ & Hst3 & _).
      { exact Hst2. }
      rewrite (bind_Done _ _ _ _ _ HCl).
      destruct (InternalCallbackScope_delete_keeps_stack W s'
                  (async_id_stack (env m)) m3 Hflush)
        as (m4 & Hdel & Hst4).
      { unfold scope_holds. now rewrite Hcl, andb_false_r. }
      destruct (Failed s'); rewrite (bind_Done _ _ _ _ _ Hdel);
        (do 2 eexists; split; [reflexivity | exact Hst4]).
    - destruct (InternalCallbackScope_delete_keeps_stack W
                  (MarkAsFailed (mk_scope ctx (Some r) false true false))
                  (async_id_stack (env m)) m2 Hflush)
        as (m4 & Hdel & Hst4).
      { exact Hst2. }
      rewrite (bind_Done _ _ _ _ _ Hdel).
      do 2 eexists. split; [reflexivity | exact Hst4]. }
  unfold bind at 1. unfold read at 1.
  destruct (domain_callback (env m1)) as [d|];
    [destruct (negb (async_id ctx =? 0))|]; apply Hafter.
Qed.

(** C1.  Every block of nested callback scopes, whatever mix of
    [MarkAsFailed], [Close] by hand and destruction it makes, runs to its
    end without reaching the fatal path and leaves the async-id stack
    with the depth and content it had before the block; the block makes
    as many pops as pushes, at most one of each per scope, and the
    pushes and pops of its history are in last-in first-out order.  It
    makes exactly one push and one pop per scope while managed code may
    be called (the flush leaving that permission alone); entered once
    managed callbacks are forbidden, its scopes fail at construction,
    push nothing and pop nothing, and the block leaves the machine as it
    found it.  [InternalMakeCallback], which holds one scope around one
    call, returns with the stack as it found it whenever the callee
    does, also when the callee returns an empty handle and the scope is
    marked as failed. *)
Theorem callback_scopes_keep_stack_balanced (W : World)
    (flush_keeps_stack :
       forall e, async_id_stack (snd (flush_tick W e)) = async_id_stack e)
    (ctx : async_context) (object : nat) (body : list ScopeOp) (m : Machine) :
  (exists m' tr,
      run_scope W ctx object body m = Done tt m' /\
      async_id_stack (env m') = async_id_stack (env m) /\
      history m' = history m ++ tr /\
      balanced (stack_events tr) /\
      count_events is_pop tr = count_events is_push tr /\
      (count_events is_push tr <= S (scopes_in body))%nat /\
      (flush_keeps_flag W -> can_call_into_js (env m) = true ->
       count_events is_push tr = S (scopes_in body) /\
       count_events is_pop tr = S (scopes_in body)) /\
      (can_call_into_js (env m) = false -> m' = m /\ tr = [])) /\
  ((forall f recv a e,
       async_id_stack (snd (call_function W f recv a e)) = async_id_stack e) ->
   forall callback argv,
   exists o m',
     InternalMakeCallback W (Some object) callback argv ctx m = Done o m' /\
     async_id_stack (env m') = async_id_stack (env m)).
Proof.
  split;
    [|intros Hcall callback argv;
      now apply InternalMakeCallback_keeps_stack].
  destruct (scope_block_spec W flush_keeps_stack _ _ ctx object m
              (run_ops_spec W flush_keeps_stack body))
    as (m' & tr & Hrun & Hst & Hlog & Hbal & Hpop & Hle & Hex).
  exists m', (rev tr). split; [exact Hrun|]. split; [exact Hst|].
  unfold history. rewrite Hlog, rev_app_distr.
  split; [reflexivity|]. split; [exact Hbal|].
  rewrite !count_events_rev. split; [exact Hpop|]. split; [exact Hle|].
  split.
  - intros Hf Hcan. destruct (Hex Hf Hcan) as [Hpush _].
    split; [exact Hpush | now rewrite Hpop].
  - intros Hcan.
    pose proof (scope_block_off W _ ctx object m (run_ops_off W body) Hcan)
      as Hoff.
    unfold run_scope in Hrun. rewrite Hoff in Hrun. injection Hrun as <-.
    split; [reflexivity|].
    apply (f_equal (@length Event)) in Hlog. rewrite length_app in Hlog.
    destruct tr; [reflexivity | simpl in Hlog; lia].
Qed.

Lemma callback_scopes_keep_stack_balanced_witness :
  (forall e, async_id_stack (snd (flush_tick quiet_world e))
             = async_id_stack e) /\
  flush_keeps_flag quiet_world /\
  can_call_into_js (env start_machine) = true /\
  exists m',
    run_scope quiet_world (mk_async_context 1 0) 1 example_body start_machine
      = Done tt m' /\
    async_id_stack (env m') = async_id_stack (env start_machine) /\
    count_events is_pop (log m') = 3%nat.
Proof.
  split; [intros e; reflexivity|].
  split; [intros e; reflexivity|]. split; [reflexivity|].
  destruct (proj1 (callback_scopes_keep_stack_balanced quiet_world
                     (fun e => eq_refl) (mk_async_context 1 0) 1
                     example_body start_machine))
    as (m' & tr & Hrun & Hst & Hh & _ & _ & _ & Hex & _).
  exists m'. split; [exact Hrun|]. split; [exact Hst|].
  unfold history in Hh. simpl in Hh.
  rewrite <- (rev_involutive (log m')), Hh, count_events_rev.
  apply Hex; [intros e; reflexivity | reflexivity].
Defined.

(** ** Convergence of the event loop *)

Lemma callback_event_counts ctx r argv e tr :
  Forall (callback_event ctx r argv e) tr ->
  count_events is_uv_run tr = 0%nat /\
  count_events is_before_exit_pass tr = 0%nat.
Proof.
  intros H. split; apply count_events_none;
    (eapply Forall_impl; [exact H|]);
    intros [] Hev; simpl in *; try reflexivity; contradiction.
Qed.

Lemma RunBeforeExit_log_counts W m :
  exists tr,
    log (machine_of (RunBeforeExit W m)) = tr ++ log m /\
    count_events is_uv_run tr = 0%nat /\
    count_events is_before_exit_pass tr = 1%nat.
Proof.
  set (alive := (0 <? loop_work (RunBeforeExitCallbacks W (env m)))%nat).
  set (m3 := mk_machine (RunBeforeExitCallbacks W (env m))
               (EvLoopAlive alive :: EvRunBeforeExitCallbacks :: log m)).
  change (RunBeforeExit W m)
    with ((if alive then ret tt else EmitBeforeExit W) m3).
  destruct alive.
  - exists [EvLoopAlive true; EvRunBeforeExitCallbacks].
    split; [reflexivity|]. split; reflexivity.
  - rewrite EmitBeforeExit_unfold.
    destruct (before_exit_code_of W (env m3) (process_object (env m3)))
      as [code|].
    2:{ exists [EvLoopAlive false; EvRunBeforeExitCallbacks].
        split; [reflexivity|]. split; reflexivity. }
    match goal with
    | |- context [MakeCallback_method W ?p ?n ?a ?c ?m0] =>
        destruct (MakeCallback_method_log W p n a c m0)
          as (tr & Hlog & HF & _);
        destruct (callback_event_counts _ _ _ _ _ HF) as [Hu Hp]
    end.
    exists (tr ++ [EvLoopAlive false; EvRunBeforeExitCallbacks]).
    split.
    { destruct (MakeCallback_method _ _ _ _ _ _) as [[v|] m2| |];
        simpl in *; rewrite Hlog; now rewrite <- app_assoc. }
    rewrite !count_events_app, Hu, Hp. split; reflexivity.
Qed.

Section LoopConvergence.

Variable W : World.

(** Whether the before-exit hooks still hold the one unit of referenced
    work that they schedule. *)
Variable rearm : Environment -> bool.

Hypothesis uv_run_keeps_rearm :
  forall e, rearm (DrainTasks W (uv_run W e)) = rearm e.

(** What the environment has to keep for the hooks to run: for one,
    that [process.emit] is a function. *)
Variable inv : Environment -> Prop.

Hypothesis uv_run_keeps_inv :
  forall e, inv e -> inv (DrainTasks W (uv_run W e)).

(** A before-exit pass on an idle loop returns; it schedules one unit of
    referenced work if the hooks still hold it, and none otherwise. *)
Hypothesis before_exit_pass :
  forall m,
    inv (env m) ->
    loop_work (env m) = 0%nat ->
    exists m',
      RunBeforeExit W m = Done tt m' /\
      loop_work (env m') = (if rearm (env m) then 1 else 0)%nat /\
      rearm (env m') = false /\
      inv (env m').

Lemma event_loop_unfold fuel m :
  event_loop W (S fuel) m
  = (if (0 <? loop_work (DrainTasks W (uv_run W (env m))))%nat
     then event_loop W fuel
     else
       RunBeforeExit W;;;
       more' <- uv_loop_alive;;
       if more' : bool then event_loop W fuel else ret tt)
      (mk_machine (DrainTasks W (uv_run W (env m)))
         (EvLoopAlive (0 <? loop_work (DrainTasks W (uv_run W (env m))))%nat
          :: EvDrainVMTasks :: EvUvRun :: log m)).
Proof.
  cbn [event_loop]. unfold DrainVMTasks, uv_loop_alive.
  unfold bind, emit_event, modify, read, ret. cbn [env log].
  destruct (0 <? loop_work (DrainTasks W (uv_run W (env m))))%nat;
    reflexivity.
Qed.

(** With or without fuel left, the loop has made no more before-exit
    passes than are due, and it is over exactly when it has made them. *)
Lemma event_loop_passes fuel :
  forall m,
    inv (env m) ->
    exists tr,
      log (machine_of (event_loop W fuel m)) = tr ++ log m /\
      match event_loop W fuel m with
      | Done _ _ =>
          count_events is_before_exit_pass tr
          = if rearm (env m) then 2%nat else 1%nat
      | OutOfFuel _ =>
          (count_events is_before_exit_pass tr
           < if rearm (env m) then 2 else 1)%nat
      | Fatal _ => False
      end.
Proof.
  induction fuel as [|fuel IH]; intros m Hinv.
  - exists []. split; [reflexivity|]. simpl.
    unfold count_events. simpl. destruct (rearm (env m)); lia.
  - rewrite event_loop_unfold.
    set (e1 := DrainTasks W (uv_run W (env m))).
    assert (Hinv1 : inv e1) by (apply uv_run_keeps_inv; exact Hinv).
    assert (Hr1 : rearm e1 = rearm (env m)) by apply uv_run_keeps_rearm.
    destruct (0 <? loop_work e1)%nat eqn:Halive.
    + set (m1 := mk_machine e1 _).
      destruct (IH m1 Hinv1) as (tr & Hlog & Hres).
      exists (tr ++ [EvLoopAlive true; EvDrainVMTasks; EvUvRun]).
      split; [rewrite Hlog, <- app_assoc; reflexivity|].
      rewrite count_events_app.
      change (count_events is_before_exit_pass
                [EvLoopAlive true; EvDrainVMTasks; EvUvRun]) with 0%nat.
      rewrite Nat.add_0_r. change (env m1) with e1 in Hres.
      rewrite Hr1 in Hres. exact Hres.
    + set (m1 := mk_machine e1 _).
      destruct (before_exit_pass m1 Hinv1)
        as (m2 & Hrun & Hwork & Hrearm & Hinv2).
      { apply Nat.ltb_ge in Halive. simpl. lia. }
      destruct (RunBeforeExit_log_counts W m1) as (tr2 & Hlog2 & _ & Hp2).
      rewrite Hrun in Hlog2. simpl in Hlog2.
      rewrite (bind_Done _ _ _ _ _ Hrun).
      rewrite (bind_Done _ _ _ _ _ (uv_loop_alive_spec m2)).
      change (env m1) with e1 in Hwork. rewrite Hr1 in Hwork.
      rewrite Hwork.
      destruct (rearm (env m)) eqn:Hr.
      * change (0 <? 1)%nat with true. cbv iota.
        set (m3 := mk_machine (env m2) _).
        destruct (IH m3 Hinv2) as (tr & Hlog & Hres).
        exists (tr ++ [EvLoopAlive true] ++ tr2
                ++ [EvLoopAlive false; EvDrainVMTasks; EvUvRun]).
        split.
        { rewrite Hlog. unfold m3. cbn [log]. rewrite Hlog2, <- !app_assoc.
          reflexivity. }
        rewrite !count_events_app, Hp2.
        change (count_events is_before_exit_pass [EvLoopAlive true])
          with 0%nat.
        change (count_events is_before_exit_pass
                  [EvLoopAlive false; EvDrainVMTasks; EvUvRun]) with 0%nat.
        change (env m3) with (env m2) in Hres. rewrite Hrearm in Hres.
        destruct (event_loop W fuel m3); [lia | exact Hres | lia].
      * change (0 <? 0)%nat with false. cbv iota.
        exists ([EvLoopAlive false] ++ tr2
                ++ [EvLoopAlive false; EvDrainVMTasks; EvUvRun]).
        split.
        { cbn [machine_of ret log]. rewrite Hlog2, <- !app_assoc.
          reflexivity. }
        rewrite !count_events_app, Hp2. reflexivity.
Qed.

(** [uv_run] returns when no referenced work is left, and the platform
    tasks drained after it add none. *)
Hypothesis uv_run_quiesces :
  forall e, loop_work (DrainTasks W (uv_run W e)) = 0%nat.

Lemma event_loop_round fuel m :
  inv (env m) ->
  exists m2 tr2,
    inv (env m2) /\
    loop_work (env m2) = (if rearm (env m) then 1 else 0)%nat /\
    rearm (env m2) = false /\
    log m2 = tr2 ++ [EvLoopAlive false; EvDrainVMTasks; EvUvRun] ++ log m /\
    count_events is_uv_run tr2 = 0%nat /\
    count_events is_before_exit_pass tr2 = 1%nat /\
    event_loop W (S fuel) m
    = (if (0 <? loop_work (env m2))%nat
       then event_loop W fuel
       else ret tt)
        (mk_machine (env m2)
           (EvLoopAlive (0 <? loop_work (env m2))%nat :: log m2)).
Proof.
  set (m1 := mk_machine (DrainTasks W (uv_run W (env m)))
               (EvLoopAlive false :: EvDrainVMTasks :: EvUvRun :: log m)).
  intros Hinv.
  destruct (before_exit_pass m1) as (m2 & Hrun & Hwork & Hrearm & Hinv2).
  { apply uv_run_keeps_inv. exact Hinv. }
  { apply uv_run_quiesces. }
  destruct (RunBeforeExit_log_counts W m1) as (tr2 & Hlog & Hu & Hp).
  rewrite Hrun in Hlog. simpl in Hlog, Hwork.
  rewrite uv_run_keeps_rearm in Hwork.
  exists m2, tr2. split; [exact Hinv2|].
  split; [exact Hwork|]. split; [exact Hrearm|].
  split; [exact Hlog|]. split; [exact Hu|]. split; [exact Hp|].
  cbn [event_loop]. unfold DrainVMTasks, uv_loop_alive.
  unfold bind, emit_event, modify, read, ret. cbn [env log].
  rewrite uv_run_quiesces. cbn [Nat.ltb Nat.leb].
  fold m1. rewrite Hrun. reflexivity.
Qed.

Lemma event_loop_last_round fuel m :
  inv (env m) ->
  rearm (env m) = false ->
  exists m' tr,
    event_loop W (S fuel) m = Done tt m' /\
    log m' = tr ++ log m /\
    count_events is_uv_run tr = 1%nat /\
    count_events is_before_exit_pass tr = 1%nat.
Proof.
  intros Hinv Hr.
  destruct (event_loop_round fuel m Hinv)
    as (m2 & tr2 & _ & Hwork & _ & Hlog & Hu & Hp & Hrun).
  rewrite Hr in Hwork. rewrite Hwork in Hrun. simpl in Hrun.
  eexists. exists (EvLoopAlive false :: tr2
                   ++ [EvLoopAlive false; EvDrainVMTasks; EvUvRun]).
  split; [exact Hrun|]. simpl.
  split; [rewrite Hlog, <- app_assoc; reflexivity|].
  change (EvLoopAlive false
          :: tr2 ++ [EvLoopAlive false; EvDrainVMTasks; EvUvRun])
    with ([EvLoopAlive false]
          ++ tr2 ++ [EvLoopAlive false; EvDrainVMTasks; EvUvRun]).
  rewrite !count_events_app, Hu, Hp. split; reflexivity.
Qed.

End LoopConvergence.

(** C4.  The before-exit hooks either schedule no referenced work, or
    schedule one unit of it, once; [rearm] tells whether they still hold
    that unit, and it is false throughout for hooks that never schedule
    work.  Then in every run of the loop of [Start], finished or not,
    the loop is over as soon as it has made one before-exit pass, or two
    when the hooks held a unit, and it makes no more passes than that.
    And when [uv_run] returns only with no referenced work left, as
    libuv has it when nothing stops the loop, the loop ends after
    exactly one round, or exactly one more round when the hooks held a
    unit.  [inv] is whatever the hooks need the environment to keep in
    order to return, such as [process.emit] being a function. *)
Theorem event_loop_terminates_after_before_exit (W : World)
    (rearm : Environment -> bool)
    (uv_run_keeps_rearm :
       forall e, rearm (DrainTasks W (uv_run W e)) = rearm e)
    (inv : Environment -> Prop)
    (uv_run_keeps_inv :
       forall e, inv e -> inv (DrainTasks W (uv_run W e)))
    (before_exit_pass :
       forall m,
         inv (env m) ->
         loop_work (env m) = 0%nat ->
         exists m',
           RunBeforeExit W m = Done tt m' /\
           loop_work (env m') = (if rearm (env m) then 1 else 0)%nat /\
           rearm (env m') = false /\
           inv (env m'))
    (fuel : nat) (m : Machine) :
  let due := if rearm (env m) then 2%nat else 1%nat in
  inv (env m) ->
  (exists tr,
      log (machine_of (event_loop W fuel m)) = tr ++ log m /\
      match event_loop W fuel m with
      | Done _ _ => count_events is_before_exit_pass tr = due
      | OutOfFuel _ => (count_events is_before_exit_pass tr < due)%nat
      | Fatal _ => False
      end) /\
  ((forall e, loop_work (DrainTasks W (uv_run W e)) = 0%nat) ->
   (due <= fuel)%nat ->
   exists m' tr,
     event_loop W fuel m = Done tt m' /\
     log m' = tr ++ log m /\
     count_events is_uv_run tr = due /\
     count_events is_before_exit_pass tr = due).
Proof.
  intros due Hinv. split.
  { apply (event_loop_passes W rearm uv_run_keeps_rearm inv uv_run_keeps_inv
             before_exit_pass fuel m Hinv). }
  intros uv_run_quiesces Hfuel. unfold due in *.
  destruct (rearm (env m)) eqn:Hr.
  - destruct fuel as [|[|fuel]]; try lia.
    destruct (event_loop_round W rearm uv_run_keeps_rearm inv
                uv_run_keeps_inv before_exit_pass uv_run_quiesces
                (S fuel) m Hinv)
      as (m2 & tr2 & Hinv2 & Hwork & Hrearm & Hlog & Hu & Hp & Hrun).
    rewrite Hr in Hwork. rewrite Hwork in Hrun. simpl Nat.ltb in Hrun.
    cbv iota in Hrun.
    destruct (event_loop_last_round W rearm uv_run_keeps_rearm inv
                uv_run_keeps_inv before_exit_pass uv_run_quiesces fuel
                (mk_machine (env m2) (EvLoopAlive true :: log m2))
                Hinv2 Hrearm)
      as (m' & tr & Hrun' & Hlog' & Hu' & Hp').
    exists m', (tr ++ [EvLoopAlive true] ++ tr2
                ++ [EvLoopAlive false; EvDrainVMTasks; EvUvRun]).
    split; [rewrite Hrun; exact Hrun'|].
    split.
    { rewrite Hlog'. simpl. rewrite Hlog, <- !app_assoc. simpl.
      rewrite <- !app_assoc. reflexivity. }
    rewrite !count_events_app, Hu, Hp, Hu', Hp'. split; reflexivity.
  - destruct fuel as [|fuel]; try lia.
    apply (event_loop_last_round W rearm uv_run_keeps_rearm inv
             uv_run_keeps_inv before_exit_pass uv_run_quiesces fuel m
             Hinv Hr).
Qed.

Ltac run_mono :=
  unfold bind, ret, emit_event, read, modify, ask, fatal;
  cbv beta iota; cbn [env log fst snd].

Ltac scope_step :=
  cbv beta iota;
  cbn [env log fst snd async_id trigger_async_id Failed failed_ closed_
       pushed_ids_ async_context_ MarkAsFailed].

Lemma MakeCallback_method_returns W r name argv i t m f v e1 rest b e2 :
  Get (env m) r name = Function f ->
  domain_callback (env m) = None ->
  can_call_into_js (env m) = true ->
  call_function W f r argv (scope_entered (mk_async_context i t) (env m))
    = (Some v, e1) ->
  async_id_stack e1 = mk_async_context i t :: rest ->
  flush_tick W (set_async_id_stack rest e1) = (b, e2) ->
  exists m',
    MakeCallback_method W r name argv (mk_async_context i t) m
      = Done (if b then
                match Nat.pred (makecallback_depth e2) with
                | O => Some Undefined
                | _ => None
                end
              else Some v) m' /\
    env m' = set_makecallback_depth (Nat.pred (makecallback_depth e2)) e2.
Proof.
  intros Hget Hdom Hcan Hcall Hstack Hflush.
  unfold MakeCallback_method, MakeCallback_symbol. run_mono.
  rewrite MaybeGet_data by (rewrite Hget; discriminate).
  cbn [ToLocalChecked]. run_mono. rewrite Hget. cbn [as_function].
  unfold MakeCallback_function, InternalMakeCallback,
    InternalCallbackScope_new, Call, InternalCallbackScope_delete, Close,
    push_async_ids, pop_async_id, AsyncCallbackScope_enter,
    AsyncCallbackScope_leave, flush.
  run_mono. scope_step.
  change (can_call_into_js (set_makecallback_depth _ (env m)))
    with (can_call_into_js (env m)).
  rewrite Hcan. scope_step. run_mono. scope_step.
  change (domain_callback (set_async_id_stack _ _))
    with (domain_callback (env m)).
  rewrite Hdom. scope_step.
  change (set_async_id_stack _ (set_makecallback_depth _ (env m)))
    with (scope_entered (mk_async_context i t) (env m)).
  rewrite Hcall. scope_step.
  rewrite Hstack. scope_step. rewrite Z.eqb_refl. scope_step.
  rewrite Hflush. scope_step.
  destruct b; cbn [Failed failed_ MarkAsFailed closed_ env log];
    cbv beta iota; cbn [env log makecallback_depth set_makecallback_depth].
  - destruct (Nat.pred (makecallback_depth e2)) eqn:Hd;
      (eexists; split; [reflexivity|]; cbn [env]; now rewrite ?Hd).
  - destruct (Nat.pred (makecallback_depth e2)) eqn:Hd;
      (eexists; split; [reflexivity|]; cbn [env]; now rewrite ?Hd).
Qed.

Lemma rearming_listener_spec callee recv argv e :
  event_name argv = Some "beforeExit" ->
  rearming_listener callee recv argv e
  = if armed e
    then (Some Undefined,
          set_loop_work 1 (Set_ recv "armed" (Boolean false) e))
    else (Some Undefined, e).
Proof. intros H. unfold rearming_listener. rewrite H. reflexivity. Qed.

Lemma Get_after_callback d s ctx e o k :
  Get (set_makecallback_depth d (set_async_id_stack s (scope_entered ctx e)))
      o k
  = Get e o k.
Proof. reflexivity. Qed.

Lemma Get_after_callback_sched d s n ctx e o k o' k' v :
  Get (set_makecallback_depth d
         (set_async_id_stack s
            (set_loop_work n (Set_ o' k' v (scope_entered ctx e)))))
      o k
  = Get (Set_ o' k' v e) o k.
Proof. reflexivity. Qed.

Lemma rearming_world_exit_code_readable e p :
  exists code, before_exit_code_of rearming_world e p = Some code.
Proof.
  unfold before_exit_code_of, MaybeGet.
  change (Get_throws rearming_world e p (exit_code_string rearming_world))
    with false.
  rewrite andb_false_r.
  destruct (Get e p (exit_code_string rearming_world)); simpl; eauto.
Qed.

Lemma rearming_world_before_exit_pass m :
  emit_installed (env m) ->
  loop_work (env m) = 0%nat ->
  exists m',
    RunBeforeExit rearming_world m = Done tt m' /\
    loop_work (env m') = (if armed (env m) then 1 else 0)%nat /\
    armed (env m') = false /\
    emit_installed (env m').
Proof.
  intros (Hemit & Hdom & Hcan) Hidle.
  set (p := process_object (env m)).
  set (ctx := mk_async_context 0 0).
  set (m3 := mk_machine (env m)
               (EvLoopAlive (0 <? loop_work (env m))%nat
                :: EvRunBeforeExitCallbacks :: log m)).
  change (RunBeforeExit rearming_world m)
    with ((if (0 <? loop_work (env m))%nat
           then ret tt else EmitBeforeExit rearming_world) m3).
  rewrite Hidle. cbn [Nat.ltb Nat.leb]. rewrite EmitBeforeExit_unfold.
  change (process_object (env m3)) with p.
  change (env m3) with (env m).
  destruct (rearming_world_exit_code_readable (env m) p) as (code & ->).
  set (argv := [Str "beforeExit"; Integer code]).
  set (e1 := if armed (env m)
             then set_loop_work 1
                    (Set_ p "armed" (Boolean false)
                       (scope_entered ctx (env m)))
             else scope_entered ctx (env m)).
  assert (Hcall : call_function rearming_world 7 p argv
                    (scope_entered ctx (env m)) = (Some Undefined, e1)).
  { change (call_function rearming_world) with rearming_listener.
    rewrite rearming_listener_spec by reflexivity.
    change (armed (scope_entered ctx (env m))) with (armed (env m)).
    unfold e1. destruct (armed (env m)); reflexivity. }
  assert (Hstack : async_id_stack e1 = ctx :: async_id_stack (env m)).
  { unfold e1. destruct (armed (env m)); reflexivity. }
  destruct (MakeCallback_method_returns rearming_world p "emit" argv 0 0 m3
              7 Undefined e1 (async_id_stack (env m)) false
              (set_async_id_stack (async_id_stack (env m)) e1)
              Hemit Hdom Hcan Hcall Hstack eq_refl) as (m' & Hrun & Henv).
  rewrite Hrun. exists m'. split; [reflexivity|]. rewrite Henv.
  unfold e1. unfold emit_installed, armed.
  destruct (Get (env m) (process_object (env m)) "armed")
    as [|[]| | | | |] eqn:Ha;
    cbn [loop_work process_object domain_callback set_makecallback_depth
         set_async_id_stack set_loop_work Set_ set_heap scope_entered].
  all: split; [first [reflexivity | exact Hidle]|].
  all: rewrite ?Get_after_callback, ?Get_after_callback_sched.
  all: first
    [ unfold p; rewrite Get_Set_same, Get_Set_other by discriminate
    | rewrite Ha ].
  all: split; [reflexivity|].
  all: split; [exact Hemit | split; [exact Hdom | exact Hcan]].
Qed.

Lemma event_loop_terminates_after_before_exit_witness :
  armed (env armed_machine) = true /\
  armed (env start_machine) = false /\
  (exists m' tr,
      event_loop rearming_world 2 armed_machine = Done tt m' /\
      log m' = tr ++ log armed_machine /\
      count_events is_uv_run tr = 2%nat /\
      count_events is_before_exit_pass tr = 2%nat) /\
  (exists m' tr,
      event_loop rearming_world 1 start_machine = Done tt m' /\
      log m' = tr ++ log start_machine /\
      count_events is_uv_run tr = 1%nat /\
      count_events is_before_exit_pass tr = 1%nat).
Proof.
  split; [reflexivity|]. split; [reflexivity|]. split.
  - apply (event_loop_terminates_after_before_exit rearming_world armed
             (fun e => eq_refl) emit_installed
             (fun e H => H) rearming_world_before_exit_pass 2 armed_machine).
    + repeat split.
    + intros e. reflexivity.
    + vm_compute. lia.
  - apply (event_loop_terminates_after_before_exit rearming_world armed
             (fun e => eq_refl) emit_installed
             (fun e H => H) rearming_world_before_exit_pass 1 start_machine).
    + repeat split.
    + intros e. reflexivity.
    + vm_compute. lia.
Defined.

(** ** [Hrtime], [ROUND_UP] and [SlicedArguments] *)

(** X1.  [Hrtime] splits the 64-bit nanosecond count without loss: the
    three fields it stores fit in 32 bits each as they are, the third is
    below a second, and (hi * 2^32 + lo) seconds plus the third field in
    nanoseconds is the count again; the rest of the array is left
    alone. *)
Theorem Hrtime_splits_nanoseconds (t : Z) (fields : list Z)
    (Ht : 0 <= t < 2 ^ 64) (Hlen : (3 <= length fields)%nat) :
  exists hi lo ns,
    take 3 (Hrtime t fields) = [hi; lo; ns] /\
    drop 3 (Hrtime t fields) = drop 3 fields /\
    0 <= hi < 2 ^ 32 /\ 0 <= lo < 2 ^ 32 /\ 0 <= ns < NANOS_PER_SEC /\
    (hi * 2 ^ 32 + lo) * NANOS_PER_SEC + ns = t.
Proof.
  destruct fields as [|a [|b [|c rest]]]; simpl in Hlen; try lia.
  unfold Hrtime, to_uint32, NANOS_PER_SEC. simpl.
  eexists _, _, _. split; [reflexivity|]. split; [now rewrite drop_0|].
  set (s := t / 1000000000).
  assert (Hs : 0 <= s < 2 ^ 35).
  { unfold s. split; [apply Z.div_pos; lia|].
    apply Z.div_lt_upper_bound; lia. }
  assert (Hns : 0 <= t mod 1000000000 < 1000000000)
    by (apply Z.mod_pos_bound; lia).
  rewrite Z.shiftr_div_pow2 by lia.
  change 4294967295 with (Z.ones 32).
  rewrite Z.land_ones by lia.
  assert (Hhi : 0 <= s / 2 ^ 32 < 2 ^ 32).
  { split; [apply Z.div_pos; lia|]. apply Z.div_lt_upper_bound; lia. }
  assert (Hlo : 0 <= s mod 2 ^ 32 < 2 ^ 32) by (apply Z.mod_pos_bound; lia).
  rewrite (Z.mod_small (s / 2 ^ 32)) by lia.
  rewrite (Z.mod_small (s mod 2 ^ 32)) by lia.
  rewrite (Z.mod_small (t mod 1000000000)) by lia.
  repeat split; try lia.
  pose proof (Z.div_mod s (2 ^ 32) ltac:(lia)).
  pose proof (Z.div_mod t 1000000000 ltac:(lia)).
  fold s in H0. lia.
Qed.

Lemma Hrtime_splits_nanoseconds_witness :
  exists hi lo ns,
    take 3 (Hrtime (2 ^ 64 - 1) [7; 7; 7; 7]) = [hi; lo; ns] /\
    drop 3 (Hrtime (2 ^ 64 - 1) [7; 7; 7; 7]) = drop 3 [7; 7; 7; 7] /\
    0 <= hi < 2 ^ 32 /\ 0 <= lo < 2 ^ 32 /\ 0 <= ns < NANOS_PER_SEC /\
    (hi * 2 ^ 32 + lo) * NANOS_PER_SEC + ns = 2 ^ 64 - 1.
Proof.
  apply (Hrtime_splits_nanoseconds (2 ^ 64 - 1) [7; 7; 7; 7]).
  - vm_compute. split; [discriminate|reflexivity].
  - simpl. lia.
Defined.



(** X3.  For a negative [a] that is no multiple of a positive [b] the
    macro overshoots: what it gives is a multiple of [b], but more than
    [b] above [a], so not the least one. *)
Theorem ROUND_UP_overshoots_on_negative (a b : Z) (Ha : a < 0) (Hb : 0 < b)
    (Hrem : Z.rem a b <> 0) :
  (b | ROUND_UP a b) /\ a + b < ROUND_UP a b < a + 2 * b.
Proof.
  unfold ROUND_UP.
  destruct (Z.eqb_spec (Z.rem a b) 0) as [E|_]; [contradiction|]. simpl.
  pose proof (Z.rem_bound_pos_neg a b Hb ltac:(lia)) as Hr.
  pose proof (Z.quot_rem a b ltac:(lia)) as Hq.
  split; [|lia].
  exists (Z.quot a b + 1). lia.
Qed.

Lemma ROUND_UP_overshoots_on_negative_witness :
  (-13 < 0 /\ 0 < 8 /\ Z.rem (-13) 8 <> 0) /\
  (8 | ROUND_UP (-13) 8) /\ -13 + 8 < ROUND_UP (-13) 8 < -13 + 2 * 8.
Proof.
  split; [repeat split; try lia; vm_compute; discriminate|].
  apply (ROUND_UP_overshoots_on_negative (-13) 8);
    [lia | lia | vm_compute; discriminate].
Defined.

Lemma copy_args_spec (args : list Value) (start n : nat) :
  forall (i : nat) (buf : list MaybeLocal),
    (i + n <= length buf)%nat ->
    (i + n + start <= length args)%nat ->
    take (i + n) (copy_args args start n i buf) =
    take i buf ++ (Some <$> take n (drop (i + start) args)).
Proof.
  induction n as [|n IH]; intros i buf Hbuf Hargs; simpl.
  - rewrite Nat.add_0_r, app_nil_r. reflexivity.
  - replace (i + S n)%nat with (S i + n)%nat by lia.
    rewrite IH by (rewrite ?length_insert; lia).
    destruct (lookup_lt_is_Some_2 args (i + start)%nat ltac:(lia)) as [x Hx].
    rewrite (take_S_r (<[i:=Some (args_at args (i + start))]> buf) i
               (Some (args_at args (i + start))))
      by (apply list_lookup_insert_eq; lia).
    rewrite take_insert, decide_False by lia.
    rewrite (drop_S args x (i + start)) by exact Hx.
    unfold args_at. rewrite Hx. simpl.
    rewrite <- app_assoc. reflexivity.
Qed.

(** X4.  A [SlicedArguments] holds the arguments from [start] on, in
    order: its size is the number of arguments less [start], or 0 when
    [start] is past the end, its first [size] slots are those
    arguments, and it uses the heap storage exactly when they are more
    than the 64 of the fixed storage. *)
Theorem SlicedArguments_is_slice (args : list Value) (start : nat) :
  size_ (SlicedArguments_new args start) = (length args - start)%nat /\
  take (size_ (SlicedArguments_new args start))
       (sliced_data (SlicedArguments_new args start))
  = (Some <$> drop start args) /\
  (data_ (SlicedArguments_new args start) = in_dynamic
   <-> (64 < length args - start)%nat).
Proof.
  unfold SlicedArguments_new.
  destruct (Nat.leb_spec (length args) start) as [Hle|Hlt]; simpl.
  - split; [lia|]. split.
    + rewrite drop_ge by lia. reflexivity.
    + split; [discriminate|lia].
  - destruct (Nat.ltb_spec 64 (length args - start)) as [Hbig|Hsmall];
      unfold sliced_data; cbn [size_ data_ fixed_ dynamic_].
    + split; [reflexivity|]. split; [|split; [lia|reflexivity]].
      rewrite (copy_args_spec args start (length args - start) 0)
        by (rewrite ?length_replicate; lia).
      rewrite take_0. simpl.
      rewrite take_ge. 2:{ rewrite length_drop. lia. } reflexivity.
    + split; [reflexivity|]. split; [|split; [discriminate|lia]].
      rewrite (copy_args_spec args start (length args - start) 0).
      2:{ simpl. lia. }  2:lia.
      rewrite take_0. simpl.
      rewrite take_ge by (rewrite length_drop; lia). reflexivity.
Qed.

(** ** The options of NODE_OPTIONS *)

Lemma first_index_None (c : ascii) (s : list ascii) :
  first_index c s = None -> c ∉ s.
Proof.
  induction s as [|x s IH]; simpl; intros H.
  - apply not_elem_of_nil.
  - destruct (Ascii.eqb_spec x c) as [E|E]; [discriminate|].
    destruct (first_index c s); [discriminate|].
    apply not_elem_of_cons. split; [congruence|]. now apply IH.
Qed.

Lemma first_index_Some (c : ascii) (s : list ascii) (k : nat) :
  first_index c s = Some k ->
  exists t rest, s = t ++ c :: rest /\ length t = k /\ c ∉ t.
Proof.
  revert k. induction s as [|x s IH]; simpl; intros k H; [discriminate|].
  destruct (Ascii.eqb_spec x c) as [E|E].
  - inversion H. subst. exists [], s. repeat split. apply not_elem_of_nil.
  - destruct (first_index c s) as [k'|] eqn:Ek; [|discriminate].
    inversion H. destruct (IH k' eq_refl) as (t & rest & -> & Hl & Hn).
    exists (x :: t), rest. repeat split; simpl; [lia|].
    apply not_elem_of_cons. split; [congruence|exact Hn].
Qed.

Lemma split_node_options_spec (s : list ascii)
    (Hsize : Z.of_nat (length s) < npos) :
  forall (fuel : nat) (pre rest : list ascii) (index : Z)
         (acc : list (list ascii)),
    s = pre ++ rest ->
    (index = npos /\ pre = []) \/
    (index = Z.of_nat (length pre) - 1 /\ pre <> []) ->
    (length rest < fuel)%nat ->
    exists opts,
      split_node_options fuel s index acc = split_done (acc ++ opts) /\
      split_at_spaces rest opts.
Proof.
  induction fuel as [|fuel IH]; intros pre rest index acc Hs Hidx Hfuel;
    [lia|].
  assert (Hlen : Z.of_nat (length s)
                 = Z.of_nat (length pre) + Z.of_nat (length rest)).
  { rewrite Hs, length_app. lia. }
  assert (Hpre : 0 < Z.of_nat (length pre) \/ pre = []).
  { destruct pre; [now right|left; simpl; lia]. }
  assert (Hp : size_type (index + 1) = Z.of_nat (length pre)).
  { unfold size_type, npos in *.
    destruct Hidx as [[-> ->]|[-> Hne]]; [reflexivity|].
    destruct Hpre as [Hpos|?]; [|contradiction].
    rewrite Z.mod_small; lia. }
  assert (Hdrop : drop (Z.to_nat (Z.of_nat (length pre))) s = rest).
  { rewrite Nat2Z.id, Hs. apply drop_app_length. }
  cbn [split_node_options]. unfold string_find.
  rewrite Hp, Hdrop.
  destruct (first_index " "%char rest) as [k|] eqn:Ek.
  - destruct (first_index_Some _ _ _ Ek) as (t & rest' & Hrest & Hk & Hnt).
    assert (Hlr : Z.of_nat (length rest)
                  = Z.of_nat k + 1 + Z.of_nat (length rest')).
    { rewrite Hrest, length_app. simpl. lia. }
    assert (Hdiff : size_type (Z.of_nat (length pre) + Z.of_nat k - index)
                    = Z.of_nat k + 1).
    { unfold size_type, npos in *.
      destruct Hidx as [[-> ->]|[-> Hne]]; simpl length.
      - replace (Z.of_nat 0 + Z.of_nat k - (2 ^ 64 - 1))
          with (Z.of_nat k + 1 + (-1) * 2 ^ 64) by lia.
        rewrite Z.mod_add by lia. rewrite Z.mod_small; lia.
      - rewrite Z.mod_small; lia. }
    assert (Hnn : (Z.of_nat (length pre) + Z.of_nat k =? npos) = false).
    { apply Z.eqb_neq. lia. }
    assert (Hnext :
      s = (pre ++ t ++ [" "%char]) ++ rest' /\
      Z.of_nat (length pre) + Z.of_nat k
      = Z.of_nat (length (pre ++ t ++ [" "%char])) - 1 /\
      pre ++ t ++ [" "%char] <> []).
    { split; [|split].
      - rewrite Hs, Hrest, <- !app_assoc. reflexivity.
      - rewrite !length_app. simpl. lia.
      - intros E. apply (f_equal length) in E.
        rewrite !length_app in E. simpl in E. lia. }
    destruct Hnext as (Hs' & Hidx' & Hne').
    rewrite Hdiff, Hnn. cbn [negb].
    destruct (Z.eqb_spec (Z.of_nat k + 1) 1) as [E1|E1].
    + assert (k = 0)%nat by lia. subst k.
      destruct t; [|discriminate].
      destruct (IH _ rest' _ acc Hs' (or_intror (conj Hidx' Hne')) ltac:(lia))
        as (opts & Hrun & Hsp).
      exists opts. split; [exact Hrun|].
      rewrite Hrest. apply (split_more [] rest' opts Hnt Hsp).
    + unfold string_substr.
      destruct (Z.ltb_spec (Z.of_nat (length s)) (Z.of_nat (length pre)))
        as [Hbad|_]; [lia|].
      replace (size_type (Z.of_nat (length pre) + Z.of_nat k - index - 1))
        with (Z.of_nat k).
      2:{ unfold size_type in *.
          replace (Z.of_nat (length pre) + Z.of_nat k - index - 1)
            with (Z.of_nat (length pre) + Z.of_nat k - index + (-1)) by lia.
          rewrite <- Zplus_mod_idemp_l, Hdiff.
          rewrite Z.mod_small; unfold npos in *; lia. }
      rewrite Z.min_l by lia.
      rewrite Hdrop, Nat2Z.id, Hrest, <- Hk, take_app_length.
      assert (Hte : string_empty t = false).
      { destruct t; [simpl in Hk; lia|reflexivity]. }
      rewrite Hte. cbn [negb].
      destruct (IH _ rest' _ (acc ++ [t]) Hs' (or_intror (conj Hidx' Hne'))
                  ltac:(lia)) as (opts & Hrun & Hsp).
      exists (t :: opts). split.
      * rewrite <- Hk in Hrun. rewrite Hrun, <- app_assoc. reflexivity.
      * replace (t :: opts) with (option_of t ++ opts)
          by (destruct t; [discriminate|reflexivity]).
        apply (split_more t rest' opts Hnt Hsp).
  - pose proof (first_index_None _ _ Ek) as Hnt.
    assert (Hdiff : (size_type (npos - index) =? 1) = false).
    { apply Z.eqb_neq. unfold size_type, npos in *.
      destruct Hidx as [[-> ->]|[-> Hne]].
      - rewrite Z.sub_diag. discriminate.
      - destruct Hpre as [Hpos|?]; [|contradiction].
        rewrite Z.mod_small; lia. }
    rewrite Hdiff. unfold string_substr.
    destruct (Z.ltb_spec (Z.of_nat (length s)) (Z.of_nat (length pre)))
      as [Hbad|_]; [lia|].
    rewrite Z.min_r.
    2:{ unfold size_type, npos in *.
        destruct Hidx as [[-> ->]|[-> Hne]].
        - replace (2 ^ 64 - 1 - (2 ^ 64 - 1) - 1)
            with (2 ^ 64 - 1 + (-1) * 2 ^ 64) by lia.
          rewrite Z.mod_add by lia. rewrite Z.mod_small; lia.
        - destruct Hpre as [Hpos|?]; [|contradiction].
          rewrite Z.mod_small; lia. }
    replace (Z.of_nat (length s) - Z.of_nat (length pre))
      with (Z.of_nat (length rest)) by lia.
    rewrite Hdrop, Nat2Z.id, firstn_all.
    rewrite Z.eqb_refl. cbn [negb].
    exists (option_of rest). split; [|apply split_last; exact Hnt].
    destruct rest; simpl; [now rewrite app_nil_r|reflexivity].
Qed.

Lemma split_at_spaces_options (s : list ascii) (opts : list (list ascii)) :
  split_at_spaces s opts ->
  Forall (fun o => o <> [] /\ " "%char ∉ o) opts /\
  concat opts = filter (fun c => c <> " "%char) s.
Proof.
  assert (Hfil : forall t : list ascii,
            " "%char ∉ t -> filter (fun c => c <> " "%char) t = t).
  { induction t as [|x t IHt]; intros Hn; [reflexivity|].
    apply not_elem_of_cons in Hn as [Hx Ht].
    rewrite filter_cons_True by congruence. now rewrite IHt. }
  assert (Hopt : forall t : list ascii,
            " "%char ∉ t ->
            Forall (fun o => o <> [] /\ " "%char ∉ o) (option_of t) /\
            concat (option_of t) = t).
  { intros [|x t] Hn; simpl; [split; [constructor|reflexivity]|].
    split; [|now rewrite app_nil_r].
    constructor; [split; [discriminate|exact Hn]|constructor]. }
  induction 1 as [t Hn|t rest opts Hn Hsp [IHF IHc]].
  - destruct (Hopt t Hn) as [HF Hc]. split; [exact HF|].
    rewrite Hc. symmetry. now apply Hfil.
  - destruct (Hopt t Hn) as [HF Hc]. split.
    + apply Forall_app. split; assumption.
    + rewrite concat_app, Hc, IHc, filter_app, (Hfil t Hn).
      rewrite filter_cons_False by (intros E; now apply E).
      reflexivity.
Qed.

(** X5.  Init splits NODE_OPTIONS at each space and keeps the pieces that
    are not empty, in order, after the program name; the loop ends
    within one round per character plus one and [substr] never throws. *)
Theorem Init_splits_NODE_OPTIONS_at_spaces (argv0 node_options : list ascii)
    (Hsize : Z.of_nat (length node_options) < npos) :
  exists opts,
    Init_env_argv (S (length node_options)) argv0 node_options
    = split_done (argv0 :: opts) /\
    split_at_spaces node_options opts.
Proof.
  unfold Init_env_argv.
  destruct (split_node_options_spec node_options Hsize
              (S (length node_options)) [] node_options npos [argv0]
              eq_refl (or_introl (conj eq_refl eq_refl)) ltac:(lia))
    as (opts & Hrun & Hsp).
  exists opts. split; [exact Hrun|exact Hsp].
Qed.

Lemma Init_splits_NODE_OPTIONS_at_spaces_witness :
  exists opts,
    Init_env_argv 11 (list_ascii_of_string "node")
                  (list_ascii_of_string " --a  -b=1 ")
    = split_done (list_ascii_of_string "node" :: opts) /\
    split_at_spaces (list_ascii_of_string " --a  -b=1 ") opts.
Proof.
  apply (Init_splits_NODE_OPTIONS_at_spaces
           (list_ascii_of_string "node") (list_ascii_of_string " --a  -b=1 ")).
  vm_compute. reflexivity.
Defined.

(** X6.  No option taken from NODE_OPTIONS is empty or holds a space, and
    the options together are the characters of NODE_OPTIONS other than
    spaces, in order. *)
Theorem Init_NODE_OPTIONS_options_have_no_space
    (argv0 node_options : list ascii) (env_argv : list (list ascii))
    (Hsize : Z.of_nat (length node_options) < npos)
    (Hrun : Init_env_argv (S (length node_options)) argv0 node_options
            = split_done env_argv) :
  exists opts,
    env_argv = argv0 :: opts /\
    Forall (fun o => o <> [] /\ " "%char ∉ o) opts /\
    concat opts = filter (fun c => c <> " "%char) node_options.
Proof.
  unfold Init_env_argv in Hrun.
  destruct (split_node_options_spec node_options Hsize
              (S (length node_options)) [] node_options npos [argv0]
              eq_refl (or_introl (conj eq_refl eq_refl)) ltac:(lia))
    as (opts & Hrun' & Hsp).
  rewrite Hrun' in Hrun. inversion Hrun as [E].
  exists opts. split; [reflexivity|].
  now apply split_at_spaces_options.
Qed.

Lemma Init_NODE_OPTIONS_options_have_no_space_witness :
  exists opts,
    [list_ascii_of_string "node"; list_ascii_of_string "--a";
     list_ascii_of_string "-b=1"]
    = list_ascii_of_string "node" :: opts /\
    Forall (fun o => o <> [] /\ " "%char ∉ o) opts /\
    concat opts
    = filter (fun c => c <> " "%char) (list_ascii_of_string " --a  -b=1 ").
Proof.
  apply (Init_NODE_OPTIONS_options_have_no_space
           (list_ascii_of_string "node") (list_ascii_of_string " --a  -b=1 ")).
  - vm_compute. reflexivity.
  - vm_compute. reflexivity.
Defined.

(** ** Process warnings *)

Ltac warning_step := cbv beta iota; cbn [env log fst snd].



(** X8.  A deprecation warning reaches [process.emitWarning] as the
    three strings (warning, "DeprecationWarning", code), and the answer
    is Just(true) exactly when the call returned a value. *)
Theorem ProcessEmitDeprecationWarning_arguments (W : World)
    (V : WarningWorld) (warning code : string) (m : Machine)
    (f : nat) (w t c : Value)
    (Hget : Get_is_empty V (env m) (process_object (env m))
              (emit_warning_string V) = false)
    (Hfun : Get (env m) (process_object (env m)) (emit_warning_string V)
            = Function f)
    (Hw : NewFromUtf8 V warning = Some w)
    (Ht : NewFromOneByte V "DeprecationWarning" = Some t)
    (Hc : NewFromOneByte V code = Some c) :
  exists r m',
    ProcessEmitDeprecationWarning W V warning (Some code) m = Done r m' /\
    log m' = EvCall f (process_object (env m)) [w; t; c] (env m) :: log m /\
    (r = Some true <->
     fst (call_function W f (process_object (env m)) [w; t; c] (env m))
     <> None) /\
    (r = None <->
     fst (call_function W f (process_object (env m)) [w; t; c] (env m))
     = None).
Proof.
  destruct m as [e l]. cbn [env log] in *.
  unfold ProcessEmitDeprecationWarning, ProcessEmitWarningGeneric, Call.
  run_step. rewrite Hget. warning_step. rewrite Hfun. cbn [as_function].
  rewrite Hw, Ht, Hc. warning_step.
  destruct (call_function W f (process_object e) [w; t; c] e) as [[v|] e'];
    warning_step; eexists _, _; (split; [reflexivity|]);
    (split; [reflexivity|]); split; split; congruence.
Qed.

Lemma ProcessEmitDeprecationWarning_arguments_witness :
  exists r m',
    ProcessEmitDeprecationWarning quiet_world plain_strings
      "old api" (Some "DEP0001") warning_machine = Done r m' /\
    log m' = EvCall 9 1 [Str "old api"; Str "DeprecationWarning";
                         Str "DEP0001"] (env warning_machine)
             :: log warning_machine /\
    (r = Some true <->
     fst (call_function quiet_world 9 1
            [Str "old api"; Str "DeprecationWarning"; Str "DEP0001"]
            (env warning_machine)) <> None) /\
    (r = None <->
     fst (call_function quiet_world 9 1
            [Str "old api"; Str "DeprecationWarning"; Str "DEP0001"]
            (env warning_machine)) = None).
Proof.
  apply (ProcessEmitDeprecationWarning_arguments quiet_world plain_strings
           "old api" "DEP0001" warning_machine 9);
    vm_compute; reflexivity.
Defined.

(** X9.  When [process.emitWarning] is not a function, of managed code
    or native, the warning is dropped: the answer is Just(false),
    nothing is called and nothing changes, whatever the warning, type
    and code. *)
Theorem ProcessEmitWarningGeneric_without_emitWarning (W : World)
    (V : WarningWorld) (warning : string) (type code : option string)
    (m : Machine)
    (Hget : Get_is_empty V (env m) (process_object (env m))
              (emit_warning_string V) = false)
    (Hfun : IsFunction
              (Get (env m) (process_object (env m)) (emit_warning_string V))
            = false) :
  ProcessEmitWarningGeneric W V warning type code m = Done (Some false) m.
Proof.
  destruct m as [e l]. cbn [env log] in *.
  unfold ProcessEmitWarningGeneric. run_step. rewrite Hget. warning_step.
  apply (as_function_None W) in Hfun. rewrite Hfun. reflexivity.
Qed.

Lemma ProcessEmitWarningGeneric_without_emitWarning_witness :
  ProcessEmitWarningGeneric quiet_world plain_strings "careful"
    (Some "Warning") (Some "W1") start_machine
  = Done (Some false) start_machine.
Proof.
  apply (ProcessEmitWarningGeneric_without_emitWarning quiet_world
           plain_strings "careful" (Some "Warning") (Some "W1")
           start_machine).
  - vm_compute. reflexivity.
  - vm_compute. reflexivity.
Defined.

(** ** More on the loop, the callbacks and the exit sequence *)

Ltac log_assoc :=
  repeat first [rewrite <- app_assoc | rewrite <- app_comm_cons];
  reflexivity.

Lemma bind_Fatal {A B} (c : M A) (k : A -> M B) m m' :
  c m = Fatal m' -> bind c k m = Fatal m'.
Proof. intros H. unfold bind. now rewrite H. Qed.

Lemma bind_OutOfFuel {A B} (c : M A) (k : A -> M B) m m' :
  c m = OutOfFuel m' -> bind c k m = OutOfFuel m'.
Proof. intros H. unfold bind. now rewrite H. Qed.

Lemma hd_error_app_Some {A} (x : A) (a b : list A) :
  hd_error a = Some x -> hd_error (a ++ b) = Some x.
Proof. destruct a; [discriminate | exact id]. Qed.

(** X13.  The loop of [Start] makes at most one before-exit pass per
    round of [uv_run] and at most one round per unit of fuel; and it
    returns only right after a round whose before-exit pass left the
    loop without referenced work, so the before-exit hooks always get
    their turn before the exit sequence. *)
Theorem event_loop_returns_after_before_exit_pass (W : World) (fuel : nat)
    (m : Machine) :
  exists tr,
    log (machine_of (event_loop W fuel m)) = tr ++ log m /\
    (count_events is_before_exit_pass tr <= count_events is_uv_run tr)%nat /\
    (count_events is_uv_run tr <= fuel)%nat /\
    match event_loop W fuel m with
    | Done _ m' =>
        loop_work (env m') = 0%nat /\
        (1 <= count_events is_before_exit_pass tr)%nat /\
        hd_error tr = Some (EvLoopAlive false)
    | _ => True
    end.
Proof.
  revert m. induction fuel as [|fuel IH]; intros m.
  - exists []. simpl. repeat split; unfold count_events; simpl; lia.
  - rewrite event_loop_unfold.
    set (e1 := DrainTasks W (uv_run W (env m))).
    destruct (0 <? loop_work e1)%nat eqn:Ha.
    + destruct (IH (mk_machine e1 (EvLoopAlive true :: EvDrainVMTasks
                                     :: EvUvRun :: log m)))
        as (tr & Hlog & Hle & Hfu & Hdone).
      exists (tr ++ [EvLoopAlive true; EvDrainVMTasks; EvUvRun]).
      cbn [log] in Hlog. rewrite Hlog, <- app_assoc.
      split; [reflexivity|].
      rewrite !count_events_app.
      change (count_events is_before_exit_pass
                [EvLoopAlive true; EvDrainVMTasks; EvUvRun]) with 0%nat.
      change (count_events is_uv_run
                [EvLoopAlive true; EvDrainVMTasks; EvUvRun]) with 1%nat.
      split; [lia|]. split; [lia|].
      destruct (event_loop W fuel _) as [[] m'| |]; try exact I.
      destruct Hdone as (H0 & H1 & Hhd).
      split; [exact H0|]. split; [lia|].
      now apply hd_error_app_Some.
    + set (m1 := mk_machine e1 (EvLoopAlive false :: EvDrainVMTasks
                                  :: EvUvRun :: log m)).
      destruct (RunBeforeExit_log_counts W m1) as (tp & Hlp & Hup & Hpp).
      destruct (RunBeforeExit W m1) as [[] m2|m2|m2] eqn:HR;
        cbn [machine_of] in Hlp;
        [rewrite (bind_Done _ _ _ _ _ HR)
        |rewrite (bind_Fatal _ _ _ _ HR)
        |rewrite (bind_OutOfFuel _ _ _ _ HR)].
      * rewrite (bind_Done _ _ _ _ _ (uv_loop_alive_spec m2)).
        destruct (0 <? loop_work (env m2))%nat eqn:Hb.
        -- destruct (IH (mk_machine (env m2) (EvLoopAlive true :: log m2)))
             as (tr & Hlog & Hle & Hfu & Hdone).
           exists (tr ++ EvLoopAlive true :: tp
                      ++ [EvLoopAlive false; EvDrainVMTasks; EvUvRun]).
           cbn [log] in Hlog.
           split; [rewrite Hlog, Hlp; unfold m1; cbn [log]; log_assoc|].
           rewrite !count_events_app.
           change (EvLoopAlive true :: tp
                     ++ [EvLoopAlive false; EvDrainVMTasks; EvUvRun])
             with ([EvLoopAlive true] ++ tp
                     ++ [EvLoopAlive false; EvDrainVMTasks; EvUvRun]).
           rewrite !count_events_app, Hup, Hpp.
           change (count_events is_before_exit_pass
                     [EvLoopAlive false; EvDrainVMTasks; EvUvRun])
             with 0%nat.
           change (count_events is_uv_run
                     [EvLoopAlive false; EvDrainVMTasks; EvUvRun])
             with 1%nat.
           change (count_events is_before_exit_pass [EvLoopAlive true])
             with 0%nat.
           change (count_events is_uv_run [EvLoopAlive true]) with 0%nat.
           split; [lia|]. split; [lia|].
           destruct (event_loop W fuel _) as [[] m'| |]; try exact I.
           destruct Hdone as (H0 & H1 & Hhd).
           split; [exact H0|]. split; [lia|].
           now apply hd_error_app_Some.
        -- exists (EvLoopAlive false :: tp
                     ++ [EvLoopAlive false; EvDrainVMTasks; EvUvRun]).
           unfold ret. cbn [machine_of log env].
           split; [rewrite Hlp; unfold m1; cbn [log]; log_assoc|].
           change (EvLoopAlive false :: tp
                     ++ [EvLoopAlive false; EvDrainVMTasks; EvUvRun])
             with ([EvLoopAlive false] ++ tp
                     ++ [EvLoopAlive false; EvDrainVMTasks; EvUvRun]).
           rewrite !count_events_app, Hup, Hpp.
           change (count_events is_before_exit_pass
                     [EvLoopAlive false; EvDrainVMTasks; EvUvRun])
             with 0%nat.
           change (count_events is_uv_run
                     [EvLoopAlive false; EvDrainVMTasks; EvUvRun])
             with 1%nat.
           change (count_events is_before_exit_pass [EvLoopAlive false])
             with 0%nat.
           change (count_events is_uv_run [EvLoopAlive false]) with 0%nat.
           split; [lia|]. split; [lia|].
           apply Nat.ltb_ge in Hb.
           split; [lia|]. split; [lia|reflexivity].
      * exists (tp ++ [EvLoopAlive false; EvDrainVMTasks; EvUvRun]).
        cbn [machine_of].
        split; [rewrite Hlp; unfold m1; cbn [log]; log_assoc|].
        rewrite !count_events_app, Hup, Hpp.
        change (count_events is_before_exit_pass
                  [EvLoopAlive false; EvDrainVMTasks; EvUvRun])
          with 0%nat.
        change (count_events is_uv_run
                  [EvLoopAlive false; EvDrainVMTasks; EvUvRun])
          with 1%nat.
        split; [lia|]. split; [lia|exact I].
      * exists (tp ++ [EvLoopAlive false; EvDrainVMTasks; EvUvRun]).
        cbn [machine_of].
        split; [rewrite Hlp; unfold m1; cbn [log]; log_assoc|].
        rewrite !count_events_app, Hup, Hpp.
        change (count_events is_before_exit_pass
                  [EvLoopAlive false; EvDrainVMTasks; EvUvRun])
          with 0%nat.
        change (count_events is_uv_run
                  [EvLoopAlive false; EvDrainVMTasks; EvUvRun])
          with 1%nat.
        split; [lia|]. split; [lia|exact I].
Qed.

(** X15.  The exit sequence of [Start] switches the tracing of
    synchronous I/O off before it emits 'exit', and forbids calls into
    managed code only afterwards: every call the sequence makes starts
    with tracing off and with [can_call_into_js] as the loop left it. *)
Theorem exit_sequence_emits_exit_with_tracing_off (W : World) (m : Machine) :
  exists tr,
    log (machine_of (exit_sequence W m)) = tr ++ log m /\
    Forall (exit_listener_env (env m)) tr.
Proof.
  pose proof (exit_sequence_after_EmitExit W m) as Hseq.
  rewrite EmitExit_unfold in Hseq. cbv zeta in Hseq. simpl env in Hseq.
  simpl log in Hseq.
  assert (Hcb : forall ctx p argv tr,
    Forall (callback_event ctx p argv
              (Set_ p "_exiting" (Boolean true)
                 (set_trace_sync_io false (env m)))) tr ->
    Forall (exit_listener_env (env m)) tr).
  { intros ctx p argv tr HF. eapply Forall_impl; [exact HF|].
    intros [] Hev; simpl in *; try exact I.
    destruct Hev as (_ & _ & ->). split; reflexivity. }
  destruct (Set_is_nothing W _ _ _ _); cbv beta iota in Hseq.
  { exists []. rewrite Hseq. split; [reflexivity | constructor]. }
  destruct (exit_code_of W _ _) as [code|]; cbv beta iota in Hseq.
  2:{ exists []. rewrite Hseq. split; [reflexivity | constructor]. }
  match type of Hseq with
  | context [MakeCallback_method W ?p ?n ?a ?c ?m0] =>
      destruct (MakeCallback_method_log W p n a c m0)
        as (tr & Hlog & HF & _);
      destruct (MakeCallback_method W p n a c m0) as [[v|] m2| |] eqn:E
  end; simpl in Hlog; apply Hcb in HF; cbv beta iota in Hseq.
  - destruct (exit_code_of W (env m2) _) as [code'|]; cbv beta iota in Hseq.
    + destruct Hseq as (m' & w & e3 & Hrun & Hl & Hw & _).
      exists ([EvCancelVMTasks; EvDrainVMTasks; EvRunAtExit; EvRunCleanup;
               EvSetCanCallIntoJs false] ++ w ++ tr).
      rewrite Hrun. cbn [machine_of]. rewrite Hl, Hlog.
      split; [log_assoc|].
      apply Forall_app. split; [repeat constructor|].
      apply Forall_app. split; [|exact HF].
      eapply Forall_impl; [exact Hw|]. intros ev ->. exact I.
    + exists tr. rewrite Hseq. split; [exact Hlog|exact HF].
  - exists tr. rewrite Hseq. split; [exact Hlog|exact HF].
  - exists tr. rewrite Hseq. split; [exact Hlog|exact HF].
  - exists tr. rewrite Hseq. split; [exact Hlog|exact HF].
Qed.

Lemma wrap_int32_fixed (z : Z) :
  wrap_int32 z = z <-> - 2 ^ 31 <= z < 2 ^ 31.
Proof.
  unfold wrap_int32. split.
  - intros H. pose proof (Z.mod_pos_bound (z + 2 ^ 31) (2 ^ 32) ltac:(lia)).
    lia.
  - intros H. rewrite Z.mod_small; lia.
Qed.

(** X14.  The listeners of 'beforeExit' are handed the exit code as the
    process object holds it, the listeners of 'exit' the same code
    wrapped into 32 bits; the two differ exactly when the code is
    outside the signed 32-bit range. *)
Theorem exit_code_handed_to_listeners (W : World) (m : Machine) (z : Z)
    (Hcode : Get (env m) (process_object (env m)) (exit_code_string W)
             = Integer z)
    (Hname : exit_code_string W <> "_exiting") :
  (exists tr,
     log (machine_of (EmitBeforeExit W m)) = tr ++ log m /\
     Forall (announces "beforeExit" z) tr) /\
  (exists tr,
     log (machine_of (EmitExit W m)) = tr ++ log m /\
     Forall (announces "exit" (wrap_int32 z)) tr) /\
  (wrap_int32 z = z <-> - 2 ^ 31 <= z < 2 ^ 31).
Proof.
  assert (Hcb : forall name code ctx p e tr,
    Forall (callback_event ctx p [Str name; Integer code] e) tr ->
    Forall (announces name code) tr).
  { intros name code ctx p e tr HF. eapply Forall_impl; [exact HF|].
    intros [] Hev; simpl in *; try exact I.
    destruct Hev as (_ & [-> | [cb ->]] & _); [now left|right; now exists cb]. }
  split; [|split; [|apply wrap_int32_fixed]].
  - rewrite EmitBeforeExit_unfold. unfold before_exit_code_of.
    rewrite MaybeGet_data by (rewrite Hcode; discriminate).
    rewrite Hcode. cbn [ToInteger].
    match goal with
    | |- context [MakeCallback_method W ?p ?n ?a ?c ?m0] =>
        destruct (MakeCallback_method_log W p n a c m0)
          as (tr & Hlog & HF & _);
        destruct (MakeCallback_method W p n a c m0) as [[v|] m2| |]
    end; simpl in Hlog; exists tr; (split; [exact Hlog|]);
      eapply Hcb; exact HF.
  - rewrite EmitExit_unfold. cbv zeta.
    destruct (Set_is_nothing W _ _ _ _);
      [exists []; split; [reflexivity | constructor]|].
    rewrite (exit_code_of_Integer W _ _ z).
    2:{ rewrite Get_Set_other by (intros E; apply Hname; now rewrite E).
        exact Hcode. }
    match goal with
    | |- context [MakeCallback_method W ?p ?n ?a ?c ?m0] =>
        destruct (MakeCallback_method_log W p n a c m0)
          as (tr & Hlog & HF & _);
        destruct (MakeCallback_method W p n a c m0) as [[v|] m2| |]
    end; simpl in Hlog;
      try (destruct (exit_code_of W (env m2) _));
      exists tr; (split; [exact Hlog|]);
      eapply Hcb; exact HF.
Qed.

Lemma exit_code_handed_to_listeners_witness :
  (exists tr,
     log (machine_of (EmitBeforeExit quiet_world start_machine))
       = tr ++ log start_machine /\
     Forall (announces "beforeExit" 0) tr) /\
  (exists tr,
     log (machine_of (EmitExit quiet_world start_machine))
       = tr ++ log start_machine /\
     Forall (announces "exit" (wrap_int32 0)) tr) /\
  (wrap_int32 0 = 0 <-> - 2 ^ 31 <= 0 < 2 ^ 31).
Proof.
  apply (exit_code_handed_to_listeners quiet_world start_machine 0).
  - vm_compute. reflexivity.
  - vm_compute. discriminate.
Defined.

(** X10.  A [MakeCallback] by property name on a receiver whose
    property of that name can be read and is not a function, of managed
    code or native, does nothing: it answers an empty handle (not
    undefined, whatever the callback depth), constructs no scope, calls
    nothing and leaves the environment as it is.  When reading the
    property throws, the process aborts there. *)
Theorem MakeCallback_by_name_needs_a_function (W : World) (recv : nat)
    (name : string) (argv : list Value) (ctx : async_context) (m : Machine) :
  (forall v,
      MaybeGet W (env m) recv name = Some v ->
      IsFunction v = false ->
      MakeCallback_method W recv name argv ctx m = Done None m /\
      MakeCallback_symbol W recv name argv ctx m = Done None m /\
      MakeCallback_legacy_method W recv name argv m = Done None m /\
      MakeCallback_legacy_symbol W recv name argv m = Done None m) /\
  (MaybeGet W (env m) recv name = None ->
   MakeCallback_method W recv name argv ctx m = Fatal m /\
   MakeCallback_symbol W recv name argv ctx m = Fatal m /\
   MakeCallback_legacy_method W recv name argv m = Fatal m /\
   MakeCallback_legacy_symbol W recv name argv m = Fatal m).
Proof.
  split.
  - intros v Hread Hnone.
    assert (H : forall c,
               MakeCallback_symbol W recv name argv c m = Done None m).
    { intros c. unfold MakeCallback_symbol. run_step. rewrite Hread.
      cbn [ToLocalChecked]. run_step.
      apply (as_function_None W) in Hnone. rewrite Hnone.
      destruct m; reflexivity. }
    repeat split; apply H.
  - intros Hread.
    assert (H : forall c,
               MakeCallback_symbol W recv name argv c m = Fatal m).
    { intros c. unfold MakeCallback_symbol. run_step. rewrite Hread.
      destruct m; reflexivity. }
    repeat split; apply H.
Qed.

Lemma MakeCallback_by_name_needs_a_function_witness :
  (MakeCallback_method quiet_world 1 "exitCode" [Str "x"]
     (mk_async_context 5 1) start_machine = Done None start_machine /\
   MakeCallback_symbol quiet_world 1 "exitCode" [Str "x"]
     (mk_async_context 5 1) start_machine = Done None start_machine /\
   MakeCallback_legacy_method quiet_world 1 "exitCode" [Str "x"]
     start_machine = Done None start_machine /\
   MakeCallback_legacy_symbol quiet_world 1 "exitCode" [Str "x"]
     start_machine = Done None start_machine) /\
  MakeCallback_method throwing_getter_world 1 "onmessage" [Str "x"]
    (mk_async_context 5 1) start_machine = Fatal start_machine.
Proof.
  split.
  - apply (proj1 (MakeCallback_by_name_needs_a_function quiet_world 1
                    "exitCode" [Str "x"] (mk_async_context 5 1)
                    start_machine) (Integer 0));
      vm_compute; reflexivity.
  - apply (proj2 (MakeCallback_by_name_needs_a_function throwing_getter_world
                    1 "onmessage" [Str "x"] (mk_async_context 5 1)
                    start_machine)).
    vm_compute. reflexivity.
Defined.

(** X11.  While managed code may be called, [InternalMakeCallback] makes
    exactly one call, right after the push of its scope.  With async id
    0 and a domain callback installed the call goes to the domain
    callback, with the callback put in front of the arguments; in every
    other case it goes to the callback itself with the arguments as
    given.  Once managed callbacks are forbidden the scope fails at its
    construction: nothing is pushed, nothing is called, and the answer
    is an empty handle. *)
Theorem InternalMakeCallback_routes_through_domain (W : World) (r cb : nat)
    (argv : list Value) (ctx : async_context) (m : Machine) :
  exists after,
    log (machine_of (InternalMakeCallback W (Some r) cb argv ctx m))
    = after
      ++ (if can_call_into_js (env m)
          then [EvCall (fst (routed_call (env m) ctx cb argv)) r
                       (snd (routed_call (env m) ctx cb argv))
                       (scope_entered ctx (env m));
                EvPushAsyncIds ctx]
          else [])
      ++ log m /\
    Forall (fun ev => is_call ev = false) after /\
    (can_call_into_js (env m) = false ->
     after = [] /\
     InternalMakeCallback W (Some r) cb argv ctx m = Done None m).
Proof.
  destruct (can_call_into_js (env m)) eqn:Hcan.
  - destruct ctx as [i t].
    unfold InternalMakeCallback, InternalCallbackScope_new, Call,
      InternalCallbackScope_delete, Close, push_async_ids, pop_async_id,
      AsyncCallbackScope_enter, AsyncCallbackScope_leave, flush, routed_call.
    run_step. rewrite Hcan. simpl.
    destruct (domain_callback (env m)) as [d|]; destruct (i =? 0); simpl;
      repeat (case_split; simpl);
      (eexists; split; [solve_log_upto
                       | split; [repeat constructor | discriminate]]).
  - rewrite (InternalMakeCallback_forbidden W r cb argv ctx m Hcan).
    exists []. split; [reflexivity|]. split; [constructor|].
    intros _. split; reflexivity.
Qed.

(** ** The isolate of [Start] *)

Lemma logs_at_impl {A} (P Q : Event -> Prop) (c : M A) m :
  (forall ev, P ev -> Q ev) -> logs_at P c m -> logs_at Q c m.
Proof.
  intros HPQ (tr & Hlog & HF). exists tr. split; [exact Hlog|].
  eapply Forall_impl; [exact HF | exact HPQ].
Qed.

Lemma MakeCallback_method_logs_at W r name argv ctx m :
  logs_at (callback_event ctx r argv (env m))
          (MakeCallback_method W r name argv ctx) m.
Proof.
  destruct (MakeCallback_method_log W r name argv ctx m) as (tr & Hl & HF & _).
  exists tr. split; assumption.
Qed.

Lemma callback_event_no_isolate ctx r argv e ev :
  callback_event ctx r argv e ev -> is_isolate_event ev = false.
Proof. destruct ev; simpl; try reflexivity; contradiction. Qed.

Lemma EmitExit_no_isolate W m :
  logs_at (fun ev => is_isolate_event ev = false) (EmitExit W) m.
Proof.
  unfold logs_at. rewrite EmitExit_unfold. cbv zeta.
  destruct (Set_is_nothing W _ _ _ _);
    [exists []; split; [reflexivity | constructor]|].
  destruct (exit_code_of W _ _) as [code|];
    [|exists []; split; [reflexivity | constructor]].
  match goal with
  | |- context [MakeCallback_method W ?p ?n ?a ?c ?m0] =>
      destruct (MakeCallback_method_log W p n a c m0) as (tr & Hlog & HF & _)
  end.
  exists tr. split.
  { destruct (MakeCallback_method _ _ _ _ _ _) as [[v|] m2| |];
      simpl in *; try exact Hlog.
    destruct (exit_code_of W (env m2) _); exact Hlog. }
  eapply Forall_impl; [exact HF|].
  intros ev. apply callback_event_no_isolate.
Qed.

Lemma exit_sequence_no_isolate W m :
  logs_at (fun ev => is_isolate_event ev = false) (exit_sequence W) m.
Proof.
  unfold exit_sequence.
  apply logs_at_bind; [apply logs_at_modify|]. intros [] m1 _.
  apply logs_at_bind; [apply EmitExit_no_isolate|].
  intros code m2 _.
  apply logs_at_bind.
  { unfold WaitForInspectorDisconnect.
    destruct (HAVE_INSPECTOR W); [|apply logs_at_ret].
    apply logs_at_bind; [apply logs_at_read|]. intros [] m3 _;
      [|apply logs_at_ret].
    apply logs_at_bind; [now apply logs_at_emit|].
    intros. apply logs_at_modify. }
  intros [] m3 _.
  apply logs_at_bind; [now apply logs_at_emit|]. intros [] m4 _.
  apply logs_at_bind; [apply logs_at_modify|]. intros [] m5 _.
  apply logs_at_bind; [now apply logs_at_emit|]. intros [] m6 _.
  apply logs_at_bind; [apply logs_at_modify|]. intros [] m7 _.
  apply logs_at_bind.
  { unfold RunAtExit. apply logs_at_bind; [now apply logs_at_emit|].
    intros. apply logs_at_modify. }
  intros [] m8 _.
  apply logs_at_bind.
  { unfold DrainVMTasks. apply logs_at_bind; [now apply logs_at_emit|].
    intros. apply logs_at_modify. }
  intros [] m9 _.
  apply logs_at_bind.
  { unfold CancelVMTasks. apply logs_at_bind; [now apply logs_at_emit|].
    intros. apply logs_at_modify. }
  intros. apply logs_at_ret.
Qed.

Lemma Start_isolate_no_isolate W fuel m :
  logs_at (fun ev => is_isolate_event ev = false) (Start_isolate W fuel) m.
Proof.
  unfold Start_isolate.
  apply logs_at_bind; [now apply logs_at_emit|]. intros [] m1 _.
  apply logs_at_bind; [apply logs_at_modify|]. intros [] m2 _.
  apply logs_at_bind.
  { unfold StartInspector, v8_platform_StartInspector.
    destruct (HAVE_INSPECTOR W); [|apply logs_at_ret].
    apply logs_at_bind; [apply logs_at_read|]. intros [] m3 _;
      [apply logs_at_fatal|].
    apply logs_at_bind; [now apply logs_at_emit|]. intros [] m4 _.
    apply logs_at_bind; [|intros; apply logs_at_ret].
    destruct (NODE_USE_V8_PLATFORM W); [apply logs_at_ask|].
    apply logs_at_bind; [now apply logs_at_emit|].
    intros. apply logs_at_ret. }
  intros [] m3 _.
  apply logs_at_bind; [apply logs_at_read|]. intros enabled m4 _.
  apply logs_at_bind.
  { unfold v8_platform_InspectorStarted.
    destruct (_ && _); [apply logs_at_read|apply logs_at_ret]. }
  intros started m5 _.
  destruct (enabled && negb started); [apply logs_at_ret|].
  unfold RunLoop.
  apply logs_at_bind.
  { destruct (bootstrap_block_log W m5) as (boot & Hb & HFb & _).
    exists ((EvPopAsyncId 1 :: boot)
            ++ [EvPushAsyncIds (mk_async_context 1 0)]).
    split; [rewrite Hb; log_assoc|].
    apply Forall_app. split.
    - constructor; [reflexivity|].
      eapply Forall_impl; [exact HFb|].
      intros []; simpl; intros; try reflexivity; discriminate.
    - repeat constructor. }
  intros [] m6 _.
  apply logs_at_bind.
  { eapply logs_at_impl; [|apply event_loop_logs].
    intros []; simpl; intros; try reflexivity; contradiction. }
  intros [] m7 _. apply exit_sequence_no_isolate.
Qed.

(** X16.  [Start] registers the isolate on the platform before anything
    else and disposes of it once, as its very last step, in every run
    that returns; a run that aborts or runs out of fuel has registered
    it and never disposed of it; and when the isolate cannot be
    allocated nothing at all happens and the answer is 12. *)
Theorem Start_registers_then_disposes_isolate (W : World) (fuel : nat)
    (m : Machine) :
  match Start_loop W fuel m with
  | Done code m' =>
      if Isolate_Allocate W
      then exists mid,
             log m' = EvDisposeIsolate :: mid ++ EvRegisterIsolate :: log m /\
             Forall (fun ev => is_isolate_event ev = false) mid
      else m' = m /\ code = 12
  | Fatal m' | OutOfFuel m' =>
      exists mid,
        log m' = mid ++ EvRegisterIsolate :: log m /\
        Forall (fun ev => is_isolate_event ev = false) mid
  end.
Proof.
  unfold Start_loop, NewIsolate.
  destruct (Isolate_Allocate W).
  - set (m1 := mk_machine (env m) (EvRegisterIsolate :: log m)).
    change ((isolate <- (emit_event EvRegisterIsolate;;; ret true);;
             (if isolate : bool
              then exit_code <- Start_isolate W fuel;;
                   emit_event EvDisposeIsolate;;; ret exit_code
              else ret 12)) m)
      with ((exit_code <- Start_isolate W fuel;;
             emit_event EvDisposeIsolate;;; ret exit_code) m1).
    destruct (Start_isolate_no_isolate W fuel m1) as (tr & Hl & HF).
    unfold bind at 1.
    destruct (Start_isolate W fuel m1) as [code m2|m2|m2];
      cbn [machine_of] in Hl.
    + run_step. exists tr. split; [now rewrite Hl|exact HF].
    + exists tr. split; [exact Hl|exact HF].
    + exists tr. split; [exact Hl|exact HF].
  - run_step. destruct m. split; reflexivity.
Qed.

Lemma callback_event_announces name code ctx p e tr :
  Forall (callback_event ctx p [Str name; Integer code] e) tr ->
  Forall (announces name code) tr.
Proof.
  intros HF. eapply Forall_impl; [exact HF|].
  intros [] Hev; simpl in *; try exact I.
  destruct Hev as (_ & [-> | [cb ->]] & _); [now left|right; now exists cb].
Qed.

(** X12.  [RunBeforeExit] runs the native before-exit callbacks first
    and announces 'beforeExit' only when they left the loop without
    referenced work: with work left it returns without a call.  With
    none left it reads the exit code of the process object and converts
    it to an integer, and aborts when either throws; then it looks up
    [process.emit], and aborts when that read throws or when what it
    finds is not a function, of managed code or native (the empty
    handle that [MakeCallback] then answers); when it is a function it
    goes through [MakeCallback], which makes exactly one call,
    announcing 'beforeExit' with that exit code, while managed code may
    be called, and none once it is forbidden. *)
Theorem RunBeforeExit_emits_only_on_idle_loop (W : World) (m : Machine) :
  let e1 := RunBeforeExitCallbacks W (env m) in
  let m3 := mk_machine e1 (EvLoopAlive (0 <? loop_work e1)%nat
                             :: EvRunBeforeExitCallbacks :: log m) in
  if (0 <? loop_work e1)%nat
  then RunBeforeExit W m = Done tt m3
  else
    match before_exit_code_of W e1 (process_object e1) with
    | None => RunBeforeExit W m = Fatal m3
    | Some code =>
        match MaybeGet W e1 (process_object e1) "emit" with
        | None => RunBeforeExit W m = Fatal m3
        | Some emit =>
            if IsFunction emit
            then
              exists tr,
                log (machine_of (RunBeforeExit W m)) = tr ++ log m3 /\
                count_events is_call tr
                = (if can_call_into_js e1 then 1 else 0)%nat /\
                Forall (fun ev => is_emission "beforeExit" ev = is_call ev)
                       tr /\
                Forall (announces "beforeExit" code) tr
            else RunBeforeExit W m = Fatal m3
        end
    end.
Proof.
  intros e1 m3.
  change (RunBeforeExit W m)
    with ((if (0 <? loop_work e1)%nat then ret tt else EmitBeforeExit W) m3).
  destruct (0 <? loop_work e1)%nat eqn:Halive; [reflexivity|].
  rewrite EmitBeforeExit_unfold.
  change (env m3) with e1.
  destruct (before_exit_code_of W e1 (process_object e1)) as [code|];
    [|reflexivity].
  destruct (MaybeGet W e1 (process_object e1) "emit") as [emit|] eqn:HM.
  2:{ unfold MakeCallback_method, MakeCallback_symbol. run_step.
      rewrite HM. reflexivity. }
  destruct (IsFunction emit) eqn:HF.
  - apply (as_function_IsFunction W) in HF. destruct HF as [f Hf].
    rewrite (MaybeGet_Some _ _ _ _ _ HM) in Hf.
    match goal with
    | |- context [MakeCallback_method W ?p ?n ?a ?c ?m0] =>
        destruct (MakeCallback_method_log W p n a c m0)
          as (tr & Hlog & HFc & _ & Hone & _);
        destruct (MakeCallback_method W p n a c m0) as [[v|] m2| |]
    end; cbn [machine_of env log] in *;
      (exists tr; split; [exact Hlog|]; split; [exact (Hone f Hf)|];
       split; [eapply callback_event_emission; exact HFc
              | eapply callback_event_announces; exact HFc]).
  - apply (as_function_None W) in HF.
    unfold MakeCallback_method, MakeCallback_symbol. run_step.
    rewrite HM. cbn [ToLocalChecked]. run_step. rewrite HF. reflexivity.
Qed.

(** ** The credential setters *)

Lemma validate_groups_first {St} (C : Credentials St) (l : list Value) :
  forall (k i : nat) (g : Value) (e : JsError),
    l !! i = Some g ->
    validateId C g ("groups[" ++ pretty (k + i)%nat ++ "]") = Some e ->
    (forall j g', (j < i)%nat -> l !! j = Some g' ->
       validateId C g' ("groups[" ++ pretty (k + j)%nat ++ "]") = None) ->
    validate_groups C l k = Some e.
Proof.
  induction l as [|x l IH]; intros k i g e Hg Hbad Hfirst; [discriminate|].
  destruct i as [|i]; simpl in *.
  - injection Hg as ->. rewrite Nat.add_0_r in Hbad. now rewrite Hbad.
  - pose proof (Hfirst 0%nat x ltac:(lia) eq_refl) as H0.
    rewrite Nat.add_0_r in H0. rewrite H0.
    apply (IH (S k) i g e Hg).
    + now replace (S k + i)%nat with (k + S i)%nat by lia.
    + intros j g' Hj Hl.
      replace (S k + j)%nat with (k + S j)%nat by lia.
      apply (Hfirst (S j) g'); [lia|exact Hl].
Qed.

Lemma validate_groups_all_valid {St} (C : Credentials St) (l : list Value) :
  forall k : nat,
    (forall j g, l !! j = Some g ->
       validateId C g ("groups[" ++ pretty (k + j)%nat ++ "]") = None) ->
    validate_groups C l k = None.
Proof.
  induction l as [|x l IH]; intros k Hvalid; [reflexivity|]. simpl.
  pose proof (Hvalid 0%nat x eq_refl) as H0.
  rewrite Nat.add_0_r in H0. rewrite H0.
  apply IH. intros j g Hl.
  replace (S k + j)%nat with (k + S j)%nat by lia.
  apply (Hvalid (S j) g Hl).
Qed.

(** X17.  setgroups checks every group before it changes anything: when
    the argument is no array, or some group is neither a valid number
    nor a string, it throws, for an array the error of the first such
    group, and the native setter has not been called. *)
Theorem setgroups_validates_before_setting {St} (C : Credentials St)
    (l : list Value) (s : St) (i : nat) (g : Value) (e : JsError)
    (Hg : l !! i = Some g)
    (Hbad : validateId C g ("groups[" ++ pretty i ++ "]") = Some e)
    (Hfirst : forall j g', (j < i)%nat -> l !! j = Some g' ->
       validateId C g' ("groups[" ++ pretty j ++ "]") = None) :
  setgroups C (js_array l) s = (throws e, s) /\
  forall v,
    setgroups C (not_an_array v) s
    = (throws (ERR_INVALID_ARG_TYPE "groups" ["Array"] (not_an_array v)), s).
Proof.
  split; [|reflexivity].
  unfold setgroups.
  now rewrite (validate_groups_first C l 0 i g e Hg Hbad Hfirst).
Qed.

Lemma setgroups_validates_before_setting_witness :
  setgroups recording_credentials
    (js_array [Integer 5; Boolean true; Integer (-1)]) []
  = (throws (ERR_INVALID_ARG_TYPE "groups[1]" ["number"; "string"]
               (not_an_array (Boolean true))), []) /\
  forall v,
    setgroups recording_credentials (not_an_array v) []
    = (throws (ERR_INVALID_ARG_TYPE "groups" ["Array"] (not_an_array v)), []).
Proof.
  apply (setgroups_validates_before_setting recording_credentials
           [Integer 5; Boolean true; Integer (-1)] [] 1 (Boolean true)).
  - reflexivity.
  - vm_compute. reflexivity.
  - intros j g' Hj Hl. destruct j as [|j]; [|lia].
    injection Hl as <-. vm_compute. reflexivity.
Defined.

(** X18.  When every group is valid, setgroups hands the list to the
    native setter once, and when that answers the position of a group it
    does not know, counted from 1, the error thrown names that very
    group of the list. *)
Theorem setgroups_names_the_unknown_group {St} (C : Credentials St)
    (l : list Value) (s : St) (k : nat) (g : Value)
    (Hvalid : forall j g', l !! j = Some g' ->
       validateId C g' ("groups[" ++ pretty j ++ "]") = None)
    (Hr : fst (_setgroups C l s) = Z.of_nat k + 1)
    (Hk : l !! k = Some g) :
  setgroups C (js_array l) s
  = (throws (ERR_UNKNOWN_CREDENTIAL "Group" g), snd (_setgroups C l s)).
Proof.
  unfold setgroups.
  rewrite (validate_groups_all_valid C l 0 Hvalid), Hr.
  destruct (Z.ltb_spec 0 (Z.of_nat k + 1)) as [_|Hneg]; [|lia].
  unfold js_index.
  destruct (Z.ltb_spec (Z.of_nat k + 1 - 1) 0) as [Hneg|_]; [lia|].
  replace (Z.of_nat k + 1 - 1) with (Z.of_nat k) by lia.
  now rewrite Nat2Z.id, Hk.
Qed.

Lemma setgroups_names_the_unknown_group_witness :
  setgroups recording_credentials
    (js_array [Integer 5; Integer 2000; Str "staff"]) []
  = (throws (ERR_UNKNOWN_CREDENTIAL "Group" (Integer 2000)),
     snd (_setgroups recording_credentials
            [Integer 5; Integer 2000; Str "staff"] [])).
Proof.
  apply (setgroups_names_the_unknown_group recording_credentials
           [Integer 5; Integer 2000; Str "staff"] [] 1 (Integer 2000)).
  - intros j g' Hl.
    destruct j as [|[|[|j]]]; try discriminate;
      injection Hl as <-; vm_compute; reflexivity.
  - vm_compute. reflexivity.
  - reflexivity.
Defined.

(** ** [process.umask] *)

Lemma to_uint32_wrap_int32 (z : Z) :
  0 <= z < 2 ^ 32 -> to_uint32 (wrap_int32 z) = z.
Proof.
  intros Hz. unfold to_uint32, wrap_int32.
  destruct (Z_lt_dec z (2 ^ 31)) as [Hs|Hb].
  - rewrite (Z.mod_small (z + 2 ^ 31)) by lia.
    replace (z + 2 ^ 31 - 2 ^ 31) with z by lia.
    apply Z.mod_small. lia.
  - replace (z + 2 ^ 31) with (z - 2 ^ 31 + 1 * 2 ^ 32) by lia.
    rewrite Z.mod_add by lia.
    rewrite (Z.mod_small (z - 2 ^ 31)) by lia.
    replace (z - 2 ^ 31 - 2 ^ 31) with (z + (-1) * 2 ^ 32) by lia.
    rewrite Z.mod_add by lia. apply Z.mod_small. lia.
Qed.

(** X19.  Given a umask(2) that answers the mask it replaces and
    installs the permission bits of its argument, [process.umask()]
    without a mask answers the current mask and leaves it in place, and
    [process.umask(mask)] answers the current mask and installs the
    permission bits of [mask]; so a mask that was set is the mask that a
    later query answers. *)
Theorem Umask_query_keeps_the_mask {K} (umask : Z -> K -> Z * K)
    (mask_of : K -> Z) (k : K) (z : Z)
    (Hold : forall new k0, fst (umask new k0) = mask_of k0)
    (Hnew : forall new k0, mask_of (snd (umask new k0)) = Z.land new 511)
    (Hmask : 0 <= mask_of k <= 511)
    (Hz : 0 <= z < 2 ^ 32) :
  (exists k1, Umask umask [Undefined] k = Some (mask_of k, k1) /\
              mask_of k1 = mask_of k) /\
  (exists k2, Umask umask [Integer z] k = Some (mask_of k, k2) /\
              mask_of k2 = Z.land z 511 /\
              exists k3, Umask umask [Undefined] k2 = Some (Z.land z 511, k3) /\
                         mask_of k3 = Z.land z 511).
Proof.
  assert (Hq : forall k0, 0 <= mask_of k0 <= 511 ->
            exists k1, Umask umask [Undefined] k0 = Some (mask_of k0, k1) /\
                       mask_of k1 = mask_of k0).
  { intros k0 H0. unfold Umask. rewrite !Hold.
    assert (Hu : to_uint32 (mask_of k0) = mask_of k0)
      by (apply Z.mod_small; lia).
    rewrite !Hu. eexists. split; [reflexivity|].
    rewrite Hnew. change 511 with (Z.ones 9).
    rewrite Z.land_ones by lia. apply Z.mod_small.
    change (2 ^ 9) with 512. lia. }
  split; [apply Hq; exact Hmask|].
  unfold Umask at 1.
  destruct (Z.leb_spec 0 z) as [_|?]; [|lia].
  destruct (Z.ltb_spec z (2 ^ 32)) as [_|?]; [|lia].
  cbn [andb]. rewrite Hold, to_uint32_wrap_int32 by exact Hz.
  assert (Hu : to_uint32 (mask_of k) = mask_of k) by (apply Z.mod_small; lia).
  rewrite Hu.
  eexists. split; [reflexivity|]. split; [apply Hnew|].
  assert (Hland : 0 <= Z.land z 511 <= 511).
  { change 511 with (Z.ones 9). rewrite Z.land_ones by lia.
    pose proof (Z.mod_pos_bound z (2 ^ 9) ltac:(lia)).
    change (2 ^ 9) with 512 in *. change (Z.ones 9) with 511. lia. }
  destruct (Hq (snd (umask z k)) ltac:(rewrite Hnew; exact Hland))
    as (k3 & Hrun & Hk3).
  exists k3. rewrite Hnew in Hrun, Hk3. split; assumption.
Qed.

Lemma Umask_query_keeps_the_mask_witness :
  (exists k1,
     Umask (fun new k0 => (k0, Z.land new 511)) [Undefined] 18
     = Some (18, k1) /\ k1 = 18) /\
  (exists k2,
     Umask (fun new k0 => (k0, Z.land new 511)) [Integer 63] 18
     = Some (18, k2) /\
     k2 = Z.land 63 511 /\
     exists k3,
       Umask (fun new k0 => (k0, Z.land new 511)) [Undefined] k2
       = Some (Z.land 63 511, k3) /\
       k3 = Z.land 63 511).
Proof.
  apply (Umask_query_keeps_the_mask (fun new k0 => (k0, Z.land new 511))
           (fun k0 => k0) 18 63).
  - reflexivity.
  - reflexivity.
  - vm_compute. split; discriminate.
  - vm_compute. split; [discriminate|reflexivity].
Defined.

(** X20.  While every round of [uv_run] and the platform tasks leaves
    referenced work, the loop of [Start] goes on: whatever fuel it is
    given it uses up, one round of [uv_run] per unit, without making a
    before-exit pass and without entering managed code, and the
    environment is what the rounds made of it. *)
Theorem event_loop_goes_on_while_work_remains (W : World) (fuel : nat)
    (m : Machine)
    (Hbusy : forall e, (0 < loop_work (DrainTasks W (uv_run W e)))%nat) :
  exists tr,
    event_loop W fuel m
    = OutOfFuel (mk_machine (Nat.iter fuel (fun e => DrainTasks W (uv_run W e))
                                      (env m))
                            (tr ++ log m)) /\
    count_events is_uv_run tr = fuel /\
    count_events is_before_exit_pass tr = 0%nat /\
    count_events is_managed_entry tr = 0%nat.
Proof.
  revert m. induction fuel as [|fuel IH]; intros m.
  - exists []. destruct m. repeat split.
  - rewrite event_loop_unfold.
    pose proof (Hbusy (env m)) as Hb. apply Nat.ltb_lt in Hb. rewrite Hb.
    destruct (IH (mk_machine (DrainTasks W (uv_run W (env m)))
                    (EvLoopAlive true :: EvDrainVMTasks :: EvUvRun :: log m)))
      as (tr & Hrun & Hu & Hp & Hm).
    exists (tr ++ [EvLoopAlive true; EvDrainVMTasks; EvUvRun]).
    rewrite Hrun. cbn [env log]. split.
    + f_equal. f_equal; [|log_assoc].
      rewrite Nat.iter_succ_r. reflexivity.
    + rewrite !count_events_app, Hu, Hp, Hm.
      repeat split; unfold count_events; simpl; lia.
Qed.

Lemma event_loop_goes_on_while_work_remains_witness :
  exists tr,
    event_loop busy_world 3 start_machine
    = OutOfFuel (mk_machine
                   (Nat.iter 3 (fun e => DrainTasks busy_world
                                           (uv_run busy_world e))
                             (env start_machine))
                   (tr ++ log start_machine)) /\
    count_events is_uv_run tr = 3%nat /\
    count_events is_before_exit_pass tr = 0%nat /\
    count_events is_managed_entry tr = 0%nat.
Proof.
  apply (event_loop_goes_on_while_work_remains busy_world 3 start_machine).
  intros e. simpl. lia.
Defined.
